(** * wav-artist: the spectral-analysis engine of [src/lib/audioProcessor.ts]

    A shallow embedding of the [AudioProcessor] class and the properties its
    specification states about it.

    Numbers.  A JavaScript [number] is modelled as an extended rational:
    a finite value, one of the two infinities, or NaN.  Arithmetic is exact
    (the rounding of IEEE-754 doubles and of [Float32Array] stores is not
    modelled, and the two zeros are identified), but division by zero, NaN
    propagation and the comparisons with NaN behave as in the language.
    Finite results are kept in lowest terms, so that equal numbers are
    syntactically equal.

    The transcendental functions of [Math] are implementation-approximated
    in ECMAScript; they are taken as a parameter ([HostMath]) and only the
    special cases the standard fixes are built in.

    Arrays.  A [Float32Array] or [Array] is a [list number]; a read outside
    the bounds (or at a fractional index) yields [undefined], which every
    use in this file coerces to NaN; a typed-array write outside the bounds
    is ignored.

    Sizes.  [fftSize], [windowSize] and [hopSize] are integers, as the data
    model of the specification has them.

    Completions.  A call returns a value, throws, or does not return
    ([outcome]); the promise of [analyze] is its completion. *)

From Stdlib Require Import ZArith QArith Qround Qabs Qminmax Lqa Lia.
From stdpp Require Import base list gmap sorting.

Open Scope Z_scope.

(** ** Numbers *)

Module Number.

Inductive number : Type :=
| Finite (q : Q)
| PosInf
| NegInf
| NaN.

Definition fin (q : Q) : number := Finite (Qred q).
Definition of_Z (z : Z) : number := Finite (inject_Z z).
Definition of_nat (n : nat) : number := of_Z (Z.of_nat n).

Definition inf_of_sign (c : comparison) : number :=
  match c with Gt => PosInf | Lt => NegInf | Eq => NaN end.

Definition neg (x : number) : number :=
  match x with
  | Finite q => fin (- q)
  | PosInf => NegInf
  | NegInf => PosInf
  | NaN => NaN
  end.

Definition add (x y : number) : number :=
  match x, y with
  | NaN, _ | _, NaN => NaN
  | Finite a, Finite b => fin (a + b)
  | PosInf, NegInf | NegInf, PosInf => NaN
  | PosInf, _ | _, PosInf => PosInf
  | NegInf, _ | _, NegInf => NegInf
  end.

Definition sub (x y : number) : number :=
  match x, y with
  | NaN, _ | _, NaN => NaN
  | Finite a, Finite b => fin (a - b)
  | PosInf, PosInf | NegInf, NegInf => NaN
  | PosInf, _ | _, NegInf => PosInf
  | NegInf, _ | _, PosInf => NegInf
  end.

Definition mul (x y : number) : number :=
  match x, y with
  | NaN, _ | _, NaN => NaN
  | Finite a, Finite b => fin (a * b)
  | Finite a, PosInf | PosInf, Finite a => inf_of_sign (a ?= 0)%Q
  | Finite a, NegInf | NegInf, Finite a => inf_of_sign (0 ?= a)%Q
  | PosInf, PosInf | NegInf, NegInf => PosInf
  | PosInf, NegInf | NegInf, PosInf => NegInf
  end.

(** [x / 0] is an infinity of the sign of [x], and [0 / 0] is NaN. *)
Definition div (x y : number) : number :=
  match x, y with
  | NaN, _ | _, NaN => NaN
  | Finite a, Finite b =>
      if Qeq_bool b 0 then inf_of_sign (a ?= 0)%Q else fin (a / b)
  | Finite _, (PosInf | NegInf) => Finite 0
  | (PosInf | NegInf), (PosInf | NegInf) => NaN
  | PosInf, Finite b => if Qle_bool 0 b then PosInf else NegInf
  | NegInf, Finite b => if Qle_bool 0 b then NegInf else PosInf
  end.

(** [x < y]; false as soon as one side is NaN. *)
Definition lt (x y : number) : bool :=
  match x, y with
  | NaN, _ | _, NaN => false
  | Finite a, Finite b => match (a ?= b)%Q with Lt => true | _ => false end
  | _, NegInf => false
  | NegInf, _ => true
  | PosInf, _ => false
  | _, PosInf => true
  end.

(** [x <= y]; false as soon as one side is NaN. *)
Definition le (x y : number) : bool :=
  match x, y with
  | NaN, _ | _, NaN => false
  | Finite a, Finite b => match (a ?= b)%Q with Gt => false | _ => true end
  | NegInf, _ => true
  | _, PosInf => true
  | _, NegInf => false
  | PosInf, _ => false
  end.

Definition gt (x y : number) : bool := lt y x.
Definition ge (x y : number) : bool := le y x.

(** [x !== y] on numbers: true as soon as one side is NaN. *)
Definition strict_ne (x y : number) : bool :=
  match x, y with
  | NaN, _ | _, NaN => true
  | Finite a, Finite b => negb (Qeq_bool a b)
  | PosInf, PosInf | NegInf, NegInf => false
  | _, _ => true
  end.

(** [Math.abs] *)
Definition abs (x : number) : number :=
  match x with
  | Finite q => fin (Qabs q)
  | PosInf | NegInf => PosInf
  | NaN => NaN
  end.

(** [Math.max] and [Math.min] of two arguments: NaN if either is. *)
Definition max (x y : number) : number :=
  match x, y with
  | NaN, _ | _, NaN => NaN
  | _, _ => if lt x y then y else x
  end.

Definition min (x y : number) : number :=
  match x, y with
  | NaN, _ | _, NaN => NaN
  | _, _ => if lt y x then y else x
  end.

(** [Math.max(...xs)]: minus infinity on no argument. *)
Definition max_list (xs : list number) : number := foldl max NegInf xs.

(** [Math.floor] *)
Definition floor (x : number) : number :=
  match x with
  | Finite q => of_Z (Qfloor q)
  | _ => x
  end.

(** The integer a number denotes, if it is one (used for array indices). *)
Definition to_index (x : number) : option nat :=
  match x with
  | Finite q =>
      if Qeq_bool q (inject_Z (Qfloor q)) && (0 <=? Qfloor q)
      then Some (Z.to_nat (Qfloor q)) else None
  | _ => None
  end.

End Number.

Import Number.

Declare Scope num_scope.
Delimit Scope num_scope with num.
Bind Scope num_scope with number.
Infix "+" := add : num_scope.
Infix "-" := sub : num_scope.
Infix "*" := mul : num_scope.
Infix "/" := div : num_scope.
Infix "<?" := lt : num_scope.
Infix "<=?" := le : num_scope.
Infix ">?" := gt : num_scope.
Infix ">=?" := ge : num_scope.
Notation "- x" := (neg x) : num_scope.

(** Numeric literals of the source. *)
Definition num (q : Q) : number := fin q.

(** ** The host's [Math] object *)

(** [Math.cos], [Math.sin], [Math.sqrt] and [Math.log10] on the finite
    arguments the standard leaves to the implementation. *)
Record HostMath : Type := {
  host_cos : Q → Q;
  host_sin : Q → Q;
  host_sqrt : Q → Q;
  host_log10 : Q → Q
}.

(** [Math.PI], the double nearest to pi. *)
Definition Math_PI : number := num (884279719003555 # 281474976710656).

Section MathObject.
Context (host : HostMath).

Definition Math_cos (x : number) : number :=
  match x with
  | Finite q => if Qeq_bool q 0 then num 1 else fin (host_cos host q)
  | _ => NaN
  end.

Definition Math_sin (x : number) : number :=
  match x with
  | Finite q => if Qeq_bool q 0 then num 0 else fin (host_sin host q)
  | _ => NaN
  end.

Definition Math_sqrt (x : number) : number :=
  match x with
  | Finite q =>
      if Qeq_bool q 0 then num 0
      else if Qle_bool 0 q then fin (host_sqrt host q) else NaN
  | PosInf => PosInf
  | NegInf | NaN => NaN
  end.

Definition Math_log10 (x : number) : number :=
  match x with
  | Finite q =>
      if Qeq_bool q 0 then NegInf
      else if Qeq_bool q 1 then num 0
      else if Qle_bool 0 q then fin (host_log10 host q) else NaN
  | PosInf => PosInf
  | NegInf | NaN => NaN
  end.
End MathObject.

(** A small rational math library, used to run the model on concrete
    inputs: truncated Taylor polynomials and a few Newton steps. *)
Definition coarse_sqrt (q : Q) : Q :=
  let step x := Qred ((x + q / x) / 2) in
  step (step (step (step (Qred ((q + 1) / 2))))).

Definition coarseHost : HostMath := {|
  host_cos q := (1 - q * q / 2 + q * q * q * q / 24)%Q;
  host_sin q := (q - q * q * q / 6 + q * q * q * q * q / 120)%Q;
  host_sqrt := coarse_sqrt;
  host_log10 q := ((q - 1) / (q + 1) * 0.8686)%Q
|}.

(** ** Completions of a call *)

Inductive error : Type :=
| RangeError       (* an invalid array or typed-array length *)
| IndexSizeError.  (* [getChannelData] beyond the channel count *)

(** A call returns a value, throws, or never returns. *)
Inductive outcome (A : Type) : Type :=
| Return (a : A)
| Throw (e : error)
| Diverge.
Arguments Return {A} a.
Arguments Throw {A} e.
Arguments Diverge {A}.

Global Instance outcome_ret : MRet outcome := λ A a, Return a.
Global Instance outcome_bind : MBind outcome := λ A B k m,
  match m with
  | Return a => k a
  | Throw e => Throw e
  | Diverge => Diverge
  end.

(** ** Arrays *)

(** [a[i]] where a number is expected: NaN outside the bounds. *)
Definition get (a : list number) (i : nat) : number := default NaN (a !! i).

(** [a[i]] at an integer index that may be negative. *)
Definition getZ (a : list number) (i : Z) : number :=
  if i <? 0 then NaN else get a (Z.to_nat i).

(** [a[j]] at an index that is itself a number. *)
Definition get_num (a : list number) (j : number) : number :=
  match to_index j with Some i => get a i | None => NaN end.

(** [new Float32Array(n)], zero-filled; a negative length is refused. *)
Definition new_Float32Array (n : Z) : outcome (list number) :=
  if n <? 0 then Throw RangeError else Return (replicate (Z.to_nat n) (num 0)).

(** [for (let i = a; i < b; i++) s = body i s] *)
Definition for_range {S : Type} (a b : nat) (body : nat → S → S) (s : S) : S :=
  foldl (λ s i, body i s) s (seq a (b - a)).

(** ** Data model *)

Record SpectralFeature : Type := {
  frequency : number;
  magnitude : number;
  phase : number;
  bandwidth : number
}.

Record HarmonicSeries : Type := {
  fundamental : number;
  overtones : list SpectralFeature;
  strength : number;
  inharmonicity : number
}.

Record AnalysisSettings : Type := {
  fftSize : Z;
  windowSize : Z;
  hopSize : Z;
  minFreq : number;
  maxFreq : number;
  harmonicThreshold : number;
  noiseFloor : number
}.

Record AnalysisResult : Type := {
  spectralFeatures : list SpectralFeature;
  harmonics : list HarmonicSeries;
  fundamentalFreq : option number;
  spectralCentroid : number;
  spectralRolloff : number;
  spectralFlux : number;
  rmsLevel : number;
  peakLevel : number;
  sampleRate : number;
  duration : number;
  envelope : list number;
  spectrogram : list (list number)
}.

(** The Web Audio [AudioBuffer] as the processor reads it. *)
Record AudioBuffer : Type := {
  buffer_sampleRate : number;
  buffer_duration : number;
  buffer_channels : list (list number)
}.

Definition numberOfChannels (b : AudioBuffer) : nat := length (buffer_channels b).

Definition getChannelData (b : AudioBuffer) (c : nat) : outcome (list number) :=
  match buffer_channels b !! c with
  | Some data => Return data
  | None => Throw IndexSizeError
  end.

(** [Array.prototype.sort] with a comparator: a stable insertion sort.
    [cmp a b > 0] puts [b] first; a zero or NaN result keeps the order. *)
Section Sort.
Context {A : Type} (cmp : A → A → number).

Fixpoint sort_insert (x : A) (l : list A) : list A :=
  match l with
  | [] => [x]
  | y :: l' => if (cmp x y >? num 0)%num then y :: sort_insert x l' else x :: l
  end.

Definition array_sort (l : list A) : list A := foldr sort_insert [] l.
End Sort.

(** The comparator [(a, b) => b.key - a.key] of the two sorts of the
    source, and the order it sorts into. *)
Definition by_key_descending {A : Type} (key : A → number) (a b : A) : number :=
  (key b - key a)%num.

(** Descending order of a numeric key. *)
Definition descending {A : Type} (key : A → number) (a b : A) : Prop :=
  (key a >=? key b)%num = true.

(** ** Window Generator: [createWindow] *)

Section Engine.
Context (host : HostMath).

Definition window_coefficient (size : Z) (i : nat) : number :=
  let a0 := num 0.35875 in
  let a1 := num 0.48829 in
  let a2 := num 0.14128 in
  let a3 := num 0.01168 in
  (a0 -
   a1 * Math_cos host (num 2 * Math_PI * of_nat i / (of_Z size - num 1)) +
   a2 * Math_cos host (num 4 * Math_PI * of_nat i / (of_Z size - num 1)) -
   a3 * Math_cos host (num 6 * Math_PI * of_nat i / (of_Z size - num 1)))%num.

Definition createWindow (size : Z) : outcome (list number) :=
  window ← new_Float32Array size;
  mret (for_range 0 (Z.to_nat size)
          (λ i window, <[i := window_coefficient size i]> window) window).

(** ** FFT Engine: [fft] *)

(** [while (j & bit) { j ^= bit; bit >>= 1; }]; [bit] is halved each
    round, so a fuel of [N > bit] rounds is never exhausted. *)
Fixpoint clear_high_bits (fuel : nat) (j bit : Z) : Z * Z :=
  match fuel with
  | O => (j, bit)
  | S fuel =>
      if Z.land j bit =? 0 then (j, bit)
      else clear_high_bits fuel (Z.lxor j bit) (Z.shiftr bit 1)
  end.

Definition next_reversed (N j : Z) : Z :=
  let '(j, bit) := clear_high_bits (Z.to_nat N) j (Z.shiftr N 1) in
  Z.lxor j bit.

(** [[a[i], a[j]] = [a[j], a[i]]] *)
Definition swap (a : list number) (i j : nat) : list number :=
  <[j := get a i]> (<[i := get a j]> a).

Definition bit_reversal (real imag : list number) : list number * list number :=
  let N := length real in
  let '(_, real, imag) :=
    for_range 1 N
      (λ i '(j, real, imag),
         let j := next_reversed (Z.of_nat N) j in
         if Z.of_nat i <? j
         then (j, swap real i (Z.to_nat j), swap imag i (Z.to_nat j))
         else (j, real, imag))
      (0, real, imag) in
  (real, imag).

(** [for (let len = 2; len <= N; len *= 2)] *)
Fixpoint for_doubling {S : Type} (fuel : nat) (len N : nat)
    (body : nat → S → S) (s : S) : S :=
  match fuel with
  | O => s
  | S fuel =>
      if (len <=? N)%nat then for_doubling fuel (2 * len) N body (body len s)
      else s
  end.

(** [for (let i = 0; i < N; i += len)] *)
Fixpoint for_stride {S : Type} (fuel : nat) (i stop step : nat)
    (body : nat → S → S) (s : S) : S :=
  match fuel with
  | O => s
  | S fuel =>
      if (i <? stop)%nat then for_stride fuel (i + step) stop step body (body i s)
      else s
  end.

Definition butterfly (wlen : number) (len i j : nat)
    (ri : list number * list number) : list number * list number :=
  let '(real, imag) := ri in
  let u := get real (i + j) in
  let v := get imag (i + j) in
  let wr := Math_cos host (wlen * of_nat j) in
  let wi := Math_sin host (wlen * of_nat j) in
  let x := get real (i + j + len / 2) in
  let y := get imag (i + j + len / 2) in
  let real := <[(i + j)%nat := (u + (wr * x - wi * y))%num]> real in
  let imag := <[(i + j)%nat := (v + (wi * x + wr * y))%num]> imag in
  let real := <[(i + j + len / 2)%nat := (u - (wr * x - wi * y))%num]> real in
  let imag := <[(i + j + len / 2)%nat := (v - (wi * x + wr * y))%num]> imag in
  (real, imag).

Definition cooley_tukey (real imag : list number) : list number * list number :=
  let N := length real in
  for_doubling N 2 N
    (λ len ri,
       let wlen := (num 2 * Math_PI / of_nat len)%num in
       for_stride N 0 N len
         (λ i ri, for_range 0 (len / 2) (λ j ri, butterfly wlen len i j ri) ri)
         ri)
    (real, imag).

Definition fft (signal : list number) : list number * list number :=
  let N := length signal in
  let real := signal in
  let imag := replicate N (num 0) in
  let '(real, imag) := bit_reversal real imag in
  cooley_tukey real imag.

(** ** Spectrum Extractor: [getMagnitudeSpectrum] *)

Definition getMagnitudeSpectrum (real imag : list number) : list number :=
  let n := (length real / 2)%nat in
  for_range 0 n
    (λ i magnitude,
       <[i := Math_sqrt host (get real i * get real i + get imag i * get imag i)]>
         magnitude)
    (replicate n (num 0)).
End Engine.

(** ** Peak Detector: [findPeaks] *)

(** [i - j >= 0 && spectrum[i - j] < magnitude * 0.707] *)
Definition below_half_power (spectrum : list number) (i : nat) (magnitude : number)
    (j : nat) : bool :=
  (j <=? i)%nat && (get spectrum (i - j) <? magnitude * num 0.707)%num.

(** The bandwidth loop: [for (let j = 1; j < 20; j++)] with its [break],
    over the distances [js] still to try. *)
Fixpoint bandwidth_scan (js : list nat) (spectrum : list number) (i : nat)
    (magnitude freqResolution : number) : number :=
  match js with
  | [] => freqResolution
  | j :: js =>
      if below_half_power spectrum i magnitude j
      then (of_nat j * freqResolution)%num
      else bandwidth_scan js spectrum i magnitude freqResolution
  end.

Definition estimate_bandwidth (spectrum : list number) (i : nat)
    (magnitude freqResolution : number) : number :=
  bandwidth_scan (seq 1 19) spectrum i magnitude freqResolution.

Definition is_peak (spectrum : list number) (threshold : number) (i : nat) : bool :=
  let magnitude := get spectrum i in
  (magnitude >? threshold)%num &&
  (magnitude >? get spectrum (i - 1))%num &&
  (magnitude >? get spectrum (i + 1))%num &&
  (magnitude >? get spectrum (i - 2))%num &&
  (magnitude >? get spectrum (i + 2))%num.

Definition peak_frequency (spectrum : list number) (freqResolution : number)
    (i : nat) : number :=
  let y1 := get spectrum (i - 1) in
  let y2 := get spectrum i in
  let y3 := get spectrum (i + 1) in
  let a := ((y1 - num 2 * y2 + y3) / num 2)%num in
  let b := ((y3 - y1) / num 2)%num in
  let peakOffset :=
    if strict_ne a (num 0)
    then max (num (-1)) (min (num 1) (- b / (num 2 * a))%num)
    else num 0 in
  ((of_nat i + peakOffset) * freqResolution)%num.

(** One round of the scan over the bins: the feature pushed at bin [i],
    if any. *)
Definition feature_at (settings : AnalysisSettings) (spectrum : list number)
    (threshold freqResolution : number) (i : nat) : option SpectralFeature :=
  let magnitude := get spectrum i in
  if is_peak spectrum threshold i then
    let frequency := peak_frequency spectrum freqResolution i in
    if (frequency >=? minFreq settings)%num && (frequency <=? maxFreq settings)%num
    then Some {| frequency := frequency;
                 magnitude := magnitude;
                 phase := num 0;
                 bandwidth := estimate_bandwidth spectrum i magnitude freqResolution |}
    else None
  else None.

Definition detected_peaks (settings : AnalysisSettings) (spectrum : list number)
    (sampleRate : number) : list SpectralFeature :=
  let threshold := (max_list spectrum * harmonicThreshold settings)%num in
  let freqResolution := (sampleRate / (of_nat (length spectrum) * num 2))%num in
  for_range 2 (length spectrum - 2)
    (λ i features,
       match feature_at settings spectrum threshold freqResolution i with
       | Some feature => features ++ [feature]
       | None => features
       end)
    [].

Definition findPeaks (settings : AnalysisSettings) (spectrum : list number)
    (sampleRate : number) : list SpectralFeature :=
  array_sort (λ a b, magnitude b - magnitude a)%num
    (detected_peaks settings spectrum sampleRate).

(** ** Harmonic Grouper: [detectHarmonics] *)

(** A member of a series under construction: a feature of the input list
    together with its index there. *)
Definition member : Type := nat * SpectralFeature.

(** The search for the unclaimed peak nearest to [targetFreq], among the
    peaks after position [i]. *)
Definition best_match (features : list SpectralFeature) (processed : gset nat)
    (i : nat) (targetFreq : number) : option member :=
  fst (for_range (i + 1) (length features)
         (λ j '(bestMatch, minError),
            if bool_decide (j ∈ processed) then (bestMatch, minError)
            else match features !! j with
                 | Some feature =>
                     let error := (abs (frequency feature - targetFreq) / targetFreq)%num in
                     if (error <? num 0.02)%num && (error <? minError)%num
                     then (Some (j, feature), error)
                     else (bestMatch, minError)
                 | None => (bestMatch, minError)
                 end)
         (None, PosInf)).

(** The harmonics 2 to 20 of the fundamental at position [i]. *)
Definition collect_series (features : list SpectralFeature) (i : nat)
    (fundamental : SpectralFeature) (processed : gset nat)
    : list member * gset nat :=
  for_range 2 21
    (λ harmonicNum '(series, processed),
       let targetFreq := (frequency fundamental * of_nat harmonicNum)%num in
       match best_match features processed i targetFreq with
       | Some (j, feature) => (series ++ [(j, feature)], {[j]} ∪ processed)
       | None => (series, processed)
       end)
    ([(i, fundamental)], {[i]} ∪ processed).

(** The series, in the order they are pushed, each as its members. *)
Definition harmonic_groups (features : list SpectralFeature) : list (list member) :=
  fst (for_range 0 (Nat.min (length features) 50)
         (λ i '(groups, processed),
            if bool_decide (i ∈ processed) then (groups, processed)
            else match features !! i with
                 | Some fundamental =>
                     let '(series, processed) :=
                       collect_series features i fundamental processed in
                     if (3 <=? length series)%nat
                     then (groups ++ [series], processed)
                     else (groups, processed)
                 | None => (groups, processed)
                 end)
         ([], ∅)).

Definition series_inharmonicity (fundamental : SpectralFeature)
    (series : list SpectralFeature) : number :=
  let total :=
    for_range 1 (length series)
      (λ k inharmonicity,
         let expected := (frequency fundamental * of_nat (k + 1))%num in
         let actual := match series !! k with Some s => frequency s | None => NaN end in
         (inharmonicity + abs (actual - expected) / expected)%num)
      (num 0) in
  (total / of_nat (length series - 1))%num.

Definition make_series (group : list member) : HarmonicSeries :=
  let series := group.*2 in
  match series with
  | fundamental :: _ =>
      {| fundamental := frequency fundamental;
         overtones := series;
         strength := foldl (λ sum s, sum + magnitude s)%num (num 0) series;
         inharmonicity := series_inharmonicity fundamental series |}
  | [] => {| fundamental := NaN; overtones := []; strength := num 0; inharmonicity := NaN |}
  end.

Definition detectHarmonics (features : list SpectralFeature) : list HarmonicSeries :=
  array_sort (λ a b, strength b - strength a)%num
    (make_series <$> harmonic_groups features).

(** ** Spectral Statistics *)

Definition calculateSpectralCentroid (spectrum : list number) (sampleRate : number)
    : number :=
  let freqResolution := (sampleRate / (of_nat (length spectrum) * num 2))%num in
  let '(weightedSum, magnitudeSum) :=
    for_range 0 (length spectrum)
      (λ i '(weightedSum, magnitudeSum),
         let frequency := (of_nat i * freqResolution)%num in
         let magnitude := get spectrum i in
         ((weightedSum + frequency * magnitude)%num, (magnitudeSum + magnitude)%num))
      (num 0, num 0) in
  if (magnitudeSum >? num 0)%num then (weightedSum / magnitudeSum)%num else num 0.

Fixpoint rolloff_scan (bins : list nat) (spectrum : list number)
    (threshold freqResolution cumulativeEnergy : number) : number :=
  match bins with
  | [] => (of_Z (Z.of_nat (length spectrum) - 1) * freqResolution)%num
  | i :: bins =>
      let cumulativeEnergy := (cumulativeEnergy + get spectrum i * get spectrum i)%num in
      if (cumulativeEnergy >=? threshold)%num then (of_nat i * freqResolution)%num
      else rolloff_scan bins spectrum threshold freqResolution cumulativeEnergy
  end.

Definition calculateSpectralRolloff (spectrum : list number) (sampleRate : number)
    : number :=
  let freqResolution := (sampleRate / (of_nat (length spectrum) * num 2))%num in
  let totalEnergy := foldl (λ sum mag, sum + mag * mag)%num (num 0) spectrum in
  let threshold := (totalEnergy * num 0.85)%num in
  rolloff_scan (seq 0 (length spectrum)) spectrum threshold freqResolution (num 0).

(** ** Envelope Extractor: [calculateEnvelope] *)

(** [for (let j = start; j < end; j++) { sum += Math.abs(audioData[j]); count++ }]
    where [start] and [end] are numbers, not necessarily integers.  [start]
    is at least 0 and [end] at most the length, so a fuel above the length
    is never exhausted. *)
Fixpoint envelope_window (fuel : nat) (audioData : list number) (j end_ : number)
    (sum : number) (count : nat) : number * nat :=
  match fuel with
  | O => (sum, count)
  | S fuel =>
      if (j <? end_)%num
      then envelope_window fuel audioData (j + num 1)%num end_
             (sum + abs (get_num audioData j))%num (S count)
      else (sum, count)
  end.

Definition envelope_at (audioData : list number) (windowSize : number) (i : nat)
    : number :=
  let start := max (num 0) (of_nat i - windowSize / num 2)%num in
  let end_ := min (of_nat (length audioData)) (of_nat i + windowSize / num 2)%num in
  let '(sum, count) :=
    envelope_window (S (length audioData)) audioData start end_ (num 0) 0 in
  if (0 <? count)%nat then (sum / of_nat count)%num else num 0.

Definition calculateEnvelope (sampleRate : number) (audioData : list number)
    : list number :=
  let windowSize := floor (sampleRate * num 0.01)%num in
  for_range 0 (length audioData)
    (λ i envelope, <[i := envelope_at audioData windowSize i]> envelope)
    (replicate (length audioData) (num 0)).

(** ** Spectrogram Builder and Analysis Orchestrator *)

Record AudioProcessor : Type := {
  audioBuffer : AudioBuffer;
  settings : AnalysisSettings;
  windowFunction : list number
}.

(** [new Array(n)]: the length must be a non-negative integer.  The holes
    are all written before the array is read. *)
Definition new_Array (n : number) : outcome (list number) :=
  match to_index n with
  | Some k => Return (replicate k NaN)
  | None => Throw RangeError
  end.

(** The fundamental reported by [analyze]. *)
Definition select_fundamental (settings : AnalysisSettings)
    (harmonics : list HarmonicSeries) (spectralFeatures : list SpectralFeature)
    : option number :=
  match harmonics with
  | strongest :: _ => Some (fundamental strongest)
  | [] =>
      if (0 <? length spectralFeatures)%nat
      then foldl (λ fundamentalFreq feature,
                    if (frequency feature >=? minFreq settings)%num
                    then Some (frequency feature) else fundamentalFreq)
             None (reverse spectralFeatures)
      else None
  end.

(** RMS sum and peak of the downmixed signal. *)
Definition signal_levels (audioData : list number) : number * number :=
  for_range 0 (length audioData)
    (λ i '(rmsSum, peak),
       let sample := abs (get audioData i) in
       ((rmsSum + sample * sample)%num, max peak sample))
    (num 0, num 0).

Section Orchestrator.
Context (host : HostMath).

Definition new_AudioProcessor (audioBuffer : AudioBuffer)
    (settings : AnalysisSettings) : outcome AudioProcessor :=
  window ← createWindow host (windowSize settings);
  mret {| audioBuffer := audioBuffer; settings := settings; windowFunction := window |}.

(** [Math.max(0, (20 * Math.log10(Math.max(mag, 1e-10)) + 100) / 100)] *)
Definition normalized_db (mag : number) : number :=
  let db := (num 20 * Math_log10 host (max mag (num 1e-10)))%num in
  max (num 0) ((db + num 100) / num 100)%num.

Definition spectrogram_frame (this : AudioProcessor) (audioData : list number)
    (frame : nat) : outcome (list number) :=
  let hopSize := hopSize (settings this) in
  let windowSize := windowSize (settings this) in
  let numBins := (of_Z windowSize / num 2)%num in
  let start := Z.of_nat frame * hopSize in
  windowedFrame ← new_Float32Array windowSize;
  let windowedFrame :=
    for_range 0 (Z.to_nat windowSize)
      (λ i windowedFrame,
         if start + Z.of_nat i <? Z.of_nat (length audioData)
         then <[i := (getZ audioData (start + Z.of_nat i) * get (windowFunction this) i)%num]>
                windowedFrame
         else windowedFrame)
      windowedFrame in
  let '(real, imag) := fft host windowedFrame in
  let magnitude := getMagnitudeSpectrum host real imag in
  magnitudeDB ← new_Array numBins;
  (* [i < numBins], the length of the array just made *)
  mret (for_range 0 (length magnitudeDB)
          (λ i magnitudeDB, <[i := normalized_db (get magnitude i)]> magnitudeDB)
          magnitudeDB).

(** The frames [0 .. n-1], stopping at the first one that throws. *)
Fixpoint spectrogram_frames (this : AudioProcessor) (audioData : list number)
    (frames : list nat) : outcome (list (list number)) :=
  match frames with
  | [] => mret []
  | frame :: frames =>
      magnitudeDB ← spectrogram_frame this audioData frame;
      spectrogram ← spectrogram_frames this audioData frames;
      mret (magnitudeDB :: spectrogram)
  end.

(** [numFrames] is a number: a zero [hopSize] makes it infinite or NaN.
    The loop [frame < numFrames] runs [ceil(numFrames)] times when that is
    finite, never when it is NaN or minus infinity, and without end, after
    a first frame, when it is plus infinity. *)
Definition generateSpectrogram (this : AudioProcessor) (audioData : list number)
    : outcome (list (list number)) :=
  let hopSize := hopSize (settings this) in
  let windowSize := windowSize (settings this) in
  let numFrames :=
    (floor ((of_nat (length audioData) - of_Z windowSize) / of_Z hopSize) + num 1)%num in
  match numFrames with
  | Finite q =>
      spectrogram_frames this audioData (seq 0 (Z.to_nat (Qceiling q)))
  | PosInf => _ ← spectrogram_frame this audioData 0; Diverge
  | NegInf | NaN => mret []
  end.

(** The mono signal: the channel itself, or the mean of the first two. *)
Definition downmix (buffer : AudioBuffer) : outcome (list number) :=
  if (numberOfChannels buffer =? 1)%nat then getChannelData buffer 0
  else
    left ← getChannelData buffer 0;
    right ← (if (1 <? numberOfChannels buffer)%nat
             then getChannelData buffer 1 else mret left);
    audioData ← new_Float32Array (Z.of_nat (length left));
    mret (for_range 0 (length left)
            (λ i audioData, <[i := ((get left i + get right i) / num 2)%num]> audioData)
            audioData).

Definition analyze (this : AudioProcessor) : outcome AnalysisResult :=
  audioData ← downmix (audioBuffer this);
  let '(rmsSum, peak) := signal_levels audioData in
  let rmsLevel := Math_sqrt host (rmsSum / of_nat (length audioData))%num in
  let windowSize := fftSize (settings this) in
  windowedSignal ← new_Float32Array windowSize;
  let start := (Z.of_nat (length audioData) - windowSize) `div` 2 in
  let windowedSignal :=
    for_range 0 (Z.to_nat windowSize)
      (λ i windowedSignal,
         if (start + Z.of_nat i <? Z.of_nat (length audioData)) && (0 <=? start + Z.of_nat i)
         then <[i := (getZ audioData (start + Z.of_nat i) * get (windowFunction this) i)%num]>
                windowedSignal
         else windowedSignal)
      windowedSignal in
  let '(real, imag) := fft host windowedSignal in
  let magnitude := getMagnitudeSpectrum host real imag in
  let sampleRate := buffer_sampleRate (audioBuffer this) in
  let spectralFeatures := findPeaks (settings this) magnitude sampleRate in
  let harmonics := detectHarmonics spectralFeatures in
  let spectralCentroid := calculateSpectralCentroid magnitude sampleRate in
  let spectralRolloff := calculateSpectralRolloff magnitude sampleRate in
  let fundamentalFreq := select_fundamental (settings this) harmonics spectralFeatures in
  let envelope := calculateEnvelope sampleRate audioData in
  spectrogram ← generateSpectrogram this audioData;
  mret {| spectralFeatures := spectralFeatures;
          harmonics := harmonics;
          fundamentalFreq := fundamentalFreq;
          spectralCentroid := spectralCentroid;
          spectralRolloff := spectralRolloff;
          spectralFlux := num 0;
          rmsLevel := rmsLevel;
          peakLevel := peak;
          sampleRate := sampleRate;
          duration := buffer_duration (audioBuffer this);
          envelope := envelope;
          spectrogram := spectrogram |}.

(** [new AudioProcessor(audioBuffer, settings).analyze()] *)
Definition run_analysis (audioBuffer : AudioBuffer) (settings : AnalysisSettings)
    : outcome AnalysisResult :=
  this ← new_AudioProcessor audioBuffer settings;
  analyze this.
End Orchestrator.

(** ** Predicates used in the statements *)

(** A value that is zero or NaN: what a silent signal leaves in every
    array of the analysis. *)
Definition silent (x : number) : Prop := x = num 0 ∨ x = NaN.

(** The positions, in the input list, of the members of each series. *)
Definition member_positions (groups : list (list member)) : list (list nat) :=
  (λ group : list member, group.*1) <$> groups.

(** The invariant of the loop over the candidate fundamentals: each series
    starts with its candidate and continues with peaks further down the
    list, no position occurs twice, and every position used is claimed. *)
Definition groups_invariant (features : list SpectralFeature)
    (groups : list (list member)) (processed : gset nat) : Prop :=
  Forall (λ group, ∃ i candidate rest,
            group = (i, candidate) :: rest
            ∧ features !! i = Some candidate
            ∧ Forall (λ m : member, (i < m.1)%nat ∧ features !! m.1 = Some m.2) rest)
    groups
  ∧ NoDup (concat (member_positions groups))
  ∧ ∀ j, j ∈ concat (member_positions groups) → j ∈ processed.

(** The mean absolute value of a run of samples, 0 for an empty run. *)
Definition mean_abs (window : list number) : number :=
  if (0 <? length window)%nat
  then (foldl (λ sum x, sum + abs x)%num (num 0) window / of_nat (length window))%num
  else num 0.

(** The samples at the indices [lo <= j < hi]. *)
Definition samples_between (audioData : list number) (lo hi : Z) : list number :=
  take (Z.to_nat hi - Z.to_nat lo) (drop (Z.to_nat lo) audioData).

(** The envelope window in the words of the specification, for comparison
    with the code: its width is [Math.round] (the nearest integer, halves
    upwards) of a hundredth of the sample rate, and it holds that many
    samples centred at [i], clamped to the buffer. *)
Definition spec_window_width (sampleRate : Q) : Z := Qfloor (sampleRate * 0.01 + 0.5).

Definition spec_window (audioData : list number) (width : Z) (i : nat)
    : list number :=
  let first := Z.of_nat i - width `div` 2 in
  samples_between audioData (Z.max 0 first)
    (Z.min (Z.of_nat (length audioData)) (first + width)).

(** ** Concrete inputs *)

(** The settings the application starts with. *)
Definition defaultSettings : AnalysisSettings := {|
  fftSize := 8192;
  windowSize := 2048;
  hopSize := 512;
  minFreq := num 20;
  maxFreq := num 20000;
  harmonicThreshold := num 0.1;
  noiseFloor := num (-60)
|}.

(** A 45-bin spectrum with one peak, at bin 22: a maximum of 10 on a
    plateau of height 9 that falls to 0 exactly 20 bins below the peak and
    5 bins above it.  At a sample rate of 90 the bins are 1 Hz wide. *)
Definition plateau_spectrum : list number :=
  replicate 3 (num 0) ++ replicate 19 (num 9) ++ [num 10]
  ++ replicate 4 (num 9) ++ replicate 18 (num 0).

(** An 8-bin spectrum with a weak peak at bin 2 and a strong one at bin 5.
    At a sample rate of 1600 the bins are 100 Hz wide. *)
Definition two_peak_spectrum : list number :=
  num <$> [0; 0; 1; 0; 0; 3; 0; 0]%Q.

(** A short signal and a processor with a four-sample window, for running
    the orchestrator. *)
Definition sampleSettings : AnalysisSettings := {|
  fftSize := 4;
  windowSize := 4;
  hopSize := 2;
  minFreq := num 20;
  maxFreq := num 20000;
  harmonicThreshold := num 0.1;
  noiseFloor := num (-60)
|}.

Definition sampleData : list number :=
  num <$> [0.5; -0.25; 1; 0; -1; 0.75; 0.25; -0.5]%Q.

Definition sampleBuffer : AudioBuffer := {|
  buffer_sampleRate := num 400;
  buffer_duration := num 0.02;
  buffer_channels := [sampleData]
|}.

Definition sampleProcessor : AudioProcessor := {|
  audioBuffer := sampleBuffer;
  settings := sampleSettings;
  windowFunction := window_coefficient coarseHost 4 <$> seq 0 4
|}.

(** Eight samples of silence in two channels, and an empty buffer. *)
Definition silentBuffer : AudioBuffer := {|
  buffer_sampleRate := num 44100;
  buffer_duration := num 0;
  buffer_channels := [replicate 8 (num 0); replicate 8 (num 0)]
|}.

Definition emptyBuffer : AudioBuffer := {|
  buffer_sampleRate := num 44100;
  buffer_duration := num 0;
  buffer_channels := [[]]
|}.

(** Five peaks in descending order of magnitude: 100 Hz with its harmonics
    at 200, 300 and 900 Hz, and a stray peak at 450 Hz. *)
Definition sampleFeatures : list SpectralFeature :=
  (λ '(f, m), {| frequency := num f; magnitude := num m;
                 phase := num 0; bandwidth := num 10 |})
  <$> [(100, 5); (200, 4); (300, 3); (450, 2); (900, 1)]%Q.

(** ** The display of the analysis

    The pure helpers of the components that show an analysis result:
    [hslToRgb] and the pixel colour of [drawSpectrogram] in
    [src/components/WaveformVisualizer.tsx], and [getCentsDeviation] in
    [src/components/FrequencyAnalyzer.tsx]. *)

(** [x === y] on numbers. *)
Definition strict_eq (x y : number) : bool := negb (strict_ne x y).

(** [Math.round]: the nearest integer, halves upwards. *)
Definition Math_round (x : number) : number :=
  match x with
  | Finite q => of_Z (Qfloor (q + (1 # 2)))
  | _ => x
  end.

(** The inner function of [hslToRgb]; [1/6], [1/2] and [2/3] are divisions
    in the source. *)

Definition hue2rgb (p q t : number) : number :=
  let t := if (t <? num 0)%num then (t + num 1)%num else t in
  let t := if (t >? num 1)%num then (t - num 1)%num else t in
  if (t <? num 1 / num 6)%num then (p + (q - p) * num 6 * t)%num
  else if (t <? num 1 / num 2)%num then q
  else if (t <? num 2 / num 3)%num then (p + (q - p) * (num 2 / num 3 - t) * num 6)%num
  else p.

Definition hslToRgb (h s l : number) : number * number * number :=
  let '(r, g, b) :=
    if strict_eq s (num 0) then (l, l, l)
    else
      let q := if (l <? num 0.5)%num then (l * (num 1 + s))%num else (l + s - l * s)%num in
      let p := (num 2 * l - q)%num in
      (hue2rgb p q (h + num 1 / num 3)%num,
       hue2rgb p q h,
       hue2rgb p q (h - num 1 / num 3)%num) in
  (Math_round (r * num 255), Math_round (g * num 255), Math_round (b * num 255)).

(** The colour [drawSpectrogram] gives the pixel that shows the
    spectrogram value [magnitude]: the value is clamped to an intensity
    between 0 and 255, which sets hue and lightness. *)
Definition spectrogram_color (magnitude : number) : number * number * number :=
  let intensity := min (num 255) (max (num 0) (magnitude * num 255)%num) in
  let hue := (num 200 + intensity / num 255 * num 100)%num in
  let sat := num 80 in
  let light := (intensity / num 255 * num 60 + num 10)%num in
  hslToRgb (hue / num 360)%num (sat / num 100)%num (light / num 100)%num.

(** [Math.pow] and [Math.log2] of the host; of the logarithm, the special
    cases the standard fixes are built in. *)
Record HostLog : Type := {
  host_pow : number → number → number;
  host_log2 : Q → Q
}.

Definition Math_log2 (host : HostLog) (x : number) : number :=
  match x with
  | Finite q =>
      if Qeq_bool q 0 then NegInf
      else if Qeq_bool q 1 then num 0
      else if Qle_bool 0 q then fin (host_log2 host q) else NaN
  | PosInf => PosInf
  | NegInf | NaN => NaN
  end.

Definition getCentsDeviation (host : HostLog) (frequency : number) : number :=
  if (frequency <=? num 0)%num then num 0
  else
    let A4 := num 440 in
    let C0 := (A4 * host_pow host (num 2) (num (-4.75)))%num in
    let h := (num 12 * Math_log2 host (frequency / C0))%num in
    let nearestSemitone := Math_round h in
    let cents := ((h - nearestSemitone) * num 100)%num in
    Math_round cents.

(** ** Further predicates and auxiliary definitions *)

(** The field [settings] of a processor, where a variable has its name. *)
Abbreviation settings_of := settings (only parsing).

(** [x] is the finite number of rational value [q]. *)
Definition denotes (x : number) (q : Q) : Prop := ∃ q', x = Finite q' ∧ (q' == q)%Q.

(** A finite number: neither NaN nor an infinity. *)
Definition finite (x : number) : Prop := ∃ q, x = Finite q.

(** A finite number that is not negative, and one above zero. *)
Definition nonnegative (x : number) : Prop := ∃ q, x = Finite q ∧ (0 <= q)%Q.


Definition positive (x : number) : Prop := ∃ q, x = Finite q ∧ (0 < q)%Q.

(** A colour channel: an integer from 0 to 255. *)
Definition channel (x : number) : Prop := ∃ z : Z, x = of_Z z ∧ 0 ≤ z ≤ 255.

(** The relative deviation [|f - target| / target] that [best_match]
    compares with 0.02. *)
Definition harmonic_error (f target : number) : number :=
  (abs (f - target) / target)%num.

(** The energy of a run of bins, the sum of the squared magnitudes, as
    [calculateSpectralRolloff] accumulates it. *)
Definition spectral_energy (bins : list number) : number :=
  foldl (λ sum mag, sum + mag * mag)%num (num 0) bins.

(** The signal [analyze] transforms: [fftSize] entries, the sample times
    the window coefficient where the centred frame meets the signal, zero
    elsewhere. *)
Definition windowed_signal (this : AudioProcessor) (audioData : list number) : list number :=
  let windowSize := fftSize (settings this) in
  let start := (Z.of_nat (length audioData) - windowSize) `div` 2 in
  (λ i : nat,
     if (start + Z.of_nat i <? Z.of_nat (length audioData)) && (0 <=? start + Z.of_nat i)
     then (getZ audioData (start + Z.of_nat i) * get (windowFunction this) i)%num
     else num 0)
  <$> seq 0 (Z.to_nat windowSize).

(** The frame [generateSpectrogram] transforms: [windowSize] entries, the
    sample times the window coefficient up to the end of the signal, zero
    beyond. *)
Definition windowed_frame (this : AudioProcessor) (audioData : list number)
    (frame : nat) : list number :=
  let start := Z.of_nat frame * hopSize (settings this) in
  (λ i : nat,
     if start + Z.of_nat i <? Z.of_nat (length audioData)
     then (getZ audioData (start + Z.of_nat i) * get (windowFunction this) i)%num
     else num 0)
  <$> seq 0 (Z.to_nat (windowSize (settings this))).

(** The rational a finite number stands for (0 for the others). *)
Definition Qvalue (x : number) : Q :=
  match x with Finite q => q | _ => 0%Q end.

(** The sum of a list of rationals. *)
Definition Qsum (l : list Q) : Q := foldr Qplus 0%Q l.

Global Arguments Qsum : simpl never.

(** The sum of [f] over the block of length [2 ^ m] number [b], the way
    the butterflies add it up: block [2 b] and block [2 b + 1] of half
    the length. *)
Fixpoint block_sum (f : nat → Q) (m b : nat) : Q :=
  match m with
  | O => f b
  | S m => (block_sum f m (2 * b) + block_sum f m (2 * b + 1))%Q
  end.

(** After the stages up to block length [2 ^ m], on arrays of length
    [2 ^ k]: the first entry of every block holds the sum of [f] over the
    block, with no imaginary part. *)
Definition heads_at (f : nat → Q) (k m : nat) (ri : list number * list number) : Prop :=
  length ri.1 = (2 ^ k)%nat ∧ length ri.2 = (2 ^ k)%nat
  ∧ ∀ c, (c * 2 ^ m < 2 ^ k)%nat →
      denotes (get ri.1 (c * 2 ^ m)) (block_sum f m c)
      ∧ denotes (get ri.2 (c * 2 ^ m)) 0.

(** * Properties *)

Example number_samples :
  (num 1 / num 0 = PosInf)%num ∧ (num 0 / num 0 = NaN)%num
  ∧ (num 0.5 + num 0.25 = num 0.75)%num
  ∧ (NaN <? num 1)%num = false ∧ (num 1 <? NaN)%num = false
  ∧ to_index (num 1.5) = None ∧ to_index (num 4) = Some 4%nat.
Proof. repeat split; reflexivity. Qed.

(** ** Loops *)

Lemma for_range_snoc {S : Type} (a b : nat) (body : nat → S → S) (s : S) :
  (a ≤ b)%nat → for_range a (Datatypes.S b) body s = body b (for_range a b body s).
Proof.
  intros Hab. unfold for_range.
  replace (Datatypes.S b - a)%nat with (Datatypes.S (b - a)) by lia.
  rewrite seq_S, foldl_snoc. by replace (a + (b - a))%nat with b by lia.
Qed.

Lemma for_range_empty {S : Type} (a b : nat) (body : nat → S → S) (s : S) :
  (b ≤ a)%nat → for_range a b body s = s.
Proof. intros Hba. unfold for_range. by replace (b - a)%nat with 0%nat by lia. Qed.

(** An invariant of the loop body is an invariant of the loop. *)
Lemma for_range_ind {S : Type} (P : S → Prop) (a b : nat) (body : nat → S → S) (s : S) :
  P s → (∀ i s, (a ≤ i < b)%nat → P s → P (body i s)) → P (for_range a b body s).
Proof.
  intros Hs Hbody. destruct (decide (a ≤ b)%nat) as [Hab|Hab].
  - induction b as [|b IH].
    + by rewrite for_range_empty by lia.
    + destruct (decide (a = Datatypes.S b)) as [->|Hne].
      * by rewrite for_range_empty by lia.
      * rewrite for_range_snoc by lia. apply Hbody; [lia|].
        apply IH; [|lia]. intros i s' Hi. apply Hbody. lia.
  - by rewrite for_range_empty by lia.
Qed.

(** [loop_invariant P] states the invariant [P] of the final state of the
    [for_range] loop of the goal; it is to be proved of the initial state
    and across one round of the body. *)
Ltac loop_invariant P :=
  match goal with
  | |- context [for_range ?a ?b ?body ?s] =>
      let H := fresh "Hloop" in
      assert (P (for_range a b body s)) as H;
      [apply (for_range_ind P)|cbv beta in H]
  end.

(** A loop that writes slot [i] at round [i] fills the array with the
    values written. *)
Lemma for_range_fill_length (f : nat → number) (k : nat) (a : list number) :
  length (for_range 0 k (λ i a, <[i := f i]> a) a) = length a.
Proof.
  apply (for_range_ind (λ a', length a' = length a)); [done|].
  intros i a' _ Ha'. by rewrite length_insert.
Qed.

Lemma for_range_fill_lookup (f : nat → number) (k i : nat) (a : list number) :
  (k ≤ length a)%nat →
  for_range 0 k (λ i a, <[i := f i]> a) a !! i
  = if decide (i < k)%nat then Some (f i) else a !! i.
Proof.
  induction k as [|k IH]; intros Hk.
  - rewrite for_range_empty by lia. case_decide; [lia|done].
  - rewrite for_range_snoc by lia.
    destruct (decide (i = k)) as [->|Hne].
    + rewrite list_lookup_insert_eq by (rewrite for_range_fill_length; lia).
      clear IH. case_decide; [done|lia].
    + rewrite list_lookup_insert_ne, IH by (done || lia).
      repeat case_decide; (done || lia).
Qed.

Lemma for_range_fill (f : nat → number) (n : nat) (a : list number) :
  length a = n →
  for_range 0 n (λ i a, <[i := f i]> a) a = f <$> seq 0 n.
Proof.
  intros Hlen. apply list_eq. intros i.
  rewrite for_range_fill_lookup by lia.
  rewrite list_lookup_fmap. case_decide as Hi.
  - by rewrite lookup_seq_lt.
  - rewrite lookup_seq_ge by lia. simpl. apply lookup_ge_None. lia.
Qed.

(** ** Comparisons of numbers *)

Lemma lt_Finite (a b : Q) : (Finite a <? Finite b)%num = true ↔ (a < b)%Q.
Proof. simpl. destruct (Qcompare_spec a b); split; intros; try done; lra. Qed.

Lemma le_Finite (a b : Q) : (Finite a <=? Finite b)%num = true ↔ (a <= b)%Q.
Proof. simpl. destruct (Qcompare_spec a b); split; intros; try done; lra. Qed.

Lemma lt_irrefl (x : number) : (x <? x)%num = false.
Proof.
  destruct x as [a| | |]; try done.
  apply not_true_is_false. rewrite lt_Finite. lra.
Qed.

Lemma lt_not_NaN (x y : number) : (x <? y)%num = true → x ≠ NaN ∧ y ≠ NaN.
Proof. by destruct x, y. Qed.

Lemma le_not_NaN (x y : number) : (x <=? y)%num = true → x ≠ NaN ∧ y ≠ NaN.
Proof. by destruct x, y. Qed.

(** Away from NaN the order is total. *)
Lemma le_of_not_lt (x y : number) :
  x ≠ NaN → y ≠ NaN → (x <? y)%num = false → (y <=? x)%num = true.
Proof.
  destruct x as [a| | |], y as [b| | |]; try done.
  intros _ _ H. apply le_Finite. apply not_true_iff_false in H. rewrite lt_Finite in H. lra.
Qed.

Lemma le_of_lt (x y : number) : (x <? y)%num = true → (x <=? y)%num = true.
Proof.
  destruct x as [a| | |], y as [b| | |]; try done.
  rewrite lt_Finite, le_Finite. lra.
Qed.

Lemma le_trans (x y z : number) :
  (x <=? y)%num = true → (y <=? z)%num = true → (x <=? z)%num = true.
Proof.
  destruct x as [a| | |], y as [b| | |], z as [c| | |]; try done.
  rewrite !le_Finite. lra.
Qed.

(** The comparator [b - a] of the two sorts is positive exactly when
    [a < b]. *)
Lemma sub_positive (a b : number) :
  a ≠ NaN → b ≠ NaN → (b - a >? num 0)%num = (a <? b)%num.
Proof.
  destruct a as [a| | |], b as [b| | |]; try done.
  intros _ _. unfold gt, sub, num, fin.
  apply eq_true_iff_eq. rewrite !lt_Finite, !Qred_correct. lra.
Qed.

(** ** [Array.prototype.sort] *)

Section SortFacts.
Context {A : Type} (key : A → number).
Implicit Types (x y : A) (l : list A).

Lemma sort_insert_cons x y l :
  sort_insert (by_key_descending key) x (y :: l)
  = if (by_key_descending key x y >? num 0)%num
    then y :: sort_insert (by_key_descending key) x l
    else x :: y :: l.
Proof. done. Qed.

Lemma array_sort_cons x l :
  array_sort (by_key_descending key) (x :: l)
  = sort_insert (by_key_descending key) x (array_sort (by_key_descending key) l).
Proof. done. Qed.

Lemma sort_insert_perm x l : sort_insert (by_key_descending key) x l ≡ₚ x :: l.
Proof.
  induction l as [|y l IH]; [done|].
  rewrite sort_insert_cons.
  destruct (by_key_descending key x y >? num 0)%num; [|done].
  rewrite IH. apply Permutation_swap.
Qed.

Lemma array_sort_perm l : array_sort (by_key_descending key) l ≡ₚ l.
Proof.
  induction l as [|x l IH]; [done|].
  rewrite array_sort_cons, sort_insert_perm. by rewrite IH.
Qed.

Lemma sort_insert_sorted x l :
  key x ≠ NaN → Forall (λ y, key y ≠ NaN) l →
  StronglySorted (descending key) l →
  StronglySorted (descending key) (sort_insert (by_key_descending key) x l).
Proof.
  intros Hx Hl Hs. induction Hs as [|y l Hs IH Hy].
  - repeat constructor.
  - apply Forall_cons in Hl as [Hy' Hl].
    rewrite sort_insert_cons. unfold by_key_descending at 1.
    rewrite sub_positive by done.
    destruct (key x <? key y)%num eqn:Hlt.
    + constructor; [by apply IH|].
      rewrite sort_insert_perm. constructor; [|done].
      by apply le_of_lt.
    + assert (descending key x y) as Hxy by by apply le_of_not_lt.
      constructor; [by constructor|]. constructor; [done|].
      eapply Forall_impl; [exact Hy|]. intros z Hz.
      unfold descending, ge in *. by eapply le_trans.
Qed.

Lemma array_sort_sorted l :
  Forall (λ y, key y ≠ NaN) l →
  StronglySorted (descending key) (array_sort (by_key_descending key) l).
Proof.
  induction l as [|x l IH]; intros Hl; [constructor|].
  apply Forall_cons in Hl as [Hx Hl]. rewrite array_sort_cons.
  apply sort_insert_sorted; [done| |by apply IH].
  by rewrite array_sort_perm.
Qed.
End SortFacts.

(** ** Peak Detector *)

Section PeakFacts.
Context (settings : AnalysisSettings) (spectrum : list number) (sampleRate : number).
Let threshold : number := (max_list spectrum * harmonicThreshold settings)%num.
Let freqResolution : number := (sampleRate / (of_nat (length spectrum) * num 2))%num.

(** Every feature pushed by the scan was produced at some bin of the
    scanned range. *)
Lemma detected_peaks_inv (f : SpectralFeature) :
  f ∈ detected_peaks settings spectrum sampleRate →
  ∃ i, (2 ≤ i < length spectrum - 2)%nat
       ∧ feature_at settings spectrum threshold freqResolution i = Some f.
Proof.
  unfold detected_peaks. fold threshold freqResolution.
  revert f. apply (for_range_ind (λ features, ∀ f, f ∈ features → _)).
  - intros f Hf. by apply elem_of_nil in Hf.
  - intros i features Hi IH f Hf.
    destruct (feature_at settings spectrum threshold freqResolution i) as [g|] eqn:Hg;
      [|by apply IH].
    apply elem_of_app in Hf as [Hf|Hf]; [by apply IH|].
    apply list_elem_of_singleton in Hf as ->. eauto.
Qed.

Lemma feature_at_inv (i : nat) (f : SpectralFeature) :
  feature_at settings spectrum threshold freqResolution i = Some f →
  is_peak spectrum threshold i = true
  ∧ (frequency f >=? minFreq settings)%num = true
  ∧ (frequency f <=? maxFreq settings)%num = true
  ∧ frequency f = peak_frequency spectrum freqResolution i
  ∧ magnitude f = get spectrum i
  ∧ bandwidth f = estimate_bandwidth spectrum i (get spectrum i) freqResolution.
Proof.
  unfold feature_at. destruct (is_peak spectrum threshold i); [|done].
  destruct (_ && _) eqn:Hrange; [|done].
  apply andb_true_iff in Hrange as [Hlo Hhi]. by intros [= <-].
Qed.

Lemma is_peak_not_NaN (i : nat) :
  is_peak spectrum threshold i = true → get spectrum i ≠ NaN.
Proof.
  unfold is_peak. rewrite !andb_true_iff. intros [[[[H _] _] _] _].
  by apply lt_not_NaN in H as [_ ?].
Qed.

Lemma findPeaks_inv (f : SpectralFeature) :
  f ∈ findPeaks settings spectrum sampleRate →
  ∃ i, (2 ≤ i < length spectrum - 2)%nat
       ∧ feature_at settings spectrum threshold freqResolution i = Some f.
Proof.
  unfold findPeaks.
  rewrite (array_sort_perm magnitude). apply detected_peaks_inv.
Qed.
End PeakFacts.

(** The first distance of [js] at which the spectrum is below the
    half-power level decides the bandwidth. *)
Lemma bandwidth_scan_seq (spectrum : list number) (i : nat) (m fr : number) (a n : nat) :
  (∃ j, (a ≤ j < a + n)%nat
        ∧ below_half_power spectrum i m j = true
        ∧ (∀ j', (a ≤ j' < j)%nat → below_half_power spectrum i m j' = false)
        ∧ bandwidth_scan (seq a n) spectrum i m fr = (of_nat j * fr)%num)
  ∨ ((∀ j, (a ≤ j < a + n)%nat → below_half_power spectrum i m j = false)
     ∧ bandwidth_scan (seq a n) spectrum i m fr = fr).
Proof.
  revert a. induction n as [|n IH]; intros a; simpl.
  - right. split; [intros j Hj; lia|done].
  - destruct (below_half_power spectrum i m a) eqn:Ha.
    + left. exists a. split_and!; [lia|lia|done| |done]. intros j' Hj'. lia.
    + destruct (IH (S a)) as [(j & Hj & Hdrop & Hmin & Hres)|[Hnone Hres]].
      * left. exists j. split_and!; [lia|lia|done| |done].
        intros j' Hj'. destruct (decide (j' = a)) as [->|Hne]; [done|].
        apply Hmin. lia.
      * right. split; [|done]. intros j Hj.
        destruct (decide (j = a)) as [->|Hne]; [done|]. apply Hnone. lia.
Qed.

Lemma findPeaks_in_band
    (settings : AnalysisSettings) (spectrum : list number) (sampleRate : number) :
  Forall (λ f, (minFreq settings <=? frequency f)%num = true
               ∧ (frequency f <=? maxFreq settings)%num = true)
    (findPeaks settings spectrum sampleRate).
Proof.
  apply Forall_forall. intros f Hf.
  apply findPeaks_inv in Hf as (i & _ & Hf).
  apply feature_at_inv in Hf as (_ & Hlo & Hhi & _). done.
Qed.

Lemma findPeaks_descending
    (settings : AnalysisSettings) (spectrum : list number) (sampleRate : number) :
  StronglySorted (descending magnitude) (findPeaks settings spectrum sampleRate).
Proof.
  apply array_sort_sorted. apply Forall_forall. intros f Hf.
  apply detected_peaks_inv in Hf as (i & _ & Hf).
  apply feature_at_inv in Hf as (Hpeak & _ & _ & _ & -> & _).
  by eapply is_peak_not_NaN.
Qed.

(** C9. Every feature the Peak Detector returns (the [spectralFeatures] of
    the analysis result) has its frequency in the closed interval
    [[minFreq, maxFreq]] of the settings, and the returned list is in
    descending order of magnitude. *)
Theorem findPeaks_in_band_and_descending
    (settings : AnalysisSettings) (spectrum : list number) (sampleRate : number) :
  Forall (λ f, (minFreq settings <=? frequency f)%num = true
               ∧ (frequency f <=? maxFreq settings)%num = true)
    (findPeaks settings spectrum sampleRate)
  ∧ StronglySorted (descending magnitude) (findPeaks settings spectrum sampleRate).
Proof.
  split.
  - apply findPeaks_in_band.
  - apply findPeaks_descending.
Qed.

(** C4 (as the code has it). Every detected peak comes from a bin [i],
    whose magnitude [m] it reports; its bandwidth is [j * freqResolution]
    for the smallest distance [j] in 1..19 such that bin [i - j], on the
    low-frequency side, exists and is below [0.707 * m]; when there is no
    such distance the bandwidth is one bin width, [freqResolution]. *)
Theorem findPeaks_bandwidth
    (settings : AnalysisSettings) (spectrum : list number) (sampleRate : number) :
  let threshold := (max_list spectrum * harmonicThreshold settings)%num in
  let freqResolution := (sampleRate / (of_nat (length spectrum) * num 2))%num in
  Forall (λ f, ∃ i, (2 ≤ i < length spectrum - 2)%nat
                    ∧ is_peak spectrum threshold i = true
                    ∧ frequency f = peak_frequency spectrum freqResolution i
                    ∧ magnitude f = get spectrum i
                    ∧ ((∃ j, (1 ≤ j ≤ 19)%nat
                             ∧ below_half_power spectrum i (magnitude f) j = true
                             ∧ (∀ j', (1 ≤ j' < j)%nat →
                                  below_half_power spectrum i (magnitude f) j' = false)
                             ∧ bandwidth f = (of_nat j * freqResolution)%num)
                       ∨ ((∀ j, (1 ≤ j ≤ 19)%nat →
                             below_half_power spectrum i (magnitude f) j = false)
                          ∧ bandwidth f = freqResolution)))
    (findPeaks settings spectrum sampleRate).
Proof.
  intros threshold freqResolution. apply Forall_forall. intros f Hf.
  apply findPeaks_inv in Hf as (i & Hi & Hf).
  apply feature_at_inv in Hf as (Hpeak & _ & _ & Hfreq & Hm & Hbw).
  exists i. split_and!; [lia|lia|done|done|done|]. rewrite Hm, Hbw.
  unfold estimate_bandwidth.
  destruct (bandwidth_scan_seq spectrum i (get spectrum i) freqResolution 1 19)
    as [(j & Hj & Hdrop & Hmin & Hres)|[Hnone Hres]].
  - left. exists j. split_and!; [lia|lia|done| |done].
    intros j' Hj'. apply Hmin. lia.
  - right. split; [|done]. intros j Hj. apply Hnone. lia.
Qed.

(** C4, the claim as stated, fails: in [plateau_spectrum] the peak at bin
    22 has magnitude 10; walking down from the peak the spectrum is first
    below [0.707 * 10] at distance 20, walking up at distance 5.  The
    bandwidth reported is nevertheless one bin width, neither 20 nor 5 bin
    widths: the loop tries the distances 1 to 19 only, and only below the
    peak. *)
Lemma bandwidth_not_found_at_distance_20 :
  let freqResolution := (num 90 / (of_nat (length plateau_spectrum) * num 2))%num in
  let m := num 10 in
  findPeaks defaultSettings plateau_spectrum (num 90)
  = [ {| frequency := num 22; magnitude := m; phase := num 0;
         bandwidth := freqResolution |} ]
  ∧ (get plateau_spectrum (22 - 20) <? m * num 0.707)%num = true
  ∧ forallb (λ j, negb (get plateau_spectrum (22 - j) <? m * num 0.707)%num)
      (seq 1 19) = true
  ∧ (get plateau_spectrum (22 + 5) <? m * num 0.707)%num = true
  ∧ forallb (λ j, negb (get plateau_spectrum (22 + j) <? m * num 0.707)%num)
      (seq 1 4) = true
  ∧ freqResolution ≠ (of_nat 20 * freqResolution)%num
  ∧ freqResolution ≠ (of_nat 5 * freqResolution)%num.
Proof.
  cbv zeta. split_and!.
  - vm_compute. reflexivity.
  - vm_compute. reflexivity.
  - vm_compute. reflexivity.
  - vm_compute. reflexivity.
  - vm_compute. reflexivity.
  - vm_compute. discriminate.
  - vm_compute. discriminate.
Qed.

(** ** Fundamental selection *)

(** Without a harmonic series the loop over the reversed list leaves the
    frequency of the first feature of the list, in its own order, that is
    at or above [minFreq]: the last assignment wins. *)
Lemma select_fundamental_no_series
    (settings : AnalysisSettings) (features : list SpectralFeature) :
  select_fundamental settings [] features
  = frequency <$> head (filter (λ f, (frequency f >=? minFreq settings)%num = true) features).
Proof.
  unfold select_fundamental.
  assert (foldl (λ acc feature,
            if (frequency feature >=? minFreq settings)%num
            then Some (frequency feature) else acc) None (reverse features)
          = frequency <$> head (filter (λ f, (frequency f >=? minFreq settings)%num = true)
                                  features)) as Hfold.
  { induction features as [|f features IH]; [done|].
    rewrite reverse_cons, foldl_snoc, IH, filter_cons. cbn beta.
    destruct (frequency f >=? minFreq settings)%num eqn:Hf.
    - by rewrite decide_True.
    - by rewrite decide_False. }
  destruct features as [|f features]; [done|]. exact Hfold.
Qed.

Lemma select_fundamental_no_peaks (settings : AnalysisSettings) :
  select_fundamental settings [] [] = None.
Proof. done. Qed.

Lemma select_fundamental_series
    (settings : AnalysisSettings) (h : HarmonicSeries) (harmonics : list HarmonicSeries)
    (features : list SpectralFeature) :
  select_fundamental settings (h :: harmonics) features = Some (fundamental h).
Proof. done. Qed.

(** The features of [findPeaks] are all at or above [minFreq], so the
    fundamental chosen without a series is the frequency of the strongest
    peak. *)
Lemma select_fundamental_findPeaks
    (settings : AnalysisSettings) (spectrum : list number) (sampleRate : number) :
  select_fundamental settings [] (findPeaks settings spectrum sampleRate)
  = frequency <$> head (findPeaks settings spectrum sampleRate).
Proof.
  rewrite select_fundamental_no_series. f_equal. f_equal.
  pose proof (findPeaks_in_band settings spectrum sampleRate) as Hband.
  induction Hband as [|f features [Hf _] _ IH]; [done|].
  rewrite filter_cons, decide_True by done. by rewrite IH.
Qed.

(** C1, on the two-peak spectrum: the peaks are at 200 Hz (magnitude 1) and
    500 Hz (magnitude 3), both within the default band, and they form no
    harmonic series.  The fundamental reported is 500 Hz, the strongest
    peak, although the lowest peak at or above [minFreq] is at 200 Hz. *)
Lemma fundamental_is_strongest_not_lowest :
  let features := findPeaks defaultSettings two_peak_spectrum (num 1600) in
  frequency <$> features = [num 500; num 200]
  ∧ magnitude <$> features = [num 3; num 1]
  ∧ detectHarmonics features = []
  ∧ select_fundamental defaultSettings (detectHarmonics features) features
    = Some (num 500)
  ∧ (minFreq defaultSettings <=? num 200)%num = true
  ∧ (num 200 <? num 500)%num = true.
Proof.
  cbv zeta. split_and!.
  - vm_compute. reflexivity.
  - vm_compute. reflexivity.
  - vm_compute. reflexivity.
  - vm_compute. reflexivity.
  - vm_compute. reflexivity.
  - vm_compute. reflexivity.
Qed.

(** ** Window Generator *)

Lemma createWindow_unfold (host : HostMath) (size : Z) :
  createWindow host size
  = if size <? 0 then Throw RangeError
    else Return (window_coefficient host size <$> seq 0 (Z.to_nat size)).
Proof.
  unfold createWindow, new_Float32Array.
  destruct (size <? 0); [done|]. simpl. unfold mret, outcome_ret. f_equal.
  apply for_range_fill. by rewrite length_replicate.
Qed.

(** Whatever the host's cosine, the one coefficient of a window of length
    1 is NaN: its argument is [0 / 0]. *)
Lemma createWindow_one (host : HostMath) : createWindow host 1 = Return [NaN].
Proof. reflexivity. Qed.

Lemma createWindow_zero (host : HostMath) : createWindow host 0 = Return [].
Proof. reflexivity. Qed.

(** C2, the claim as stated, fails for [N = 1] and [N = 0]: the call
    returns an array (whose one coefficient is NaN, from [0 / 0], for
    [N = 1]) instead of failing; and for a negative [N] the failure is the
    [RangeError] of the allocation. *)
Lemma createWindow_returns_below_2 :
  createWindow coarseHost 1 = Return [NaN]
  ∧ createWindow coarseHost 0 = Return []
  ∧ createWindow coarseHost (-1) = Throw RangeError.
Proof. split_and!; vm_compute; reflexivity. Qed.

(** C2 (as the code has it). The Window Generator has no [InvalidParameter]
    failure: for a negative [N] the allocation of the typed array throws a
    [RangeError], and for every [N >= 0], so also for 0 and 1, it returns
    an array of length [N] whose entry [i] is
    [0.35875 - 0.48829 cos(2 pi i/(N-1)) + 0.14128 cos(4 pi i/(N-1))
     - 0.01168 cos(6 pi i/(N-1))]. *)
Theorem createWindow_spec (host : HostMath) (N : Z) :
  (N < 0 → createWindow host N = Throw RangeError)
  ∧ (0 ≤ N →
     ∃ w, createWindow host N = Return w
          ∧ Z.of_nat (length w) = N
          ∧ ∀ i, (Z.of_nat i < N) →
              w !! i = Some
                (num 0.35875
                 - num 0.48829 * Math_cos host (num 2 * Math_PI * of_nat i / (of_Z N - num 1))
                 + num 0.14128 * Math_cos host (num 4 * Math_PI * of_nat i / (of_Z N - num 1))
                 - num 0.01168 * Math_cos host (num 6 * Math_PI * of_nat i / (of_Z N - num 1)))%num).
Proof.
  rewrite createWindow_unfold. split; intros HN.
  - by rewrite (proj2 (Z.ltb_lt N 0)).
  - rewrite (proj2 (Z.ltb_ge N 0)) by done. eexists. split; [done|]. split.
    + rewrite length_fmap, length_seq. lia.
    + intros i Hi. rewrite list_lookup_fmap, lookup_seq_lt by lia. done.
Qed.

Lemma createWindow_spec_witness :
  (∃ w, createWindow coarseHost 4 = Return w ∧ Z.of_nat (length w) = 4
        ∧ ∀ i, (Z.of_nat i < 4) →
            w !! i = Some
              (num 0.35875
               - num 0.48829 * Math_cos coarseHost (num 2 * Math_PI * of_nat i / (of_Z 4 - num 1))
               + num 0.14128 * Math_cos coarseHost (num 4 * Math_PI * of_nat i / (of_Z 4 - num 1))
               - num 0.01168 * Math_cos coarseHost (num 6 * Math_PI * of_nat i / (of_Z 4 - num 1)))%num)
  ∧ createWindow coarseHost (-1) = Throw RangeError.
Proof.
  split.
  - apply (proj2 (createWindow_spec coarseHost 4)). lia.
  - apply (proj1 (createWindow_spec coarseHost (-1))). lia.
Defined.

(** ** Arithmetic on integers and on silent values *)

Lemma fin_of_Z (q : Q) (z : Z) : (q == inject_Z z)%Q → fin q = of_Z z.
Proof.
  intros Hq. unfold fin, of_Z. f_equal.
  rewrite (Qred_complete _ _ Hq). apply inject_Z_Qred.
Qed.

Lemma num_of_Z (z : Z) : num (inject_Z z) = of_Z z.
Proof. by apply fin_of_Z. Qed.

Lemma of_Z_sub (a b : Z) : (of_Z a - of_Z b)%num = of_Z (a - b).
Proof.
  apply fin_of_Z. unfold Z.sub. rewrite inject_Z_plus, inject_Z_opp. lra.
Qed.

Lemma of_Z_add (a b : Z) : (of_Z a + of_Z b)%num = of_Z (a + b).
Proof. apply fin_of_Z. rewrite inject_Z_plus. lra. Qed.

Lemma of_Z_lt (a b : Z) : (of_Z a <? of_Z b)%num = (a <? b).
Proof.
  apply eq_true_iff_eq. unfold of_Z. rewrite lt_Finite, Z.ltb_lt. by rewrite <- Zlt_Qlt.
Qed.

Lemma of_Z_max (a b : Z) : max (of_Z a) (of_Z b) = of_Z (Z.max a b).
Proof.
  unfold max. change (Finite (inject_Z a)) with (of_Z a).
  change (Finite (inject_Z b)) with (of_Z b). rewrite of_Z_lt.
  destruct (Z.ltb_spec a b); f_equal; lia.
Qed.

Lemma of_Z_min (a b : Z) : min (of_Z a) (of_Z b) = of_Z (Z.min a b).
Proof.
  unfold min. change (Finite (inject_Z a)) with (of_Z a).
  change (Finite (inject_Z b)) with (of_Z b). rewrite of_Z_lt.
  destruct (Z.ltb_spec b a); f_equal; lia.
Qed.

Lemma Qeq_bool_inject_Z (a b : Z) : Qeq_bool (inject_Z a) (inject_Z b) = (a =? b).
Proof.
  apply eq_true_iff_eq. rewrite Qeq_bool_iff, Z.eqb_eq, inject_Z_injective. done.
Qed.

(** [Math.floor(a / b)] on integers is the floor division of [Z]. *)
Lemma floor_div_of_Z (a b : Z) : b ≠ 0 → floor (of_Z a / of_Z b) = of_Z (a `div` b).
Proof.
  intros Hb. unfold div, of_Z at 1 2.
  change 0%Q with (inject_Z 0). rewrite Qeq_bool_inject_Z.
  rewrite (proj2 (Z.eqb_neq b 0)) by done.
  unfold fin, floor. f_equal.
  rewrite (Qfloor_comp _ _ (Qred_correct _)). symmetry. apply Zdiv_Qdiv.
Qed.

Lemma to_index_of_Z (z : Z) : 0 ≤ z → to_index (of_Z z) = Some (Z.to_nat z).
Proof.
  intros Hz. unfold to_index, of_Z. rewrite Qfloor_Z, Qeq_bool_refl.
  by rewrite (proj2 (Z.leb_le 0 z)).
Qed.

Lemma to_index_of_nat (n : nat) : to_index (of_nat n) = Some n.
Proof. unfold of_nat. rewrite to_index_of_Z by lia. by rewrite Nat2Z.id. Qed.

Lemma Qeq_bool_false (a b : Q) : ¬ (a == b)%Q → Qeq_bool a b = false.
Proof. intros H. apply not_true_iff_false. by rewrite Qeq_bool_iff. Qed.

Lemma fin_zero (q : Q) : (q == 0)%Q → fin q = num 0.
Proof. intros Hq. unfold num, fin. f_equal. by apply Qred_complete. Qed.

Lemma silent_add (x y : number) : silent x → silent y → silent (x + y)%num.
Proof. intros [->| ->] [->| ->]; first [by left | by right]. Qed.

Lemma silent_sub (x y : number) : silent x → silent y → silent (x - y)%num.
Proof. intros [->| ->] [->| ->]; first [by left | by right]. Qed.

(** A product with a silent factor is silent, whatever the other factor:
    a finite one gives zero, an infinite one or NaN gives NaN. *)
Lemma silent_mul_r (c x : number) : silent x → silent (c * x)%num.
Proof.
  intros [->| ->]; [|right; by destruct c].
  destruct c as [q| | |]; [left|by right..].
  apply fin_zero. rewrite Qred_correct. lra.
Qed.

Lemma silent_mul_l (c x : number) : silent x → silent (x * c)%num.
Proof.
  intros [->| ->]; [|right; by destruct c].
  destruct c as [q| | |]; [left|by right..].
  apply fin_zero. rewrite Qred_correct. lra.
Qed.

Lemma silent_sqrt (host : HostMath) (x : number) : silent x → silent (Math_sqrt host x).
Proof. intros [->| ->]; first [by left | by right]. Qed.

Lemma silent_not_lt (x y : number) : silent x → silent y → (x <? y)%num = false.
Proof. intros [->| ->] [->| ->]; done. Qed.

Lemma silent_get (a : list number) (i : nat) : Forall silent a → silent (get a i).
Proof.
  intros Ha. unfold get. destruct (a !! i) as [x|] eqn:Hx; [|by right].
  by eapply Forall_lookup_1.
Qed.

Lemma silent_getZ (a : list number) (i : Z) : Forall silent a → silent (getZ a i).
Proof.
  intros Ha. unfold getZ. destruct (i <? 0); [by right|]. by apply silent_get.
Qed.

Lemma silent_insert (a : list number) (i : nat) (x : number) :
  Forall silent a → silent x → Forall silent (<[i := x]> a).
Proof. intros. by apply Forall_insert. Qed.

Lemma silent_replicate (n : nat) : Forall silent (replicate n (num 0)).
Proof. apply Forall_replicate. by left. Qed.

Create HintDb silent.
#[export] Hint Resolve silent_add silent_sub silent_mul_r silent_mul_l silent_sqrt
  silent_get silent_getZ silent_insert silent_replicate : silent.

(** ** FFT Engine and Spectrum Extractor *)

Lemma for_doubling_ind {S : Type} (P : S → Prop) (fuel len N : nat)
    (body : nat → S → S) (s : S) :
  P s → (∀ len s, P s → P (body len s)) → P (for_doubling fuel len N body s).
Proof.
  intros Hs Hbody. revert len s Hs.
  induction fuel as [|fuel IH]; intros len s Hs; simpl; [done|].
  destruct (len <=? N)%nat; [|done]. apply IH. by apply Hbody.
Qed.

Lemma for_stride_ind {S : Type} (P : S → Prop) (fuel i stop step : nat)
    (body : nat → S → S) (s : S) :
  P s → (∀ i s, P s → P (body i s)) → P (for_stride fuel i stop step body s).
Proof.
  intros Hs Hbody. revert i s Hs.
  induction fuel as [|fuel IH]; intros i s Hs; simpl; [done|].
  destruct (i <? stop)%nat; [|done]. apply IH. by apply Hbody.
Qed.

(** The fuel of the three loops of the transform is never exhausted:
    each loop stops on its own condition. *)
Lemma clear_high_bits_exit (fuel : nat) (j bit : Z) :
  0 ≤ bit < 2 ^ Z.of_nat fuel →
  Z.land (clear_high_bits fuel j bit).1 (clear_high_bits fuel j bit).2 = 0.
Proof.
  revert j bit. induction fuel as [|fuel IH]; intros j bit Hbit.
  - simpl in *. replace bit with 0 by lia. apply Z.land_0_r.
  - cbn [clear_high_bits]. destruct (Z.eqb_spec (Z.land j bit) 0) as [Hzero|_]; [done|].
    apply IH. rewrite Z.shiftr_div_pow2 by lia. change (2 ^ 1) with 2.
    rewrite Nat2Z.inj_succ, Z.pow_succ_r in Hbit by lia.
    split; [apply Z.div_pos; lia|apply Z.div_lt_upper_bound; lia].
Qed.

Lemma next_reversed_fuel (N : Z) : 0 ≤ N → 0 ≤ Z.shiftr N 1 < 2 ^ Z.of_nat (Z.to_nat N).
Proof.
  intros HN. rewrite Z2Nat.id, Z.shiftr_div_pow2 by lia. change (2 ^ 1) with 2.
  split; [apply Z.div_pos; lia|].
  apply Z.le_lt_trans with N; [|apply Z.pow_gt_lin_r; lia].
  apply Z.div_le_upper_bound; lia.
Qed.

Lemma for_doubling_fuel {S : Type} (fuel len N : nat) (body : nat → S → S) (s : S) :
  (0 < len)%nat → (N < len * 2 ^ fuel)%nat →
  for_doubling (Datatypes.S fuel) len N body s = for_doubling fuel len N body s.
Proof.
  revert len s. induction fuel as [|fuel IH]; intros len s Hlen Hfuel.
  - simpl in *. destruct (Nat.leb_spec len N); [lia|done].
  - cbn [for_doubling]. destruct (len <=? N)%nat; [|done].
    apply IH; [lia|]. rewrite Nat.pow_succ_r' in Hfuel. lia.
Qed.

Lemma for_stride_fuel {S : Type} (fuel i stop step : nat) (body : nat → S → S) (s : S) :
  (0 < step)%nat → (stop ≤ i + fuel * step)%nat →
  for_stride (Datatypes.S fuel) i stop step body s = for_stride fuel i stop step body s.
Proof.
  revert i s. induction fuel as [|fuel IH]; intros i s Hstep Hfuel.
  - simpl in *. destruct (Nat.ltb_spec i stop); [lia|done].
  - cbn [for_stride]. destruct (i <? stop)%nat; [|done].
    apply IH; [done|]. lia.
Qed.

Section FFTFacts.
Context (host : HostMath).

(** A property of the two arrays that every swap and every butterfly
    preserves holds of the transform. *)
Lemma fft_ind (Q : list number → list number → Prop) (signal : list number) :
  Q signal (replicate (length signal) (num 0)) →
  (∀ re im i j, Q re im → Q (swap re i j) (swap im i j)) →
  (∀ wlen len i j re im, Q re im →
     Q (butterfly host wlen len i j (re, im)).1 (butterfly host wlen len i j (re, im)).2) →
  Q (fft host signal).1 (fft host signal).2.
Proof.
  intros Hinit Hswap Hbutterfly. unfold fft.
  assert (Q (bit_reversal signal (replicate (length signal) (num 0))).1
            (bit_reversal signal (replicate (length signal) (num 0))).2) as Hrev.
  { unfold bit_reversal.
    loop_invariant (λ st : Z * list number * list number, Q st.1.2 st.2).
    - done.
    - intros i [[j re] im] _ Hst. simpl in *.
      destruct (_ <? _); simpl; [by apply Hswap|done].
    - by destruct (for_range _ _ _ _) as [[??]?]. }
  destruct (bit_reversal _ _) as [re im]. simpl in Hrev.
  unfold cooley_tukey.
  apply (for_doubling_ind (λ ri, Q ri.1 ri.2)); [done|].
  intros len ri Hri.
  apply (for_stride_ind (λ ri, Q ri.1 ri.2)); [done|].
  clear ri Hri. intros i ri Hri.
  apply (for_range_ind (λ ri, Q ri.1 ri.2)); [done|].
  clear ri Hri. intros j [re' im'] _ Hri. by apply Hbutterfly.
Qed.

Lemma fft_length (signal : list number) :
  length (fft host signal).1 = length signal ∧ length (fft host signal).2 = length signal.
Proof.
  apply (fft_ind (λ re im, length re = length signal ∧ length im = length signal)).
  - by rewrite length_replicate.
  - intros re im i j [Hre Him]. unfold swap. by rewrite !length_insert.
  - intros wlen len i j re im [Hre Him]. simpl. by rewrite !length_insert.
Qed.

Lemma fft_silent (signal : list number) :
  Forall silent signal →
  Forall silent (fft host signal).1 ∧ Forall silent (fft host signal).2.
Proof.
  intros Hsignal.
  apply (fft_ind (λ re im, Forall silent re ∧ Forall silent im)).
  - auto with silent.
  - intros re im i j [Hre Him]. unfold swap. auto with silent.
  - intros wlen len i j re im [Hre Him]. simpl. split; auto 7 with silent.
Qed.

Lemma getMagnitudeSpectrum_unfold (real imag : list number) :
  getMagnitudeSpectrum host real imag
  = (λ i, Math_sqrt host (get real i * get real i + get imag i * get imag i)%num)
    <$> seq 0 (length real / 2).
Proof.
  unfold getMagnitudeSpectrum. apply for_range_fill. by rewrite length_replicate.
Qed.

Lemma getMagnitudeSpectrum_length (real imag : list number) :
  length (getMagnitudeSpectrum host real imag) = (length real / 2)%nat.
Proof. by rewrite getMagnitudeSpectrum_unfold, length_fmap, length_seq. Qed.

Lemma getMagnitudeSpectrum_silent (real imag : list number) :
  Forall silent real → Forall silent imag →
  Forall silent (getMagnitudeSpectrum host real imag).
Proof.
  intros Hre Him. rewrite getMagnitudeSpectrum_unfold.
  apply Forall_fmap, Forall_forall. intros i _. simpl. auto with silent.
Qed.
End FFTFacts.

(** A spectrum of zeros and NaNs has no strict local maximum, so no peak. *)
Lemma findPeaks_silent (settings : AnalysisSettings) (spectrum : list number)
    (sampleRate : number) :
  Forall silent spectrum → findPeaks settings spectrum sampleRate = [].
Proof.
  intros Hsilent.
  destruct (findPeaks settings spectrum sampleRate) as [|f features] eqn:Hpeaks; [done|].
  assert (f ∈ findPeaks settings spectrum sampleRate) as Hf by (rewrite Hpeaks; left).
  apply findPeaks_inv in Hf as (i & _ & Hf).
  apply feature_at_inv in Hf as (Hpeak & _).
  unfold is_peak in Hpeak. rewrite !andb_true_iff in Hpeak.
  destruct Hpeak as [[[[_ Hprev] _] _] _].
  unfold gt in Hprev. rewrite silent_not_lt in Hprev by by apply silent_get. done.
Qed.

Lemma detectHarmonics_nil : detectHarmonics [] = [].
Proof. done. Qed.

(** ** Spectrogram Builder *)

Lemma bind_Return {A B : Type} (a : A) (k : A → outcome B) : (Return a ≫= k) = k a.
Proof. done. Qed.

Lemma new_Float32Array_nonneg (n : Z) :
  0 ≤ n → new_Float32Array n = Return (replicate (Z.to_nat n) (num 0)).
Proof. intros Hn. unfold new_Float32Array. by rewrite (proj2 (Z.ltb_ge n 0)). Qed.

(** Half of an even length is an integer, which [new Array] accepts. *)
Lemma new_Array_half (n : Z) :
  0 ≤ n → Z.even n = true →
  new_Array (of_Z n / num 2) = Return (replicate (Z.to_nat (n `div` 2)) NaN).
Proof.
  intros Hn Heven. apply Z.even_spec in Heven as [m ->].
  assert ((of_Z (2 * m) / num 2)%num = of_Z m) as ->.
  { apply fin_of_Z. rewrite inject_Z_mult. change (Qred 2) with 2%Q.
    change (inject_Z 2) with 2%Q. field. }
  unfold new_Array. rewrite to_index_of_Z by lia.
  do 3 f_equal. rewrite Z.mul_comm, Z.div_mul; lia.
Qed.

Section SpectrogramFacts.
Context (host : HostMath) (this : AudioProcessor) (audioData : list number).
Let ws : Z := windowSize (settings this).
Let hop : Z := hopSize (settings this).

Lemma spectrogram_frame_returns (frame : nat) :
  0 ≤ ws → Z.even ws = true →
  ∃ magnitudeDB, spectrogram_frame host this audioData frame = Return magnitudeDB
                 ∧ length magnitudeDB = Z.to_nat (ws `div` 2).
Proof.
  intros Hws Heven. unfold spectrogram_frame. fold ws hop.
  rewrite new_Float32Array_nonneg, bind_Return by done.
  destruct (fft host _) as [real imag].
  rewrite new_Array_half, bind_Return by done.
  eexists. split; [done|].
  by rewrite for_range_fill_length, length_replicate.
Qed.

Lemma spectrogram_frames_returns (frames : list nat) :
  0 ≤ ws → Z.even ws = true →
  ∃ spectrogram, spectrogram_frames host this audioData frames = Return spectrogram
                 ∧ length spectrogram = length frames
                 ∧ Forall (λ magnitudeDB, length magnitudeDB = Z.to_nat (ws `div` 2))
                     spectrogram.
Proof.
  intros Hws Heven. induction frames as [|frame frames IH]; simpl.
  - exists []. by split_and!.
  - destruct (spectrogram_frame_returns frame Hws Heven) as (m & -> & Hm).
    destruct IH as (sg & -> & Hlen & Hall). rewrite !bind_Return.
    exists (m :: sg). split_and!; [done|by simpl; f_equal|by constructor].
Qed.

(** With a non-zero hop the frame count is the integer
    [floor((len - windowSize) / hopSize) + 1], none when that is negative. *)
Lemma generateSpectrogram_unfold :
  hop ≠ 0 →
  generateSpectrogram host this audioData
  = spectrogram_frames host this audioData
      (seq 0 (Z.to_nat ((Z.of_nat (length audioData) - ws) `div` hop + 1))).
Proof.
  intros Hhop. unfold generateSpectrogram. fold ws hop.
  unfold of_nat. rewrite of_Z_sub, floor_div_of_Z by done.
  change (num 1) with (of_Z 1). rewrite of_Z_add.
  unfold of_Z at 1. by rewrite Qceiling_Z.
Qed.
End SpectrogramFacts.

(** C6. For settings with a positive hop and an even window size, and an
    input at least one window long, the Spectrogram Builder returns exactly
    [floor((sampleCount - windowSize) / hopSize) + 1] frames, each of
    exactly [windowSize / 2] entries. *)
Theorem generateSpectrogram_shape
    (host : HostMath) (this : AudioProcessor) (audioData : list number) :
  let windowSize := windowSize (settings this) in
  let hopSize := hopSize (settings this) in
  let sampleCount := Z.of_nat (length audioData) in
  0 < hopSize → 0 ≤ windowSize → Z.even windowSize = true →
  windowSize ≤ sampleCount →
  ∃ spectrogram,
    generateSpectrogram host this audioData = Return spectrogram
    ∧ Z.of_nat (length spectrogram) = (sampleCount - windowSize) `div` hopSize + 1
    ∧ Forall (λ frame, Z.of_nat (length frame) = windowSize `div` 2) spectrogram.
Proof.
  intros ws hop n Hhop Hws Heven Hlen.
  rewrite generateSpectrogram_unfold by (fold hop; lia). fold ws hop n.
  destruct (spectrogram_frames_returns host this audioData
              (seq 0 (Z.to_nat ((n - ws) `div` hop + 1))) Hws Heven)
    as (sg & -> & Hcount & Hframes).
  exists sg. split_and!; [done| |].
  - rewrite Hcount, length_seq.
    assert (0 ≤ (n - ws) `div` hop) by (apply Z.div_pos; lia). lia.
  - eapply Forall_impl; [exact Hframes|]. intros frame ->. simpl.
    assert (0 ≤ ws `div` 2) by (apply Z.div_pos; lia). fold ws. lia.
Qed.

Lemma generateSpectrogram_shape_witness :
  ∃ spectrogram,
    generateSpectrogram coarseHost sampleProcessor sampleData = Return spectrogram
    ∧ Z.of_nat (length spectrogram) = 3
    ∧ Forall (λ frame, Z.of_nat (length frame) = 2) spectrogram.
Proof.
  apply (generateSpectrogram_shape coarseHost sampleProcessor sampleData);
    [reflexivity|discriminate|reflexivity|discriminate].
Defined.

(** Outside these settings the builder does not return: with an odd
    window size [new Array(windowSize / 2)] throws in the first frame, and
    with a zero hop and an input longer than the window the frame count is
    infinite. *)
Lemma new_Array_half_odd (n : Z) :
  Z.odd n = true → new_Array (of_Z n / num 2) = Throw RangeError.
Proof.
  intros Hodd. apply Z.odd_spec in Hodd as [m ->].
  unfold new_Array, to_index, div, of_Z, num, fin.
  change (Qred 2) with 2%Q. change (Qeq_bool 2 0) with false. cbv iota.
  assert (inject_Z (2 * m + 1) / 2 == inject_Z m + 0.5)%Q as Hhalf.
  { rewrite inject_Z_plus, inject_Z_mult. change (inject_Z 2) with 2%Q.
    change (inject_Z 1) with 1%Q. field. }
  assert (Qfloor (Qred (inject_Z (2 * m + 1) / 2)) = m) as Hfloor.
  { rewrite (Qfloor_comp _ _ (Qred_correct _)), (Qfloor_comp _ _ Hhalf).
    apply Z.le_antisymm.
    - apply Z.lt_succ_r. rewrite Zlt_Qlt, <- Z.add_1_r, inject_Z_plus.
      change (inject_Z 1) with 1%Q.
      eapply Qle_lt_trans; [apply Qfloor_le|]. lra.
    - rewrite <- (Qfloor_Z m) at 1. apply Qfloor_resp_le. lra. }
  rewrite Hfloor, Qeq_bool_false; [done|].
  rewrite Qred_correct, Hhalf. lra.
Qed.

Lemma generateSpectrogram_odd_window
    (host : HostMath) (this : AudioProcessor) (audioData : list number) :
  0 < hopSize (settings this) → 0 ≤ windowSize (settings this) →
  Z.odd (windowSize (settings this)) = true →
  windowSize (settings this) ≤ Z.of_nat (length audioData) →
  generateSpectrogram host this audioData = Throw RangeError.
Proof.
  intros Hhop Hws Hodd Hlen. rewrite generateSpectrogram_unfold by lia.
  assert (0 ≤ (Z.of_nat (length audioData) - windowSize (settings this))
              `div` hopSize (settings this)) by (apply Z.div_pos; lia).
  destruct (Z.to_nat _) as [|frames] eqn:Hframes; [lia|].
  cbn [seq spectrogram_frames]. unfold spectrogram_frame.
  rewrite new_Float32Array_nonneg, bind_Return by done.
  destruct (fft host _) as [real imag]. by rewrite new_Array_half_odd.
Qed.

Lemma generateSpectrogram_zero_hop
    (host : HostMath) (this : AudioProcessor) (audioData : list number) :
  hopSize (settings this) = 0 → 0 ≤ windowSize (settings this) →
  Z.even (windowSize (settings this)) = true →
  windowSize (settings this) < Z.of_nat (length audioData) →
  generateSpectrogram host this audioData = Diverge.
Proof.
  intros Hhop Hws Heven Hlen. unfold generateSpectrogram. rewrite Hhop.
  unfold of_nat. rewrite of_Z_sub.
  assert ((of_Z (Z.of_nat (length audioData) - windowSize (settings this)) / of_Z 0)%num
          = PosInf) as ->.
  { unfold div, of_Z. change (Qeq_bool (inject_Z 0) 0) with true. cbv iota.
    change 0%Q with (inject_Z 0).
    by rewrite (proj1 (Qgt_alt _ _)) by (rewrite <- Zlt_Qlt; lia). }
  cbn [floor add].
  by destruct (spectrogram_frame_returns host this audioData 0 Hws Heven) as (m & -> & _).
Qed.

(** ** Analysis Orchestrator *)

Lemma signal_levels_zeros (n : nat) :
  signal_levels (replicate n (num 0)) = (num 0, num 0).
Proof.
  unfold signal_levels. rewrite length_replicate.
  apply (for_range_ind (λ st, st = (num 0, num 0))); [done|].
  intros i st Hi ->. unfold get. by rewrite lookup_replicate_2 by lia.
Qed.

(** The downmix of channels of zeros is zeros: the channel itself when it
    is alone, the mean of the first two otherwise. *)
Lemma downmix_zeros (buffer : AudioBuffer) (n : nat) :
  buffer_channels buffer ≠ [] →
  Forall (λ channel, channel = replicate n (num 0)) (buffer_channels buffer) →
  downmix buffer = Return (replicate n (num 0)).
Proof.
  intros Hne Hzeros. unfold downmix, numberOfChannels, getChannelData.
  destruct (buffer_channels buffer) as [|left [|right channels]]; [done|..].
  - apply Forall_cons in Hzeros as [-> _]. done.
  - apply Forall_cons in Hzeros as [-> Hzeros].
    apply Forall_cons in Hzeros as [-> _].
    change (length (_ :: _ :: channels) =? 1)%nat with false.
    change (1 <? length (_ :: _ :: channels))%nat with true.
    cbn [lookup list_lookup]. rewrite !bind_Return, length_replicate.
    rewrite new_Float32Array_nonneg, bind_Return by lia.
    unfold mret, outcome_ret. f_equal.
    rewrite for_range_fill by (rewrite length_replicate; lia).
    apply list_eq. intros i. rewrite list_lookup_fmap.
    destruct (decide (i < n)%nat) as [Hi|Hi].
    + rewrite lookup_seq_lt, lookup_replicate_2 by done. simpl.
      unfold get. by rewrite lookup_replicate_2 by done.
    + rewrite lookup_seq_ge by lia. symmetry. apply lookup_ge_None.
      rewrite length_replicate. lia.
Qed.

Section AnalyzeFacts.
Context (host : HostMath) (this : AudioProcessor).

(** The windowed frame of a silent signal is silent, whatever the window
    holds (also past its end, where the product is NaN). *)
Lemma windowed_signal_silent (audioData : list number) (start : Z) (n : nat)
    (guard : nat → bool) (frame : list number) :
  Forall silent audioData → Forall silent frame →
  Forall silent
    (for_range 0 n
       (λ i windowedSignal,
          if guard i
          then <[i := (getZ audioData (start + Z.of_nat i) * get (windowFunction this) i)%num]>
                 windowedSignal
          else windowedSignal)
       frame).
Proof.
  intros Hdata Hframe. apply for_range_ind; [done|].
  intros i frame' _ Hframe'. destruct (guard i); auto with silent.
Qed.

(** What [analyze] returns on a silent downmix, once the spectrogram is
    known to be returned. *)
Lemma analyze_silent (audioData : list number) (frames : list (list number)) :
  downmix (audioBuffer this) = Return audioData →
  Forall silent audioData →
  0 ≤ fftSize (settings this) →
  generateSpectrogram host this audioData = Return frames →
  ∃ result,
    analyze host this = Return result
    ∧ spectralFeatures result = []
    ∧ harmonics result = []
    ∧ fundamentalFreq result = None
    ∧ rmsLevel result
      = Math_sqrt host ((signal_levels audioData).1 / of_nat (length audioData))%num
    ∧ peakLevel result = (signal_levels audioData).2
    ∧ envelope result
      = calculateEnvelope (buffer_sampleRate (audioBuffer this)) audioData
    ∧ spectrogram result = frames.
Proof.
  intros Hmix Hsilent Hfft Hframes. unfold analyze.
  rewrite Hmix, bind_Return.
  destruct (signal_levels audioData) as [rmsSum peak].
  rewrite new_Float32Array_nonneg, bind_Return by done.
  match goal with |- context [fft host ?signal] =>
    pose proof (fft_silent host signal) as Hspectrum;
    destruct (fft host signal) as [real imag] end.
  destruct Hspectrum as [Hreal Himag].
  { apply (windowed_signal_silent audioData _ _ (λ i, _ && _)); [done|].
    apply silent_replicate. }
  rewrite findPeaks_silent by by apply getMagnitudeSpectrum_silent.
  rewrite Hframes, bind_Return. eexists. split; [done|]. by split_and!.
Qed.
End AnalyzeFacts.

(** Whatever [analyze] returns, its features are those of the Peak
    Detector on some spectrum, its series those of the Harmonic Grouper on
    these features, and its fundamental and envelope are computed from
    them as above. *)
Lemma analyze_components (host : HostMath) (this : AudioProcessor)
    (result : AnalysisResult) :
  analyze host this = Return result →
  ∃ audioData spectrum,
    downmix (audioBuffer this) = Return audioData
    ∧ spectralFeatures result
      = findPeaks (settings this) spectrum (buffer_sampleRate (audioBuffer this))
    ∧ harmonics result = detectHarmonics (spectralFeatures result)
    ∧ fundamentalFreq result
      = select_fundamental (settings this) (harmonics result) (spectralFeatures result)
    ∧ envelope result
      = calculateEnvelope (buffer_sampleRate (audioBuffer this)) audioData
    ∧ generateSpectrogram host this audioData = Return (spectrogram result).
Proof.
  unfold analyze.
  destruct (downmix (audioBuffer this)) as [audioData| |] eqn:Hmix; [|done..].
  rewrite bind_Return. destruct (signal_levels audioData) as [rmsSum peak].
  destruct (new_Float32Array _) as [windowedSignal| |]; [|done..].
  rewrite bind_Return. destruct (fft host _) as [real imag].
  destruct (generateSpectrogram host this audioData) as [frames| |] eqn:Hframes;
    [|done..].
  rewrite bind_Return. intros [= <-].
  exists audioData, (getMagnitudeSpectrum host real imag). by split_and!.
Qed.

(** In every analysis that finds no harmonic series the fundamental is the
    frequency of the first, so strongest, spectral feature, and null when
    there is none. *)
Lemma analyze_fundamental_without_series (host : HostMath) (this : AudioProcessor)
    (result : AnalysisResult) :
  analyze host this = Return result → harmonics result = [] →
  fundamentalFreq result = frequency <$> head (spectralFeatures result).
Proof.
  intros Hresult Hnone.
  apply analyze_components in Hresult
    as (audioData & spectrum & _ & Hfeatures & _ & Hfundamental & _).
  rewrite Hfundamental, Hnone, Hfeatures. apply select_fundamental_findPeaks.
Qed.

Lemma zero_div_of_nat (n : nat) : (0 < n)%nat → (num 0 / of_nat n)%num = num 0.
Proof.
  intros Hn. unfold of_nat, of_Z. change (num 0) with (Finite (inject_Z 0)).
  unfold div. rewrite (Qeq_bool_inject_Z _ 0).
  rewrite (proj2 (Z.eqb_neq _ 0)) by lia.
  apply fin_zero. unfold Qdiv. change (inject_Z 0) with 0%Q. lra.
Qed.

Lemma run_analysis_unfold (host : HostMath) (buffer : AudioBuffer)
    (settings : AnalysisSettings) :
  0 ≤ windowSize settings →
  run_analysis host buffer settings
  = analyze host {| audioBuffer := buffer;
                    settings := settings;
                    windowFunction := window_coefficient host (windowSize settings)
                                      <$> seq 0 (Z.to_nat (windowSize settings)) |}.
Proof.
  intros Hws. unfold run_analysis, new_AudioProcessor.
  rewrite createWindow_unfold, (proj2 (Z.ltb_ge _ 0)) by done.
  by rewrite !bind_Return.
Qed.

(** C7. For an input of one or more samples, all zero, in every channel,
    and settings under which the analysis runs (sizes not negative, an even
    window size, a positive hop), [analyze] returns a result with no
    spectral feature, no harmonic series, a null fundamental, and RMS and
    peak levels of 0. *)
Theorem analyze_silence
    (host : HostMath) (buffer : AudioBuffer) (settings : AnalysisSettings) (n : nat) :
  buffer_channels buffer ≠ [] →
  Forall (λ channel, channel = replicate n (num 0)) (buffer_channels buffer) →
  (0 < n)%nat →
  0 ≤ fftSize settings → 0 ≤ windowSize settings →
  Z.even (windowSize settings) = true → 0 < hopSize settings →
  ∃ result,
    run_analysis host buffer settings = Return result
    ∧ spectralFeatures result = []
    ∧ harmonics result = []
    ∧ fundamentalFreq result = None
    ∧ rmsLevel result = num 0
    ∧ peakLevel result = num 0.
Proof.
  intros Hchannels Hzeros Hn Hfft Hws Heven Hhop.
  rewrite run_analysis_unfold by done.
  set (this := {| audioBuffer := buffer |}).
  destruct (spectrogram_frames_returns host this (replicate n (num 0))
              (seq 0 (Z.to_nat ((Z.of_nat (length (replicate n (num 0)))
                                 - windowSize settings) `div` hopSize settings + 1)))
              Hws Heven) as (frames & Hframes & _).
  destruct (analyze_silent host this (replicate n (num 0)) frames)
    as (result & -> & Hfeatures & Hharmonics & Hfundamental & Hrms & Hpeak & _).
  - by apply downmix_zeros.
  - apply silent_replicate.
  - done.
  - rewrite generateSpectrogram_unfold by (simpl; lia). exact Hframes.
  - exists result. split_and!; try done.
    + rewrite Hrms, signal_levels_zeros, length_replicate. simpl fst.
      by rewrite zero_div_of_nat.
    + by rewrite Hpeak, signal_levels_zeros.
Qed.

Lemma analyze_silence_witness :
  ∃ result,
    run_analysis coarseHost silentBuffer sampleSettings = Return result
    ∧ spectralFeatures result = []
    ∧ harmonics result = []
    ∧ fundamentalFreq result = None
    ∧ rmsLevel result = num 0
    ∧ peakLevel result = num 0.
Proof.
  apply (analyze_silence coarseHost silentBuffer sampleSettings 8).
  - discriminate.
  - repeat constructor.
  - apply Nat.lt_0_succ.
  - discriminate.
  - discriminate.
  - reflexivity.
  - reflexivity.
Defined.

(** C3, the claim as stated, fails: on the empty buffer [analyze] raises no
    error and returns a result, whose RMS level is NaN (from [0 / 0]). *)
Lemma analyze_empty_returns :
  run_analysis coarseHost emptyBuffer sampleSettings
  = Return {| spectralFeatures := [];
              harmonics := [];
              fundamentalFreq := None;
              spectralCentroid := num 0;
              spectralRolloff := num 0;
              spectralFlux := num 0;
              rmsLevel := NaN;
              peakLevel := num 0;
              sampleRate := num 44100;
              duration := num 0;
              envelope := [];
              spectrogram := [] |}.
Proof. vm_compute. reflexivity. Qed.

(** C3 (as the code has it). The engine has no [EmptyInput] error: for a
    zero-length input, with a positive window size and hop and a
    non-negative FFT size, [analyze] returns a result, with no spectral
    feature, no harmonic series, a null fundamental, an empty envelope and
    spectrogram, a peak level of 0 and an RMS level that is NaN. *)
Theorem analyze_empty_input
    (host : HostMath) (buffer : AudioBuffer) (settings : AnalysisSettings) :
  buffer_channels buffer ≠ [] →
  Forall (λ channel, channel = []) (buffer_channels buffer) →
  0 ≤ fftSize settings → 0 < windowSize settings → 0 < hopSize settings →
  ∃ result,
    run_analysis host buffer settings = Return result
    ∧ spectralFeatures result = []
    ∧ harmonics result = []
    ∧ fundamentalFreq result = None
    ∧ rmsLevel result = NaN
    ∧ peakLevel result = num 0
    ∧ envelope result = []
    ∧ spectrogram result = [].
Proof.
  intros Hchannels Hempty Hfft Hws Hhop.
  rewrite run_analysis_unfold by lia.
  set (this := {| audioBuffer := buffer |}).
  destruct (analyze_silent host this [] [])
    as (result & -> & Hfeatures & Hharmonics & Hfundamental & Hrms & Hpeak & Henv & Hsg).
  - by apply (downmix_zeros buffer 0).
  - constructor.
  - done.
  - rewrite generateSpectrogram_unfold by (simpl; lia). simpl.
    assert ((0 - windowSize settings) `div` hopSize settings < 0) as Hneg
      by (apply Z.div_lt_upper_bound; lia).
    by replace (Z.to_nat _) with 0%nat by lia.
  - exists result. by split_and!.
Qed.

Lemma analyze_empty_input_witness :
  ∃ result,
    run_analysis coarseHost emptyBuffer sampleSettings = Return result
    ∧ spectralFeatures result = []
    ∧ harmonics result = []
    ∧ fundamentalFreq result = None
    ∧ rmsLevel result = NaN
    ∧ peakLevel result = num 0
    ∧ envelope result = []
    ∧ spectrogram result = [].
Proof.
  apply (analyze_empty_input coarseHost emptyBuffer sampleSettings).
  - discriminate.
  - repeat constructor.
  - discriminate.
  - reflexivity.
  - reflexivity.
Defined.

(** ** Envelope Extractor *)

Lemma calculateEnvelope_unfold (sampleRate : number) (audioData : list number) :
  calculateEnvelope sampleRate audioData
  = envelope_at audioData (floor (sampleRate * num 0.01)%num)
    <$> seq 0 (length audioData).
Proof. unfold calculateEnvelope. apply for_range_fill. by rewrite length_replicate. Qed.

Lemma samples_between_empty (audioData : list number) (lo hi : Z) :
  hi ≤ lo → samples_between audioData lo hi = [].
Proof.
  intros Hle. unfold samples_between.
  by replace (Z.to_nat hi - Z.to_nat lo)%nat with 0%nat by lia.
Qed.

Lemma samples_between_cons (audioData : list number) (lo hi : Z) :
  0 ≤ lo < hi → hi ≤ Z.of_nat (length audioData) →
  samples_between audioData lo hi
  = get audioData (Z.to_nat lo) :: samples_between audioData (lo + 1) hi.
Proof.
  intros Hlo Hhi. unfold samples_between, get.
  destruct (lookup_lt_is_Some_2 audioData (Z.to_nat lo)) as [x Hx]; [lia|].
  rewrite Hx. simpl. rewrite (drop_S _ _ _ Hx).
  replace (Z.to_nat hi - Z.to_nat lo)%nat
    with (S (Z.to_nat hi - Z.to_nat (lo + 1))) by lia.
  simpl. do 2 f_equal. f_equal. lia.
Qed.

Lemma samples_between_length (audioData : list number) (lo hi : Z) :
  0 ≤ lo → hi ≤ Z.of_nat (length audioData) →
  length (samples_between audioData lo hi) = Z.to_nat (hi - lo).
Proof.
  intros Hlo Hhi. unfold samples_between. rewrite length_take, length_drop. lia.
Qed.

(** Between integer bounds the window loop visits the samples
    [lo <= j < hi], in order. *)
Lemma envelope_window_integers (audioData : list number) (fuel : nat) (lo hi : Z)
    (sum : number) (count : nat) :
  0 ≤ lo → hi ≤ Z.of_nat (length audioData) → hi - lo < Z.of_nat fuel →
  envelope_window fuel audioData (of_Z lo) (of_Z hi) sum count
  = (foldl (λ sum x, sum + abs x)%num sum (samples_between audioData lo hi),
     (count + Z.to_nat (hi - lo))%nat).
Proof.
  revert lo sum count. induction fuel as [|fuel IH]; intros lo sum count Hlo Hhi Hfuel.
  - rewrite samples_between_empty by lia. cbn [envelope_window foldl]. f_equal. lia.
  - cbn [envelope_window]. rewrite of_Z_lt. destruct (Z.ltb_spec lo hi) as [Hlt|Hge].
    + change (num 1) with (of_Z 1). rewrite of_Z_add, IH by lia.
      rewrite (samples_between_cons audioData lo hi) by lia. cbn [foldl].
      unfold get_num. rewrite to_index_of_Z by lia. f_equal. lia.
    + rewrite samples_between_empty by lia. cbn [foldl]. f_equal. lia.
Qed.

(** Between finite bounds less than [fuel] apart the loop stops on its own
    condition: more fuel changes nothing.  In [envelope_at] the start is at
    least 0 and the end at most the length (or the loop does not run at
    all), so its fuel is never exhausted. *)
Lemma envelope_window_fuel (audioData : list number) (fuel : nat) (j e : Q)
    (sum : number) (count : nat) :
  (e - j < inject_Z (Z.of_nat fuel))%Q →
  envelope_window (S fuel) audioData (Finite j) (Finite e) sum count
  = envelope_window fuel audioData (Finite j) (Finite e) sum count.
Proof.
  revert j sum count. induction fuel as [|fuel IH]; intros j sum count Hfuel.
  - cbn [envelope_window].
    destruct (Finite j <? Finite e)%num eqn:Hlt; [|done].
    apply lt_Finite in Hlt. change (inject_Z (Z.of_nat 0)) with 0%Q in Hfuel. lra.
  - cbn [envelope_window].
    destruct (Finite j <? Finite e)%num eqn:Hlt; [|done].
    apply IH. rewrite Qred_correct. change (Qred 1) with 1%Q.
    rewrite Nat2Z.inj_succ, <- Z.add_1_r, inject_Z_plus in Hfuel.
    change (inject_Z 1) with 1%Q in Hfuel. lra.
Qed.

Lemma half_of_even (h : Z) : (of_Z (2 * h) / num 2)%num = of_Z h.
Proof.
  apply fin_of_Z. rewrite inject_Z_mult. change (Qred 2) with 2%Q.
  change (inject_Z 2) with 2%Q. field.
Qed.

(** With an even window size [2 h] the bounds are integers and the entry
    is the mean over the clamped window. *)
Lemma envelope_at_even (audioData : list number) (h : Z) (i : nat) :
  (i < length audioData)%nat →
  envelope_at audioData (of_Z (2 * h)) i
  = mean_abs (samples_between audioData
                (Z.max 0 (Z.of_nat i - h))
                (Z.min (Z.of_nat (length audioData)) (Z.of_nat i + h))).
Proof.
  intros Hi. unfold envelope_at. rewrite half_of_even.
  change (num 0) with (of_Z 0) at 1. unfold of_nat.
  rewrite of_Z_sub, of_Z_add, of_Z_max, of_Z_min.
  set (lo := Z.max 0 (Z.of_nat i - h)).
  set (hi := Z.min (Z.of_nat (length audioData)) (Z.of_nat i + h)).
  rewrite envelope_window_integers by lia.
  unfold mean_abs. rewrite samples_between_length by lia. done.
Qed.

Lemma nonneg_abs (x : number) : x ≠ NaN → (num 0 <=? abs x)%num = true.
Proof.
  destruct x as [q| | |]; try done. intros _.
  unfold num, abs, fin. apply le_Finite. rewrite !Qred_correct. apply Qabs_nonneg.
Qed.

Lemma nonneg_add (x y : number) :
  (num 0 <=? x)%num = true → (num 0 <=? y)%num = true → (num 0 <=? x + y)%num = true.
Proof.
  destruct x as [a| | |], y as [b| | |]; try done.
  unfold num, add, fin. change (Qred 0) with 0%Q.
  rewrite !le_Finite, Qred_correct. lra.
Qed.

Lemma nonneg_div_count (x : number) (n : nat) :
  (0 < n)%nat → (num 0 <=? x)%num = true → (num 0 <=? x / of_nat n)%num = true.
Proof.
  intros Hn. assert (0 < inject_Z (Z.of_nat n))%Q as Hpos.
  { change 0%Q with (inject_Z 0). rewrite <- Zlt_Qlt. lia. }
  destruct x as [a| | |]; try done.
  - unfold num, of_nat, of_Z, div, fin. change (Qred 0) with 0%Q.
    rewrite le_Finite. intros Ha.
    destruct (Qeq_bool _ 0) eqn:Hzero.
    + apply Qeq_bool_eq in Hzero. lra.
    + apply le_Finite. rewrite Qred_correct. by apply Qle_shift_div_l; [|lra].
  - intros _. unfold of_nat, of_Z, div.
    by rewrite (proj2 (Qle_bool_iff _ _)) by lra.
Qed.

Lemma nonneg_mean_abs (window : list number) :
  Forall (λ x, x ≠ NaN) window → (num 0 <=? mean_abs window)%num = true.
Proof.
  intros Hwindow. unfold mean_abs.
  destruct (Nat.ltb_spec 0 (length window)) as [Hlen|Hlen]; [|done].
  apply nonneg_div_count; [done|].
  assert (∀ sum, (num 0 <=? sum)%num = true →
            (num 0 <=? foldl (λ sum x, sum + abs x) sum window)%num = true) as H;
    [|by apply H].
  clear Hlen. induction Hwindow as [|x window Hx _ IH]; intros sum Hsum; [done|].
  simpl. apply IH. apply nonneg_add; [done|]. by apply nonneg_abs.
Qed.

(** C8, the claim as stated, fails: at a sample rate of 250 the claimed
    width is [round(2.5) = 3], the window centred at index 1 of
    [[0; 0; 3]] is the whole signal, with mean absolute value 1; the
    envelope entry is 0, the mean over the two samples the code's width
    [floor(2.5) = 2] gives. *)
Lemma envelope_width_is_floor_not_round :
  let audioData := [num 0; num 0; num 3] in
  spec_window_width 250 = 3
  ∧ spec_window audioData 3 1 = audioData
  ∧ mean_abs (spec_window audioData (spec_window_width 250) 1) = num 1
  ∧ calculateEnvelope (num 250) audioData !! 1%nat = Some (num 0).
Proof. cbv zeta. split_and!; vm_compute; reflexivity. Qed.

(** When the window size is odd the loop index is fractional, every read
    is [undefined], and the entries away from the left edge are NaN. *)
Example envelope_odd_window :
  calculateEnvelope (num 100) [num 1; num 1; num 1] = [num 1; NaN; NaN].
Proof. vm_compute. reflexivity. Qed.

(** C8 (as the code has it). The envelope has the length of the input.
    Its window size is [w = floor(sampleRate * 0.01)]; when [w] is even and
    no sample is NaN, entry [i] is the mean absolute value of the samples
    at the indices from [max(0, i - w/2)] up to, not including,
    [min(length, i + w/2)] (0 when there is none), and it is not negative. *)
Theorem calculateEnvelope_spec (sampleRate : number) (audioData : list number) :
  length (calculateEnvelope sampleRate audioData) = length audioData
  ∧ ∀ (r : Q) (h : Z),
      sampleRate = Finite r → Qfloor (r * 0.01) = 2 * h →
      Forall (λ x, x ≠ NaN) audioData →
      ∀ i, (i < length audioData)%nat →
        let window :=
          samples_between audioData
            (Z.max 0 (Z.of_nat i - h))
            (Z.min (Z.of_nat (length audioData)) (Z.of_nat i + h)) in
        calculateEnvelope sampleRate audioData !! i = Some (mean_abs window)
        ∧ (num 0 <=? mean_abs window)%num = true.
Proof.
  rewrite calculateEnvelope_unfold. split.
  - by rewrite length_fmap, length_seq.
  - intros r h -> Hfloor Hsamples i Hi window. split.
    + rewrite list_lookup_fmap, lookup_seq_lt by done.
      cbn [fmap option_fmap option_map Nat.add]. f_equal.
      assert (floor (Finite r * num 0.01)%num = of_Z (2 * h)) as ->.
      { unfold floor, mul, num, fin. f_equal. rewrite <- Hfloor.
        apply Qfloor_comp. rewrite !Qred_correct. done. }
      by apply envelope_at_even.
    + apply nonneg_mean_abs. unfold window, samples_between.
      by apply Forall_take, Forall_drop.
Qed.

Lemma calculateEnvelope_spec_witness :
  length (calculateEnvelope (num 400) sampleData) = length sampleData
  ∧ calculateEnvelope (num 400) sampleData !! 3%nat
    = Some (mean_abs (samples_between sampleData 1 5))
  ∧ (num 0 <=? mean_abs (samples_between sampleData 1 5))%num = true.
Proof.
  destruct (calculateEnvelope_spec (num 400) sampleData) as [Hlen Hwindow].
  split; [exact Hlen|].
  apply (Hwindow 400%Q 2 eq_refl eq_refl); [|apply Nat.lt_succ_r; repeat constructor].
  repeat constructor; discriminate.
Defined.

(** ** Harmonic Grouper *)

Lemma StronglySorted_lookup {A : Type} (R : A → A → Prop) (l : list A)
    (i j : nat) (x y : A) :
  StronglySorted R l → (i < j)%nat → l !! i = Some x → l !! j = Some y → R x y.
Proof.
  intros Hsorted. revert i j. induction Hsorted as [|z l _ IH Hz]; intros i j Hij Hx Hy.
  - done.
  - destruct j as [|j]; [lia|]. destruct i as [|i]; simpl in *.
    + injection Hx as <-. eapply Forall_lookup_1; [exact Hz|exact Hy].
    + eapply IH; [|exact Hx|exact Hy]. lia.
Qed.

Lemma elem_of_concat_lookup {A : Type} (ls : list (list A)) (k : nat) (l : list A) (x : A) :
  ls !! k = Some l → x ∈ l → x ∈ concat ls.
Proof.
  revert k. induction ls as [|l' ls IH]; intros k Hl Hx; [done|].
  simpl. apply elem_of_app. destruct k as [|k]; simpl in Hl.
  - injection Hl as ->. by left.
  - right. by eapply IH.
Qed.

Lemma NoDup_concat_disjoint {A : Type} (ls : list (list A)) (k1 k2 : nat)
    (l1 l2 : list A) (x : A) :
  NoDup (concat ls) → k1 ≠ k2 → ls !! k1 = Some l1 → ls !! k2 = Some l2 →
  x ∈ l1 → x ∉ l2.
Proof.
  revert k1 k2. induction ls as [|l ls IH]; intros k1 k2 Hnodup Hne H1 H2 Hx1 Hx2; [done|].
  simpl in Hnodup. apply NoDup_app in Hnodup as (_ & Hdisjoint & Hrest).
  assert (∀ k l', ls !! k = Some l' → x ∈ l' → x ∈ concat ls) as Hin
    by (intros k l'; apply elem_of_concat_lookup).
  destruct k1 as [|k1], k2 as [|k2]; simpl in *; [done|..].
  - injection H1 as <-. eapply Hdisjoint; [done|]. by eapply Hin.
  - injection H2 as <-. eapply Hdisjoint; [done|]. by eapply Hin.
  - eapply (IH k1 k2); eauto.
Qed.

Section GrouperFacts.
Context (features : list SpectralFeature).

(** A match is an unclaimed peak after position [i]. *)
Lemma best_match_inv (processed : gset nat) (i : nat) (targetFreq : number)
    (j : nat) (feature : SpectralFeature) :
  best_match features processed i targetFreq = Some (j, feature) →
  (i < j)%nat ∧ (j ∉ processed) ∧ features !! j = Some feature.
Proof.
  unfold best_match.
  loop_invariant (λ st : option member * number,
    ∀ j feature, st.1 = Some (j, feature) →
      (i < j)%nat ∧ (j ∉ processed) ∧ features !! j = Some feature).
  - done.
  - intros k [bestMatch minError] Hk IH j' feature' Hbest.
    destruct (bool_decide (k ∈ processed)) eqn:Hclaimed; [by apply IH|].
    apply bool_decide_eq_false in Hclaimed.
    destruct (features !! k) as [candidate|] eqn:Hcandidate; [|by apply IH].
    destruct (_ && _); [|by apply IH].
    simpl in Hbest. injection Hbest as <- <-. split_and!; [lia|done|done].
  - apply Hloop.
Qed.

(** The series collected from position [i]: the candidate first, then
    distinct, so far unclaimed peaks after position [i]; all of them are
    claimed afterwards. *)
Lemma collect_series_inv (i : nat) (candidate : SpectralFeature) (processed : gset nat) :
  ∃ rest,
    (collect_series features i candidate processed).1 = (i, candidate) :: rest
    ∧ Forall (λ m : member, (i < m.1)%nat ∧ (m.1 ∉ processed)
                            ∧ features !! m.1 = Some m.2) rest
    ∧ NoDup rest.*1
    ∧ (collect_series features i candidate processed).2
      = {[i]} ∪ list_to_set rest.*1 ∪ processed.
Proof.
  unfold collect_series.
  apply (for_range_ind (λ st, ∃ rest,
    st.1 = (i, candidate) :: rest
    ∧ Forall (λ m : member, (i < m.1)%nat ∧ (m.1 ∉ processed)
                            ∧ features !! m.1 = Some m.2) rest
    ∧ NoDup rest.*1
    ∧ st.2 = {[i]} ∪ list_to_set rest.*1 ∪ processed)).
  - exists []. split_and!; [done|constructor|constructor|].
    simpl. by rewrite (right_id_L ∅ (∪)).
  - intros harmonicNum [series claimed] _ (rest & Hseries & Hrest & Hnodup & Hclaimed).
    simpl in Hseries, Hclaimed. subst series claimed.
    destruct (best_match _ _ _ _) as [[j feature]|] eqn:Hbest.
    + apply best_match_inv in Hbest as (Hij & Hfresh & Hfeature).
      exists (rest ++ [(j, feature)]). simpl. split_and!.
      * done.
      * apply Forall_app. split; [done|]. constructor; [|constructor].
        simpl. split_and!; [done| |done].
        intros Hj. apply Hfresh. by apply elem_of_union_r.
      * rewrite fmap_app. apply NoDup_app. split_and!; [done| |apply NoDup_singleton].
        intros k Hk. simpl. rewrite list_elem_of_singleton. intros ->.
        apply Hfresh. apply elem_of_union_l, elem_of_union_r.
        by apply elem_of_list_to_set.
      * rewrite fmap_app, list_to_set_app_L. simpl.
        rewrite (right_id_L ∅ (∪)). apply set_eq. intros k.
        rewrite !elem_of_union. tauto.
    + exists rest. by split_and!.
Qed.

Lemma harmonic_groups_invariant :
  ∃ processed, groups_invariant features (harmonic_groups features) processed.
Proof.
  unfold harmonic_groups.
  loop_invariant (λ st : list (list member) * gset nat,
    groups_invariant features st.1 st.2); [| |by eexists].
  - split_and!; [constructor|constructor|]. intros j Hj. by apply elem_of_nil in Hj.
  - intros i [groups processed] _ (Hgroups & Hnodup & Hclaimed). cbn [fst snd] in *.
    destruct (bool_decide (i ∈ processed)) eqn:Hi; [done|].
    apply bool_decide_eq_false in Hi.
    destruct (features !! i) as [candidate|] eqn:Hcandidate; [|done].
    destruct (collect_series_inv i candidate processed)
      as (rest & Hseries & Hrest & Hdistinct & Hprocessed).
    destruct (collect_series features i candidate processed) as [series processed'].
    cbn [fst snd] in Hseries, Hprocessed. subst series processed'.
    destruct (3 <=? _)%nat; cbn [fst snd].
    + split_and!.
      * apply Forall_app. split; [done|]. constructor; [|constructor].
        exists i, candidate, rest. split_and!; [done|done|].
        eapply Forall_impl; [exact Hrest|]. by intros m (? & _ & ?).
      * unfold member_positions in *. rewrite fmap_app, concat_app. simpl. rewrite app_nil_r.
        apply NoDup_app. split_and!; [done| |].
        -- intros j Hj Hj'. apply Hclaimed in Hj.
           apply elem_of_cons in Hj' as [->|Hj']; [done|].
           apply list_elem_of_fmap in Hj' as (m & -> & Hm).
           eapply Forall_forall in Hrest as (_ & Hfresh & _); [|exact Hm]. done.
        -- apply NoDup_cons. split; [|done].
           intros Hin. apply list_elem_of_fmap in Hin as (m & Hm1 & Hm).
           eapply Forall_forall in Hrest as (Hlt & _); [|exact Hm]. lia.
      * intros j. unfold member_positions in *. rewrite fmap_app, concat_app. simpl. rewrite app_nil_r.
        rewrite elem_of_app. intros [Hj|Hj]; [apply Hclaimed in Hj; set_solver|].
        apply elem_of_cons in Hj as [->|Hj]; [set_solver|].
        apply elem_of_union_l, elem_of_union_r. by apply elem_of_list_to_set.
    + split_and!; [done|done|]. intros j Hj. apply Hclaimed in Hj. set_solver.
Qed.

Lemma make_series_cons (i : nat) (candidate : SpectralFeature) (rest : list member) :
  overtones (make_series ((i, candidate) :: rest)) = candidate :: rest.*2
  ∧ fundamental (make_series ((i, candidate) :: rest)) = frequency candidate.
Proof. done. Qed.
End GrouperFacts.

(** The series returned are those of [harmonic_groups], reordered. *)
Lemma detectHarmonics_perm (features : list SpectralFeature) :
  detectHarmonics features ≡ₚ make_series <$> harmonic_groups features.
Proof. unfold detectHarmonics. apply (array_sort_perm strength). Qed.

(** In a list in descending order of magnitude the candidate of a series
    is at least as strong as the members matched after it. *)
Lemma harmonic_groups_dominant (features : list SpectralFeature) :
  StronglySorted (descending magnitude) features →
  Forall (λ group, ∃ i candidate rest,
            group = (i, candidate) :: rest
            ∧ features !! i = Some candidate
            ∧ overtones (make_series group) = candidate :: rest.*2
            ∧ fundamental (make_series group) = frequency candidate
            ∧ Forall (λ m : member,
                        features !! m.1 = Some m.2
                        ∧ (magnitude candidate >=? magnitude m.2)%num = true)
                rest)
    (harmonic_groups features).
Proof.
  intros Hsorted.
  destruct (harmonic_groups_invariant features) as (processed & Hgroups & _).
  eapply Forall_impl; [exact Hgroups|].
  intros group (i & candidate & rest & -> & Hcandidate & Hrest).
  exists i, candidate, rest. split_and!; [done..|].
  eapply Forall_impl; [exact Hrest|]. intros [j feature] [Hij Hfeature].
  split; [done|]. simpl in *.
  exact (StronglySorted_lookup (descending magnitude) features i j candidate feature
           Hsorted Hij Hcandidate Hfeature).
Qed.

(** No position of the list belongs to two series. *)
Lemma harmonic_groups_disjoint (features : list SpectralFeature)
    (k1 k2 : nat) (positions1 positions2 : list nat) (j : nat) :
  k1 ≠ k2 →
  member_positions (harmonic_groups features) !! k1 = Some positions1 →
  member_positions (harmonic_groups features) !! k2 = Some positions2 →
  j ∈ positions1 → j ∉ positions2.
Proof.
  destruct (harmonic_groups_invariant features) as (processed & _ & Hnodup & _).
  by apply NoDup_concat_disjoint.
Qed.

(** C10. On a peak list in descending order of magnitude (as the Peak
    Detector returns it), the series the Harmonic Grouper returns are those
    of [harmonic_groups]; in each of them the first overtone is the
    candidate fundamental, a peak of the list whose magnitude is at least
    that of every other member, and no position of the list belongs to two
    different series. *)
Theorem detectHarmonics_series (features : list SpectralFeature) :
  StronglySorted (descending magnitude) features →
  let groups := harmonic_groups features in
  detectHarmonics features ≡ₚ make_series <$> groups
  ∧ Forall (λ group, ∃ i candidate rest,
              group = (i, candidate) :: rest
              ∧ features !! i = Some candidate
              ∧ overtones (make_series group) = candidate :: rest.*2
              ∧ fundamental (make_series group) = frequency candidate
              ∧ Forall (λ m : member,
                          features !! m.1 = Some m.2
                          ∧ (magnitude candidate >=? magnitude m.2)%num = true)
                  rest)
      groups
  ∧ ∀ k1 k2 positions1 positions2 j,
      k1 ≠ k2 →
      member_positions groups !! k1 = Some positions1 →
      member_positions groups !! k2 = Some positions2 →
      j ∈ positions1 → j ∉ positions2.
Proof.
  intros Hsorted groups. split_and!.
  - apply detectHarmonics_perm.
  - by apply harmonic_groups_dominant.
  - apply harmonic_groups_disjoint.
Qed.

(** The same in the analysis itself, where the grouper receives the list
    of [findPeaks]: the order of that list is not an assumption there. *)
Lemma detectHarmonics_of_findPeaks
    (settings : AnalysisSettings) (spectrum : list number) (sampleRate : number) :
  let features := findPeaks settings spectrum sampleRate in
  Forall (λ group, ∃ i candidate rest,
            group = (i, candidate) :: rest
            ∧ features !! i = Some candidate
            ∧ overtones (make_series group) = candidate :: rest.*2
            ∧ Forall (λ m : member,
                        features !! m.1 = Some m.2
                        ∧ (magnitude candidate >=? magnitude m.2)%num = true)
                rest)
    (harmonic_groups features).
Proof.
  intros features.
  eapply Forall_impl; [apply harmonic_groups_dominant, findPeaks_descending|].
  intros group (i & candidate & rest & ? & ? & ? & _ & ?). by exists i, candidate, rest.
Qed.

Lemma detectHarmonics_series_witness :
  let groups := harmonic_groups sampleFeatures in
  detectHarmonics sampleFeatures ≡ₚ make_series <$> groups
  ∧ Forall (λ group, ∃ i candidate rest,
              group = (i, candidate) :: rest
              ∧ sampleFeatures !! i = Some candidate
              ∧ overtones (make_series group) = candidate :: rest.*2
              ∧ fundamental (make_series group) = frequency candidate
              ∧ Forall (λ m : member,
                          sampleFeatures !! m.1 = Some m.2
                          ∧ (magnitude candidate >=? magnitude m.2)%num = true)
                  rest)
      groups
  ∧ ∀ k1 k2 positions1 positions2 j,
      k1 ≠ k2 →
      member_positions groups !! k1 = Some positions1 →
      member_positions groups !! k2 = Some positions2 →
      j ∈ positions1 → j ∉ positions2.
Proof.
  apply (detectHarmonics_series sampleFeatures).
  repeat (constructor; [|repeat (constructor; [reflexivity|])]); constructor.
Defined.

(** On [sampleFeatures] one series is kept: the peak at 100 Hz with those
    at 200, 300 and 900 Hz; the peak at 450 Hz is left alone.  The
    inharmonicity compares the member at position [k] with [k + 1] times
    the fundamental, so the ninth harmonic in fourth place counts as a
    deviation of 500 Hz from 400 Hz. *)
Example harmonic_groups_sample :
  member_positions (harmonic_groups sampleFeatures) = [[0; 1; 2; 4]%nat]
  ∧ fundamental <$> detectHarmonics sampleFeatures = [num 100]
  ∧ strength <$> detectHarmonics sampleFeatures = [num 13]
  ∧ inharmonicity <$> detectHarmonics sampleFeatures = [Finite (5 # 12)].
Proof. split_and!; vm_compute; reflexivity. Qed.

(** ** Spectrogram values *)

(** Every value of a frame is the normalized level of one magnitude of the
    frame's half spectrum. *)
Lemma spectrogram_frame_values
    (host : HostMath) (this : AudioProcessor) (audioData : list number) (frame : nat) :
  0 ≤ windowSize (settings this) → Z.even (windowSize (settings this)) = true →
  ∃ magnitude,
    length magnitude = Z.to_nat (windowSize (settings this) `div` 2)
    ∧ spectrogram_frame host this audioData frame
      = Return (normalized_db host <$> magnitude).
Proof.
  intros Hws Heven. unfold spectrogram_frame.
  rewrite new_Float32Array_nonneg, bind_Return by done.
  match goal with |- context [fft host ?signal] =>
    pose proof (fft_length host signal) as [Hreal _];
    assert (length signal = Z.to_nat (windowSize (settings this))) as Hsignal
      by (by rewrite for_range_fill_length || (apply for_range_ind;
            [by rewrite length_replicate|
             intros i w _ Hw; destruct (_ <? _); by rewrite ?length_insert]));
    destruct (fft host signal) as [real imag] end.
  simpl in Hreal. rewrite new_Array_half, bind_Return by done.
  exists (getMagnitudeSpectrum host real imag).
  assert (length (getMagnitudeSpectrum host real imag)
          = Z.to_nat (windowSize (settings this) `div` 2)) as Hlen.
  { rewrite getMagnitudeSpectrum_length, Hreal, Hsignal.
    rewrite Z2Nat.inj_div by lia. done. }
  split; [done|]. unfold mret, outcome_ret. f_equal.
  rewrite length_replicate.
  rewrite (for_range_fill (λ i, normalized_db host (get (getMagnitudeSpectrum host real imag) i)))
    by by rewrite length_replicate.
  rewrite <- Hlen. apply list_eq. intros i. rewrite !list_lookup_fmap.
  destruct (decide (i < length (getMagnitudeSpectrum host real imag))%nat) as [Hi|Hi].
  - rewrite lookup_seq_lt by done. simpl. unfold get.
    by destruct (lookup_lt_is_Some_2 _ _ Hi) as [x ->].
  - rewrite lookup_seq_ge by lia. by rewrite (proj2 (lookup_ge_None _ _)) by lia.
Qed.

(** C5. The normalization has no upper clamp: a magnitude above 1, whose
    decimal logarithm is positive, is stored as a value above 1. *)
Theorem normalized_db_above_one (host : HostMath) (m : Q) :
  (1 < m)%Q → (0 < host_log10 host m)%Q →
  (normalized_db host (Finite m) >? num 1)%num = true.
Proof.
  intros Hm Hlog. unfold normalized_db.
  assert (max (Finite m) (num 1e-10) = Finite m) as ->.
  { unfold max, num, fin.
    destruct (Finite m <? _)%num eqn:Hlt; [|done].
    apply lt_Finite in Hlt. rewrite Qred_correct in Hlt.
    assert (1e-10 < 1)%Q by reflexivity. lra. }
  unfold Math_log10.
  rewrite (Qeq_bool_false m 0), (Qeq_bool_false m 1) by lra.
  rewrite (proj2 (Qle_bool_iff 0 m)) by lra.
  set (L := host_log10 host m) in *.
  unfold num, mul, add, fin. unfold div.
  rewrite (Qeq_bool_false (Qred 100) 0) by (rewrite Qred_correct; lra).
  match goal with |- context [fin ?x] => set (v := x) end.
  assert (1 < v)%Q as Hv.
  { unfold v. rewrite !Qred_correct. apply Qlt_shift_div_l; lra. }
  unfold max, fin, gt.
  assert ((Finite (Qred 0) <? Finite (Qred v))%num = true) as ->.
  { apply lt_Finite. rewrite !Qred_correct. lra. }
  apply lt_Finite. rewrite !Qred_correct. lra.
Qed.

Lemma normalized_db_above_one_witness :
  (normalized_db coarseHost (Finite 10) >? num 1)%num = true.
Proof. apply normalized_db_above_one; reflexivity. Defined.

(** * Further properties of the code *)

(** ** Numbers and their rational values *)

Lemma denotes_Finite (q : Q) : denotes (Finite q) q.
Proof. by exists q. Qed.

Lemma denotes_fin (q : Q) : denotes (fin q) q.
Proof. exists (Qred q). split; [done|apply Qred_correct]. Qed.

Lemma denotes_num (q : Q) : denotes (num q) q.
Proof. apply denotes_fin. Qed.

Lemma denotes_of_Z (z : Z) : denotes (of_Z z) (inject_Z z).
Proof. by exists (inject_Z z). Qed.

Lemma denotes_of_nat (n : nat) : denotes (of_nat n) (inject_Z (Z.of_nat n)).
Proof. apply denotes_of_Z. Qed.

Lemma denotes_proper (x : number) (a b : Q) : (a == b)%Q → denotes x a → denotes x b.
Proof. intros Hab (q & -> & Hq). exists q. split; [done|]. by rewrite Hq. Qed.

Lemma denotes_add (x y : number) (a b : Q) :
  denotes x a → denotes y b → denotes (x + y)%num (a + b).
Proof.
  intros (a' & -> & Ha) (b' & -> & Hb). eapply denotes_proper; [|apply denotes_fin].
  by rewrite Ha, Hb.
Qed.

Lemma denotes_sub (x y : number) (a b : Q) :
  denotes x a → denotes y b → denotes (x - y)%num (a - b).
Proof.
  intros (a' & -> & Ha) (b' & -> & Hb). eapply denotes_proper; [|apply denotes_fin].
  by rewrite Ha, Hb.
Qed.

Lemma denotes_mul (x y : number) (a b : Q) :
  denotes x a → denotes y b → denotes (x * y)%num (a * b).
Proof.
  intros (a' & -> & Ha) (b' & -> & Hb). eapply denotes_proper; [|apply denotes_fin].
  by rewrite Ha, Hb.
Qed.

Lemma denotes_neg (x : number) (a : Q) : denotes x a → denotes (- x)%num (- a).
Proof.
  intros (a' & -> & Ha). eapply denotes_proper; [|apply denotes_fin]. by rewrite Ha.
Qed.

Lemma denotes_div (x y : number) (a b : Q) :
  denotes x a → denotes y b → ¬ (b == 0)%Q → denotes (x / y)%num (a / b).
Proof.
  intros (a' & -> & Ha) (b' & -> & Hb) Hne. unfold div.
  rewrite Qeq_bool_false by (by rewrite Hb).
  eapply denotes_proper; [|apply denotes_fin]. by rewrite Ha, Hb.
Qed.

Lemma denotes_abs (x : number) (a : Q) : denotes x a → denotes (abs x) (Qabs a).
Proof.
  intros (a' & -> & Ha). eapply denotes_proper; [|apply denotes_fin]. by rewrite Ha.
Qed.

Lemma denotes_lt (x y : number) (a b : Q) :
  denotes x a → denotes y b → (x <? y)%num = true ↔ (a < b)%Q.
Proof.
  intros (a' & -> & Ha) (b' & -> & Hb). rewrite lt_Finite. by rewrite Ha, Hb.
Qed.

Lemma denotes_le (x y : number) (a b : Q) :
  denotes x a → denotes y b → (x <=? y)%num = true ↔ (a <= b)%Q.
Proof.
  intros (a' & -> & Ha) (b' & -> & Hb). rewrite le_Finite. by rewrite Ha, Hb.
Qed.

Lemma denotes_lt_false (x y : number) (a b : Q) :
  denotes x a → denotes y b → (x <? y)%num = false ↔ (b <= a)%Q.
Proof.
  intros Hx Hy. pose proof (denotes_lt x y a b Hx Hy) as H.
  destruct (x <? y)%num.
  - split; [done|]. intros Hle. apply proj1 in H. specialize (H eq_refl). lra.
  - split; [|done]. intros _. destruct (Qlt_le_dec a b) as [Hlt|Hle]; [|done].
    apply H in Hlt. done.
Qed.

Lemma denotes_max (x y : number) (a b : Q) :
  denotes x a → denotes y b → denotes (max x y) (Qmax a b).
Proof.
  intros Hx Hy. pose proof (denotes_lt x y a b Hx Hy) as Hlt.
  pose proof (denotes_lt_false x y a b Hx Hy) as Hge.
  destruct Hx as (a' & -> & Ha), Hy as (b' & -> & Hb). unfold max.
  destruct (Finite a' <? Finite b')%num.
  - exists b'. split; [done|]. rewrite Hb. symmetry. apply Q.max_r.
    apply Qlt_le_weak. by apply Hlt.
  - exists a'. split; [done|]. rewrite Ha. symmetry. apply Q.max_l. by apply Hge.
Qed.

Lemma denotes_min (x y : number) (a b : Q) :
  denotes x a → denotes y b → denotes (min x y) (Qmin a b).
Proof.
  intros Hx Hy. pose proof (denotes_lt y x b a Hy Hx) as Hlt.
  pose proof (denotes_lt_false y x b a Hy Hx) as Hge.
  destruct Hx as (a' & -> & Ha), Hy as (b' & -> & Hb). unfold min.
  destruct (Finite b' <? Finite a')%num.
  - exists b'. split; [done|]. rewrite Hb. symmetry. apply Q.min_r.
    apply Qlt_le_weak. by apply Hlt.
  - exists a'. split; [done|]. rewrite Ha. symmetry. apply Q.min_l. by apply Hge.
Qed.

Lemma denotes_floor (x : number) (a : Q) : denotes x a → denotes (floor x) (inject_Z (Qfloor a)).
Proof.
  intros (a' & -> & Ha). exists (inject_Z (Qfloor a')). split; [done|]. by rewrite Ha.
Qed.

Lemma denotes_strict_ne (x y : number) (a b : Q) :
  denotes x a → denotes y b → strict_ne x y = true ↔ ¬ (a == b)%Q.
Proof.
  intros (a' & -> & Ha) (b' & -> & Hb). unfold strict_ne.
  rewrite negb_true_iff, <- Ha, <- Hb. split.
  - intros H Heq. apply Qeq_bool_iff in Heq. congruence.
  - apply Qeq_bool_false.
Qed.

Lemma denotes_inj (x : number) (a b : Q) : denotes x a → denotes x b → (a == b)%Q.
Proof. intros (a' & -> & Ha) (b' & [= <-] & Hb). by rewrite <- Ha, <- Hb. Qed.

Lemma denotes_strict_eq (x y : number) (q : Q) :
  denotes x q → denotes y q → strict_ne x y = false.
Proof.
  intros (a & -> & Ha) (b & -> & Hb). unfold strict_ne.
  apply negb_false_iff, Qeq_bool_iff. by rewrite Ha, Hb.
Qed.

Create HintDb denotes.
#[export] Hint Resolve denotes_Finite denotes_fin denotes_num denotes_of_Z denotes_of_nat
  denotes_add denotes_sub denotes_mul denotes_neg denotes_abs denotes_max denotes_min
  denotes_floor : denotes.

Lemma inject_Z_pos (z : Z) : 0 < z → (0 < inject_Z z)%Q.
Proof. intros Hz. change 0%Q with (inject_Z 0). by rewrite <- Zlt_Qlt. Qed.

Lemma inject_Z_nonneg (z : Z) : 0 ≤ z → (0 <= inject_Z z)%Q.
Proof. intros Hz. change 0%Q with (inject_Z 0). by rewrite <- Zle_Qle. Qed.

(** The width of a bin, for a finite sample rate. *)
Lemma bin_width_denotes (r : Q) (n : nat) :
  (0 < n)%nat →
  denotes (Finite r / (of_nat n * num 2))%num (r / (inject_Z (Z.of_nat n) * 2)).
Proof.
  intros Hn. apply denotes_div; eauto with denotes.
  assert (0 < inject_Z (Z.of_nat n))%Q by (apply inject_Z_pos; lia). lra.
Qed.

Lemma finite_num (q : Q) : finite (num q).
Proof. by exists (Qred q). Qed.

Lemma nonnegative_num (q : Q) : (0 <= q)%Q → nonnegative (num q).
Proof. intros Hq. exists (Qred q). split; [done|]. by rewrite Qred_correct. Qed.

Lemma finite_get (a : list number) (i : nat) :
  Forall finite a → (i < length a)%nat → ∃ q, get a i = Finite q.
Proof.
  intros Ha Hi. destruct (lookup_lt_is_Some_2 _ _ Hi) as [x Hx].
  unfold get. rewrite Hx. simpl.
  apply (proj1 (Forall_forall _ _) Ha x). by eapply list_elem_of_lookup_2.
Qed.

Lemma nonnegative_get (a : list number) (i : nat) :
  Forall nonnegative a → (i < length a)%nat → ∃ q, get a i = Finite q ∧ (0 <= q)%Q.
Proof.
  intros Ha Hi. destruct (lookup_lt_is_Some_2 _ _ Hi) as [x Hx].
  unfold get. rewrite Hx. simpl.
  apply (proj1 (Forall_forall _ _) Ha x). by eapply list_elem_of_lookup_2.
Qed.

Lemma finite_sampleData : Forall finite sampleData.
Proof. apply Forall_fmap, Forall_true. intros q. apply finite_num. Qed.

Lemma finite_two_peak_spectrum : Forall finite two_peak_spectrum.
Proof. apply Forall_fmap, Forall_true. intros q. apply finite_num. Qed.

Lemma max_cases (x y : number) :
  x ≠ NaN → y ≠ NaN →
  max x y ≠ NaN ∧ (x <=? max x y)%num = true ∧ (y <=? max x y)%num = true
  ∧ (max x y = x ∨ max x y = y).
Proof.
  intros Hx Hy. unfold max.
  assert ((if (x <? y)%num then y else x) ≠ NaN
          ∧ (x <=? (if (x <? y)%num then y else x))%num = true
          ∧ (y <=? (if (x <? y)%num then y else x))%num = true
          ∧ ((if (x <? y)%num then y else x) = x ∨ (if (x <? y)%num then y else x) = y)).
  { destruct (x <? y)%num eqn:Hlt.
    - split_and!; [done|by apply le_of_lt|by apply le_of_not_lt, lt_irrefl|by right].
    - split_and!; [done|by apply le_of_not_lt, lt_irrefl|by apply le_of_not_lt|by left]. }
  destruct x, y; done.
Qed.

Lemma abs_not_NaN (x : number) : x ≠ NaN → abs x ≠ NaN.
Proof. by destruct x. Qed.

(** ** Loops, with their counter *)

(** Induction over a counting loop with an invariant that mentions the
    counter. *)
Lemma for_range_ind_index {S : Type} (P : nat → S → Prop) (a b : nat)
    (body : nat → S → S) (s : S) :
  (a ≤ b)%nat → P a s →
  (∀ i s, (a ≤ i < b)%nat → P i s → P (Datatypes.S i) (body i s)) →
  P b (for_range a b body s).
Proof.
  intros Hab Hs Hstep. induction b as [|b IH].
  - assert (a = 0)%nat as -> by lia. by rewrite for_range_empty.
  - destruct (decide (a = Datatypes.S b)) as [->|Hne].
    + by rewrite for_range_empty.
    + rewrite for_range_snoc by lia. apply Hstep; [lia|]. apply IH; [lia|].
      intros i s' Hi. apply Hstep. lia.
Qed.

Lemma for_range_first {S : Type} (a b : nat) (body : nat → S → S) (s : S) :
  (a < b)%nat → for_range a b body s = for_range (Datatypes.S a) b body (body a s).
Proof.
  intros Hab. unfold for_range.
  replace (b - a)%nat with (Datatypes.S (b - Datatypes.S a)) by lia. done.
Qed.

(** A loop that fills the entries a guard selects of a zeroed array. *)
Lemma for_range_fill_guarded (f : nat → number) (guard : nat → bool) (n : nat) :
  for_range 0 n (λ i a, if guard i then <[i := f i]> a else a) (replicate n (num 0))
  = (λ i, if guard i then f i else num 0) <$> seq 0 n.
Proof.
  rewrite <- (for_range_fill (λ i, if guard i then f i else num 0) n (replicate n (num 0)))
    by by rewrite length_replicate.
  assert (∀ k, (k ≤ n)%nat →
    for_range 0 k (λ i a, if guard i then <[i := f i]> a else a) (replicate n (num 0))
    = for_range 0 k (λ i a, <[i := if guard i then f i else num 0]> a)
        (replicate n (num 0)) ∧
    ∀ i, (k ≤ i < n)%nat →
      for_range 0 k (λ i a, if guard i then <[i := f i]> a else a) (replicate n (num 0))
      !! i = Some (num 0)) as H; [|by apply H].
  induction k as [|k IH]; intros Hk.
  - rewrite !for_range_empty by lia. split; [done|].
    intros i Hi. by rewrite lookup_replicate_2 by lia.
  - destruct (IH ltac:(lia)) as [IH1 IH2]. rewrite !for_range_snoc by lia.
    rewrite <- IH1. destruct (guard k).
    + split; [done|]. intros i Hi. rewrite list_lookup_insert_ne by lia. apply IH2. lia.
    + split; [|intros i Hi; apply IH2; lia].
      symmetry. apply list_insert_id. apply IH2. lia.
Qed.

(** ** Induction over the loops of the transform, with the counter *)

Lemma for_doubling_ind_index {S : Type} (P : nat → S → Prop) (fuel len N : nat)
    (body : nat → S → S) (s : S) :
  (0 < len)%nat → (N < len * 2 ^ fuel)%nat →
  P len s →
  (∀ len s, (len ≤ N)%nat → P len s → P (2 * len)%nat (body len s)) →
  ∃ len', (N < len')%nat ∧ P len' (for_doubling fuel len N body s).
Proof.
  intros Hlen Hfuel Hs Hstep. revert len s Hlen Hfuel Hs.
  induction fuel as [|fuel IH]; intros len s Hlen Hfuel Hs.
  - exists len. simpl in *. split; [lia|done].
  - cbn [for_doubling]. destruct (Nat.leb_spec len N) as [Hle|Hgt].
    + apply IH; [lia| |by apply Hstep].
      rewrite Nat.pow_succ_r' in Hfuel. lia.
    + by exists len.
Qed.

Lemma for_stride_ind_index {S : Type} (P : nat → S → Prop) (fuel i stop step : nat)
    (body : nat → S → S) (s : S) :
  (0 < step)%nat → (stop ≤ i + fuel * step)%nat →
  P i s →
  (∀ i s, (i < stop)%nat → P i s → P (i + step)%nat (body i s)) →
  ∃ i', (stop ≤ i')%nat ∧ P i' (for_stride fuel i stop step body s).
Proof.
  intros Hstep Hfuel Hs Hbody. revert i s Hfuel Hs.
  induction fuel as [|fuel IH]; intros i s Hfuel Hs.
  - exists i. simpl in *. split; [lia|done].
  - cbn [for_stride]. destruct (Nat.ltb_spec i stop) as [Hlt|Hge].
    + apply IH; [lia|by apply Hbody].
    + by exists i.
Qed.

(** ** Peak Detector: refinement, threshold and phase *)

(** At a peak of finite values the vertex of the parabola through the bin
    and its two neighbours is less than half a bin away. *)
Lemma peak_frequency_within_half_bin (spectrum : list number) (fr : Q) (i : nat)
    (threshold : number) :
  Forall finite spectrum → (0 < fr)%Q → (1 ≤ i)%nat → (i + 1 < length spectrum)%nat →
  is_peak spectrum threshold i = true →
  ∃ off, (- (1 # 2) < off)%Q ∧ (off < 1 # 2)%Q
         ∧ denotes (peak_frequency spectrum (Finite fr) i)
             ((inject_Z (Z.of_nat i) + off) * fr).
Proof.
  intros Hfin Hfr Hi1 Hi2 Hpeak. unfold is_peak in Hpeak.
  rewrite !andb_true_iff in Hpeak. destruct Hpeak as [[[[_ H1] H3] _] _].
  unfold peak_frequency.
  destruct (finite_get spectrum (i - 1) Hfin) as [y1 Hy1]; [lia|].
  destruct (finite_get spectrum i Hfin) as [y2 Hy2]; [lia|].
  destruct (finite_get spectrum (i + 1) Hfin) as [y3 Hy3]; [lia|].
  rewrite Hy1, Hy2, Hy3 in *. unfold gt in H1, H3.
  apply lt_Finite in H1, H3.
  assert (¬ (2 == 0)%Q) as H2 by done.
  assert (denotes ((Finite y1 - num 2 * Finite y2 + Finite y3) / num 2)%num
            ((y1 - 2 * y2 + y3) / 2)) as Ha by (apply denotes_div; eauto with denotes).
  assert (denotes ((Finite y3 - Finite y1) / num 2)%num ((y3 - y1) / 2)) as Hb
    by (apply denotes_div; eauto with denotes).
  set (a := ((Finite y1 - num 2 * Finite y2 + Finite y3) / num 2)%num) in *.
  set (b := ((Finite y3 - Finite y1) / num 2)%num) in *.
  set (qa := ((y1 - 2 * y2 + y3) / 2)%Q) in *.
  set (qb := ((y3 - y1) / 2)%Q) in *.
  assert (qa < 0)%Q as Hqa.
  { unfold qa. apply Qlt_shift_div_r; lra. }
  assert (strict_ne a (num 0) = true) as ->.
  { apply (denotes_strict_ne a (num 0) qa 0); [done|apply denotes_num|lra]. }
  set (off := (- qb / (2 * qa))%Q).
  assert (denotes (- b / (num 2 * a))%num off) as Hoff.
  { apply denotes_div; eauto with denotes. lra. }
  assert (- (1 # 2) < off ∧ off < 1 # 2)%Q as [Hlo Hhi].
  { unfold off. 
    assert (- qb / (2 * qa) == qb / (2 * - qa))%Q as -> by (field; lra).
    split.
    - apply Qlt_shift_div_l; [lra|]. unfold qb, qa.
      assert ((y1 - 2 * y2 + y3) / 2 == (y1 - 2 * y2 + y3) * (1 # 2))%Q as -> by (field).
      assert ((y3 - y1) / 2 == (y3 - y1) * (1 # 2))%Q as -> by field. lra.
    - apply Qlt_shift_div_r; [lra|]. unfold qb, qa.
      assert ((y1 - 2 * y2 + y3) / 2 == (y1 - 2 * y2 + y3) * (1 # 2))%Q as -> by (field).
      assert ((y3 - y1) / 2 == (y3 - y1) * (1 # 2))%Q as -> by field. lra. }
  exists off. split_and!; [done|done|].
  assert (denotes (max (num (-1)) (min (num 1) (- b / (num 2 * a))%num)) off) as Hclamp.
  { eapply denotes_proper; [|eauto with denotes].
    rewrite Q.min_r by lra. rewrite Q.max_r by lra. done. }
  eauto with denotes.
Qed.

(** X1. On a spectrum of finite values, at a finite positive sample rate,
    every feature the Peak Detector returns reports the magnitude of a bin
    [i], and its refined frequency lies strictly within half a bin width
    of that bin's frequency [i * freqResolution]. *)
Theorem findPeaks_within_half_bin
    (settings : AnalysisSettings) (spectrum : list number) (r : Q) :
  let freqResolution := (Finite r / (of_nat (length spectrum) * num 2))%num in
  Forall finite spectrum → (0 < r)%Q →
  Forall (λ f, ∃ i, (2 ≤ i < length spectrum - 2)%nat
                    ∧ magnitude f = get spectrum i
                    ∧ ((of_nat i - num 0.5) * freqResolution <? frequency f)%num = true
                    ∧ (frequency f <? (of_nat i + num 0.5) * freqResolution)%num = true)
    (findPeaks settings spectrum (Finite r)).
Proof.
  intros freqResolution Hfinite Hr. apply Forall_forall. intros f Hf.
  apply findPeaks_inv in Hf as (i & Hi & Hf).
  apply feature_at_inv in Hf as (Hpeak & _ & _ & Hfrequency & Hmagnitude & _).
  exists i. split_and!; [lia|lia|done|..].
  all: fold freqResolution in Hfrequency; rewrite Hfrequency.
  all: destruct (bin_width_denotes r (length spectrum) ltac:(lia)) as (w & Hw & Hwidth).
  all: fold freqResolution in Hw; rewrite Hw.
  all: assert (0 < w)%Q as Hpos
         by (rewrite Hwidth; apply Qlt_shift_div_l;
             [pose proof (inject_Z_pos (Z.of_nat (length spectrum)) ltac:(lia))|]; lra).
  all: destruct (peak_frequency_within_half_bin spectrum w i _ Hfinite Hpos
                   ltac:(lia) ltac:(lia) Hpeak) as (off & Hlo & Hhi & Hvalue).
  - assert (denotes ((of_nat i - num 0.5) * Finite w)%num
              ((inject_Z (Z.of_nat i) - (1 # 2)) * w)) as Hbound by eauto with denotes.
    apply (proj2 (denotes_lt _ _ _ _ Hbound Hvalue)). nra.
  - assert (denotes ((of_nat i + num 0.5) * Finite w)%num
              ((inject_Z (Z.of_nat i) + (1 # 2)) * w)) as Hbound by eauto with denotes.
    apply (proj2 (denotes_lt _ _ _ _ Hvalue Hbound)). nra.
Qed.

Lemma findPeaks_within_half_bin_witness :
  Forall (λ f, ∃ i, (2 ≤ i < length two_peak_spectrum - 2)%nat
                    ∧ magnitude f = get two_peak_spectrum i
                    ∧ ((of_nat i - num 0.5)
                       * (Finite 1600 / (of_nat (length two_peak_spectrum) * num 2))
                       <? frequency f)%num = true
                    ∧ (frequency f
                       <? (of_nat i + num 0.5)
                          * (Finite 1600 / (of_nat (length two_peak_spectrum) * num 2)))%num
                      = true)
    (findPeaks defaultSettings two_peak_spectrum (Finite 1600)).
Proof.
  apply (findPeaks_within_half_bin defaultSettings two_peak_spectrum 1600);
    [exact finite_two_peak_spectrum|reflexivity].
Defined.

(** X2. Every feature the Peak Detector returns has phase 0 and a
    magnitude strictly above the detection threshold, the largest magnitude
    of the spectrum times [harmonicThreshold]. *)
Theorem findPeaks_threshold_and_phase
    (settings : AnalysisSettings) (spectrum : list number) (sampleRate : number) :
  Forall (λ f, phase f = num 0
               ∧ (magnitude f >? max_list spectrum * harmonicThreshold settings)%num = true)
    (findPeaks settings spectrum sampleRate).
Proof.
  apply Forall_forall. intros f Hf.
  apply findPeaks_inv in Hf as (i & _ & Hf).
  pose proof (feature_at_inv _ _ _ _ _ Hf) as (Hpeak & _ & _ & _ & -> & _).
  split.
  - unfold feature_at in Hf. destruct (is_peak _ _ _); [|done].
    destruct (_ && _); [|done]. by injection Hf as <-.
  - unfold is_peak in Hpeak. rewrite !andb_true_iff in Hpeak. by destruct Hpeak as [[[[? _] _] _] _].
Qed.

(** ** Harmonic Grouper: the members of a series *)

Section GrouperMore.
Context (features : list SpectralFeature).

(** A match is within 2 % of its target frequency. *)
Lemma best_match_tolerance (processed : gset nat) (i : nat) (targetFreq : number)
    (j : nat) (feature : SpectralFeature) :
  best_match features processed i targetFreq = Some (j, feature) →
  (harmonic_error (frequency feature) targetFreq <? num 0.02)%num = true.
Proof.
  unfold best_match.
  loop_invariant (λ st : option member * number,
    ∀ j feature, st.1 = Some (j, feature) →
      (harmonic_error (frequency feature) targetFreq <? num 0.02)%num = true).
  - done.
  - intros k [bestMatch minError] Hk IH j' feature' Hbest.
    destruct (bool_decide (k ∈ processed)); [by eapply IH|].
    destruct (features !! k) as [candidate|]; [|by eapply IH].
    destruct (_ && _) eqn:Htest; [|by eapply IH].
    simpl in Hbest. injection Hbest as <- <-.
    by apply andb_true_iff in Htest as [? _].
  - exact (Hloop j feature).
Qed.

(** The members collected after the candidate: at most one for each of
    the harmonic numbers 2 to 20, each within 2 % of that multiple of the
    candidate's frequency. *)
Lemma collect_series_harmonics (i : nat) (candidate : SpectralFeature)
    (processed : gset nat) :
  ∃ rest,
    (collect_series features i candidate processed).1 = (i, candidate) :: rest
    ∧ (length rest ≤ 19)%nat
    ∧ Forall (λ m : member, ∃ harmonicNum,
                (2 ≤ harmonicNum ≤ 20)%nat
                ∧ (harmonic_error (frequency m.2)
                     (frequency candidate * of_nat harmonicNum) <? num 0.02)%num = true)
        rest.
Proof.
  unfold collect_series.
  pose (P := λ (n : nat) (st : list member * gset nat), ∃ rest,
    st.1 = (i, candidate) :: rest
    ∧ (length rest + 2 ≤ n)%nat
    ∧ Forall (λ m : member, ∃ harmonicNum,
                (2 ≤ harmonicNum ≤ 20)%nat
                ∧ (harmonic_error (frequency m.2)
                     (frequency candidate * of_nat harmonicNum) <? num 0.02)%num = true)
        rest).
  match goal with |- context [for_range 2 21 ?body ?s] =>
    assert (P 21%nat (for_range 2 21 body s)) as (rest & ? & ? & ?) end.
  { apply for_range_ind_index; [lia| |].
    - exists []. split_and!; [done|simpl; lia|constructor].
    - intros n [series claimed] Hn (rest & Hseries & Hlen & Hrest).
      simpl in Hseries. subst series.
      destruct (best_match _ _ _ _) as [[j feature]|] eqn:Hbest.
      + apply best_match_tolerance in Hbest.
        exists (rest ++ [(j, feature)]). split_and!; [done|rewrite length_app; simpl; lia|].
        apply Forall_app. split; [done|]. constructor; [|constructor].
        exists n. split; [lia|done].
      + exists rest. split_and!; [done|lia|done]. }
  exists rest. split_and!; [done|lia|done].
Qed.

(** Every series kept has at least three and at most twenty members. *)
Lemma harmonic_groups_harmonics :
  Forall (λ group, ∃ i candidate rest,
            group = (i, candidate) :: rest
            ∧ (2 ≤ length rest ≤ 19)%nat
            ∧ Forall (λ m : member, ∃ harmonicNum,
                        (2 ≤ harmonicNum ≤ 20)%nat
                        ∧ (harmonic_error (frequency m.2)
                             (frequency candidate * of_nat harmonicNum) <? num 0.02)%num
                          = true)
                rest)
    (harmonic_groups features).
Proof.
  unfold harmonic_groups.
  loop_invariant (λ st : list (list member) * gset nat,
    Forall (λ group, ∃ i candidate rest,
              group = (i, candidate) :: rest
              ∧ (2 ≤ length rest ≤ 19)%nat
              ∧ Forall (λ m : member, ∃ harmonicNum,
                          (2 ≤ harmonicNum ≤ 20)%nat
                          ∧ (harmonic_error (frequency m.2)
                               (frequency candidate * of_nat harmonicNum) <? num 0.02)%num
                            = true)
                  rest) st.1); [| |done].
  - constructor.
  - intros i [groups processed] _ Hgroups. cbn [fst snd] in *.
    destruct (bool_decide (i ∈ processed)); [done|].
    destruct (features !! i) as [candidate|]; [|done].
    destruct (collect_series_harmonics i candidate processed)
      as (rest & Hseries & Hlen & Hrest).
    destruct (collect_series features i candidate processed) as [series processed'].
    cbn [fst snd] in Hseries. subst series.
    destruct (3 <=? _)%nat eqn:Hkept; cbn [fst snd]; [|done].
    apply Nat.leb_le in Hkept. simpl in Hkept.
    apply Forall_app. split; [done|]. constructor; [|constructor].
    exists i, candidate, rest. unfold member in *. split_and!; [done|lia|lia|done].
Qed.

End GrouperMore.

(** A sum of magnitudes none of which is NaN or minus infinity is
    neither. *)
Lemma strength_not_NaN (series : list SpectralFeature) (sum : number) :
  sum ≠ NaN → sum ≠ NegInf →
  Forall (λ s, magnitude s ≠ NaN ∧ magnitude s ≠ NegInf) series →
  foldl (λ sum s, sum + magnitude s)%num sum series ≠ NaN.
Proof.
  intros Hnan Hinf Hseries. revert sum Hnan Hinf.
  induction Hseries as [|s series [Hs1 Hs2] _ IH]; intros sum Hnan Hinf; [done|].
  simpl. apply IH.
  - destruct sum, (magnitude s); done.
  - destruct sum, (magnitude s); done.
Qed.

(** The magnitude of a detected peak is above a threshold: it is neither
    NaN nor minus infinity. *)
Lemma findPeaks_magnitude (settings : AnalysisSettings) (spectrum : list number)
    (sampleRate : number) :
  Forall (λ f, magnitude f ≠ NaN ∧ magnitude f ≠ NegInf)
    (findPeaks settings spectrum sampleRate).
Proof.
  apply Forall_forall. intros f Hf.
  apply findPeaks_inv in Hf as (i & _ & Hf).
  apply feature_at_inv in Hf as (Hpeak & _ & _ & _ & -> & _).
  unfold is_peak in Hpeak. rewrite !andb_true_iff in Hpeak.
  destruct Hpeak as [[[[Hpeak _] _] _] _]. unfold gt in Hpeak.
  destruct (get spectrum i), (max_list spectrum * harmonicThreshold settings)%num; done.
Qed.

(** The series are returned in descending order of strength. *)
Lemma detectHarmonics_descending (features : list SpectralFeature) :
  Forall (λ f, magnitude f ≠ NaN ∧ magnitude f ≠ NegInf) features →
  StronglySorted (descending strength) (detectHarmonics features).
Proof.
  intros Hfeatures. unfold detectHarmonics.
  apply (array_sort_sorted strength). apply Forall_fmap, Forall_forall.
  intros group Hgroup. simpl.
  destruct (harmonic_groups_invariant features) as (processed & Hgroups & _).
  eapply Forall_forall in Hgroups as (i & candidate & rest & -> & Hcandidate & Hrest);
    [|exact Hgroup].
  unfold make_series. cbn [fmap list_fmap snd strength].
  apply (strength_not_NaN (candidate :: rest.*2) (num 0)); [done|done|].
  apply Forall_cons. split; [|apply Forall_fmap].
  - simpl. eapply Forall_forall in Hfeatures; [exact Hfeatures|].
    by eapply list_elem_of_lookup_2.
  - eapply Forall_impl; [exact Hrest|]. intros m [_ Hm]. simpl.
    eapply Forall_forall in Hfeatures; [exact Hfeatures|].
    by eapply list_elem_of_lookup_2.
Qed.

(** X3. Every series the Harmonic Grouper returns has between 3 and 20
    members: a first one, whose frequency is the fundamental of the
    series, and 2 to 19 more, each within 2 % of an integer multiple, from
    2 to 20 times, of the fundamental; the strength of the series is the
    sum of the magnitudes of its members. *)
Theorem detectHarmonics_members (features : list SpectralFeature) :
  Forall (λ h, ∃ candidate rest,
            overtones h = candidate :: rest
            ∧ fundamental h = frequency candidate
            ∧ (2 ≤ length rest ≤ 19)%nat
            ∧ strength h = foldl (λ sum s, sum + magnitude s)%num (num 0) (overtones h)
            ∧ Forall (λ s, ∃ harmonicNum,
                        (2 ≤ harmonicNum ≤ 20)%nat
                        ∧ (harmonic_error (frequency s)
                             (fundamental h * of_nat harmonicNum) <? num 0.02)%num = true)
                rest)
    (detectHarmonics features).
Proof.
  rewrite detectHarmonics_perm. apply Forall_fmap.
  eapply Forall_impl; [apply harmonic_groups_harmonics|].
  intros group (i & candidate & rest & -> & Hlen & Hrest). simpl.
  exists candidate, rest.*2. split_and!; [done|done|rewrite length_fmap; lia..|done|].
  by apply Forall_fmap.
Qed.

(** The mean relative deviation of a series of finite frequencies from
    the multiples of a positive fundamental is finite and not negative. *)
Lemma series_inharmonicity_nonnegative (fundamental : SpectralFeature)
    (series : list SpectralFeature) :
  positive (frequency fundamental) → Forall (λ s, finite (frequency s)) series →
  (2 ≤ length series)%nat →
  nonnegative (series_inharmonicity fundamental series).
Proof.
  intros (f0 & Hf0 & Hpos) Hseries Hlen. unfold series_inharmonicity. rewrite Hf0.
  loop_invariant (λ total : number, ∃ t, denotes total t ∧ (0 <= t)%Q).
  - exists 0%Q. split; [apply denotes_num|lra].
  - intros k total Hk (t & Ht & Ht0).
    destruct (lookup_lt_is_Some_2 series k ltac:(lia)) as [s Hs]. rewrite Hs.
    destruct (proj1 (Forall_forall _ _) Hseries s) as [a Ha];
      [by eapply list_elem_of_lookup_2|]. rewrite Ha.
    set (e := (f0 * inject_Z (Z.of_nat (k + 1)))%Q).
    assert (0 < e)%Q as He.
    { unfold e. pose proof (inject_Z_pos (Z.of_nat (k + 1)) ltac:(lia)). nra. }
    exists (t + Qabs (a - e) / e)%Q. split.
    + apply denotes_add; [done|]. apply denotes_div; [|unfold e; eauto with denotes|lra].
      unfold e. eauto with denotes.
    + pose proof (Qabs_nonneg (a - e)).
      assert (0 <= Qabs (a - e) / e)%Q by (apply Qle_shift_div_l; lra). lra.
  - destruct Hloop as (t & Ht & Ht0).
    set (n := inject_Z (Z.of_nat (length series - 1))).
    assert (0 < n)%Q as Hn by (apply inject_Z_pos; lia).
    destruct (denotes_div _ (of_nat (length series - 1)) t n Ht (denotes_of_nat _))
      as (q & -> & Hq); [lra|].
    exists q. split; [done|]. rewrite Hq. apply Qle_shift_div_l; lra.
Qed.

(** X4. When the frequencies of the peaks are finite and above zero, the
    inharmonicity of every series the Harmonic Grouper returns is a finite
    number and not negative. *)
Theorem detectHarmonics_inharmonicity (features : list SpectralFeature) :
  Forall (λ f, positive (frequency f)) features →
  Forall (λ h, nonnegative (inharmonicity h)) (detectHarmonics features).
Proof.
  intros Hfeatures. rewrite detectHarmonics_perm. apply Forall_fmap, Forall_forall.
  intros group Hgroup. unfold compose.
  destruct (harmonic_groups_invariant features) as (processed & Hgroups & _).
  pose proof (proj1 (Forall_forall _ _) Hgroups _ Hgroup)
    as (i & candidate & rest & -> & Hcandidate & Hrest).
  pose proof (harmonic_groups_harmonics features) as Hsizes.
  pose proof (proj1 (Forall_forall _ _) Hsizes _ Hgroup)
    as (i' & candidate' & rest' & Heq & Hlen & _).
  injection Heq as <- <- <-.
  unfold make_series. cbn [fmap list_fmap snd inharmonicity].
  assert (∀ j g, features !! j = Some g → positive (frequency g)) as Hpositive.
  { intros j g Hg. eapply Forall_forall in Hfeatures; [exact Hfeatures|].
    by eapply list_elem_of_lookup_2. }
  apply series_inharmonicity_nonnegative.
  - by eapply Hpositive.
  - constructor.
    + destruct (Hpositive i candidate Hcandidate) as (q & -> & _). by exists q.
    + apply Forall_fmap. eapply Forall_impl; [exact Hrest|].
      intros [j g] [_ Hg]. simpl in *.
      destruct (Hpositive j g Hg) as (q & -> & _). by exists q.
  - simpl. rewrite length_fmap. unfold member in *. lia.
Qed.

Lemma detectHarmonics_inharmonicity_witness :
  Forall (λ h, nonnegative (inharmonicity h)) (detectHarmonics sampleFeatures).
Proof.
  apply detectHarmonics_inharmonicity.
  repeat (constructor; [by eexists|]). constructor.
Defined.

(** ** Spectral statistics: centroid and rolloff *)

(** The centroid is a weighted mean of bin frequencies. *)
Lemma calculateSpectralCentroid_bounds (spectrum : list number) (r : Q) :
  Forall nonnegative spectrum → (0 <= r)%Q →
  ∃ c, denotes (calculateSpectralCentroid spectrum (Finite r)) c
       ∧ (0 <= c)%Q ∧ (c <= r / 2)%Q.
Proof.
  intros Hspectrum Hr. unfold calculateSpectralCentroid.
  destruct (decide (length spectrum = 0)%nat) as [Hempty|Hlen].
  { rewrite Hempty. rewrite for_range_empty by lia.
    exists 0%Q. split_and!; [apply denotes_num|lra|].
    apply Qle_shift_div_l; lra. }
  pose proof (bin_width_denotes r (length spectrum) ltac:(lia)) as Hwidth.
  set (freqResolution := (Finite r / (of_nat (length spectrum) * num 2))%num) in *.
  set (n := inject_Z (Z.of_nat (length spectrum))) in *.
  assert (0 < n)%Q as Hn by (apply inject_Z_pos; lia).
  loop_invariant (λ st : number * number, ∃ w s,
    denotes st.1 w ∧ denotes st.2 s ∧ (0 <= w)%Q ∧ (0 <= s)%Q ∧ (w <= r / 2 * s)%Q).
  - exists 0%Q, 0%Q. split_and!; [apply denotes_num|apply denotes_num|lra..].
  - intros i [weightedSum magnitudeSum] Hi (w & s & Hw & Hs & Hw0 & Hs0 & Hws).
    cbn [fst snd] in *.
    destruct (nonnegative_get spectrum i Hspectrum) as (m & -> & Hm); [lia|].
    set (k := inject_Z (Z.of_nat i)).
    assert (0 <= k ∧ k <= n)%Q as [Hk0 Hkn].
    { split; [apply inject_Z_nonneg; lia|]. unfold k, n. rewrite <- Zle_Qle. lia. }
    exists (w + k * (r / (n * 2)) * m)%Q, (s + m)%Q.
    assert (0 <= k * (r / (n * 2)) ∧ k * (r / (n * 2)) <= r / 2)%Q as [Hf0 Hf1].
    { assert (k * (r / (n * 2)) == (r / 2) * (k / n))%Q as -> by (field; lra).
      assert (0 <= k / n ∧ k / n <= 1)%Q as [? ?].
      { split; [apply Qle_shift_div_l; lra|apply Qle_shift_div_r; lra]. }
      assert (0 <= r / 2)%Q by (apply Qle_shift_div_l; lra).
      split; nra. }
    split_and!; [unfold k; eauto with denotes..| | |].
    + assert (0 <= k * (r / (n * 2)) * m)%Q by nra. lra.
    + lra.
    + assert (k * (r / (n * 2)) * m <= r / 2 * m)%Q by nra. lra.
  - destruct (for_range _ _ _ _) as [weightedSum magnitudeSum].
    destruct Hloop as (w & s & Hw & Hs & Hw0 & Hs0 & Hws). cbn [fst snd] in *.
    destruct (magnitudeSum >? num 0)%num eqn:Hpositive.
    + unfold gt in Hpositive.
      apply (denotes_lt (num 0) magnitudeSum 0 s) in Hpositive; [|apply denotes_num|done].
      exists (w / s)%Q. split_and!.
      * apply denotes_div; [done|done|lra].
      * apply Qle_shift_div_l; lra.
      * apply Qle_shift_div_r; lra.
    + exists 0%Q. split_and!; [apply denotes_num|lra|].
      apply Qle_shift_div_l; lra.
Qed.

(** X5. On a spectrum of finite magnitudes none of which is negative, at
    a finite sample rate that is not negative, the spectral centroid is
    between 0 and half the sample rate; it is 0, not a division by zero,
    when the magnitudes sum to 0. *)
Theorem calculateSpectralCentroid_range (spectrum : list number) (r : Q) :
  Forall nonnegative spectrum → (0 <= r)%Q →
  (num 0 <=? calculateSpectralCentroid spectrum (Finite r))%num = true
  ∧ (calculateSpectralCentroid spectrum (Finite r) <=? Finite r / num 2)%num = true.
Proof.
  intros Hspectrum Hr.
  destruct (calculateSpectralCentroid_bounds spectrum r Hspectrum Hr) as (c & Hc & H0 & H1).
  split.
  - by apply (denotes_le _ _ 0 c (denotes_num _) Hc).
  - apply (denotes_le _ _ c (r / 2) Hc); [|done].
    apply denotes_div; [apply denotes_Finite|apply denotes_num|done].
Qed.

Lemma calculateSpectralCentroid_range_witness :
  (num 0 <=? calculateSpectralCentroid two_peak_spectrum (Finite 1600))%num = true
  ∧ (calculateSpectralCentroid two_peak_spectrum (Finite 1600) <=? Finite 1600 / num 2)%num
    = true.
Proof.
  apply (calculateSpectralCentroid_range two_peak_spectrum 1600); [|discriminate].
  apply Forall_fmap. repeat (constructor; [apply nonnegative_num; discriminate|]).
  constructor.
Defined.

(** On a spectrum of zeros and NaN the centroid is 0. *)
Lemma calculateSpectralCentroid_silent (spectrum : list number) (sampleRate : number) :
  Forall silent spectrum → calculateSpectralCentroid spectrum sampleRate = num 0.
Proof.
  intros Hsilent. unfold calculateSpectralCentroid.
  loop_invariant (λ st : number * number, silent st.2).
  - by left.
  - intros i [weightedSum magnitudeSum] _ Hsum. cbn [snd] in *. auto with silent.
  - destruct (for_range _ _ _ _) as [weightedSum magnitudeSum]. cbn [snd] in *.
    unfold gt. rewrite silent_not_lt; [done|by left|done].
Qed.

Lemma spectral_energy_snoc (bins : list number) (x : number) :
  spectral_energy (bins ++ [x]) = (spectral_energy bins + x * x)%num.
Proof. unfold spectral_energy. by rewrite foldl_app. Qed.

Lemma spectral_energy_take (spectrum : list number) (i : nat) :
  (i < length spectrum)%nat →
  spectral_energy (take (S i) spectrum)
  = (spectral_energy (take i spectrum) + get spectrum i * get spectrum i)%num.
Proof.
  intros Hi. destruct (lookup_lt_is_Some_2 _ _ Hi) as [x Hx].
  rewrite (take_S_r _ _ x), spectral_energy_snoc by done.
  unfold get. by rewrite Hx.
Qed.

(** The first bin of the scanned range at which the cumulative energy
    reaches the threshold decides the rolloff. *)
Lemma rolloff_scan_seq (spectrum : list number) (threshold fr : number) (a n : nat) :
  (a + n ≤ length spectrum)%nat →
  (∃ i, (a ≤ i < a + n)%nat
        ∧ (spectral_energy (take (S i) spectrum) >=? threshold)%num = true
        ∧ (∀ i', (a ≤ i' < i)%nat →
             (spectral_energy (take (S i') spectrum) >=? threshold)%num = false)
        ∧ rolloff_scan (seq a n) spectrum threshold fr (spectral_energy (take a spectrum))
          = (of_nat i * fr)%num)
  ∨ ((∀ i, (a ≤ i < a + n)%nat →
        (spectral_energy (take (S i) spectrum) >=? threshold)%num = false)
     ∧ rolloff_scan (seq a n) spectrum threshold fr (spectral_energy (take a spectrum))
       = (of_Z (Z.of_nat (length spectrum) - 1) * fr)%num).
Proof.
  revert a. induction n as [|n IH]; intros a Ha; cbn [seq rolloff_scan].
  - right. split; [intros i Hi; lia|done].
  - rewrite <- spectral_energy_take by lia.
    destruct (spectral_energy (take (S a) spectrum) >=? threshold)%num eqn:Hreached.
    + left. exists a. split_and!; [lia|lia|done| |done]. intros i' Hi'. lia.
    + destruct (IH (S a)) as [(i & Hi & Hyes & Hmin & Hres)|[Hnone Hres]]; [lia|..].
      * left. exists i. split_and!; [lia|lia|done| |done].
        intros i' Hi'. destruct (decide (i' = a)) as [->|Hne]; [done|].
        apply Hmin. lia.
      * right. split; [|done]. intros i Hi.
        destruct (decide (i = a)) as [->|Hne]; [done|]. apply Hnone. lia.
Qed.

Lemma spectral_energy_denotes (bins : list number) :
  Forall finite bins → ∃ e, denotes (spectral_energy bins) e ∧ (0 <= e)%Q.
Proof.
  induction bins as [|x bins IH] using rev_ind; intros Hbins.
  - exists 0%Q. split; [apply denotes_num|lra].
  - apply Forall_app in Hbins as [Hbins Hx]. apply Forall_singleton in Hx as [q ->].
    destruct (IH Hbins) as (e & He & He0). rewrite spectral_energy_snoc.
    exists (e + q * q)%Q. split; [eauto with denotes|]. nra.
Qed.

(** X6. On a spectrum of one or more finite magnitudes the spectral
    rolloff is the frequency [i * freqResolution] of the first bin [i] at
    which the energy of the bins 0 to [i] reaches 85 % of the energy of
    the whole spectrum; there is always such a bin, so the fallback to the
    last bin is never taken. *)
Theorem calculateSpectralRolloff_first_bin (spectrum : list number) (sampleRate : number) :
  let freqResolution := (sampleRate / (of_nat (length spectrum) * num 2))%num in
  let threshold := (spectral_energy spectrum * num 0.85)%num in
  Forall finite spectrum → spectrum ≠ [] →
  ∃ i, (i < length spectrum)%nat
       ∧ calculateSpectralRolloff spectrum sampleRate = (of_nat i * freqResolution)%num
       ∧ (spectral_energy (take (S i) spectrum) >=? threshold)%num = true
       ∧ ∀ i', (i' < i)%nat →
           (spectral_energy (take (S i') spectrum) >=? threshold)%num = false.
Proof.
  intros freqResolution threshold Hfinite Hne.
  assert (0 < length spectrum)%nat as Hlen by (destruct spectrum; [done|simpl; lia]).
  unfold calculateSpectralRolloff. fold freqResolution.
  change (foldl _ (num 0) spectrum) with (spectral_energy spectrum). fold threshold.
  destruct (rolloff_scan_seq spectrum threshold freqResolution 0 (length spectrum))
    as [(i & Hi & Hyes & Hmin & Hres)|[Hnone _]]; [lia|..].
  - exists i. split_and!; [lia|done|done|]. intros i' Hi'. apply Hmin. lia.
  - exfalso. specialize (Hnone (length spectrum - 1)%nat ltac:(lia)).
    replace (S (length spectrum - 1)) with (length spectrum) in Hnone by lia.
    rewrite firstn_all in Hnone.
    destruct (spectral_energy_denotes spectrum Hfinite) as (e & He & He0).
    unfold ge in Hnone.
    assert ((threshold <=? spectral_energy spectrum)%num = true); [|congruence].
    apply (denotes_le _ _ (e * 0.85)%Q e); [unfold threshold; eauto with denotes|done|].
    lra.
Qed.

Lemma calculateSpectralRolloff_first_bin_witness :
  ∃ i, (i < length two_peak_spectrum)%nat
       ∧ calculateSpectralRolloff two_peak_spectrum (num 1600)
         = (of_nat i * (num 1600 / (of_nat (length two_peak_spectrum) * num 2)))%num
       ∧ (spectral_energy (take (S i) two_peak_spectrum)
          >=? spectral_energy two_peak_spectrum * num 0.85)%num = true
       ∧ ∀ i', (i' < i)%nat →
           (spectral_energy (take (S i') two_peak_spectrum)
            >=? spectral_energy two_peak_spectrum * num 0.85)%num = false.
Proof.
  apply (calculateSpectralRolloff_first_bin two_peak_spectrum (num 1600));
    [exact finite_two_peak_spectrum|discriminate].
Defined.

(** ** Downmix and levels *)

(** The mono signal the analysis works on. *)
Lemma downmix_cases (buffer : AudioBuffer) :
  downmix buffer
  = match buffer_channels buffer with
    | [] => Throw IndexSizeError
    | [mono] => Return mono
    | first :: second :: _ =>
        Return ((λ i, (get first i + get second i) / num 2)%num <$> seq 0 (length first))
    end.
Proof.
  unfold downmix, numberOfChannels, getChannelData.
  destruct (buffer_channels buffer) as [|first [|second channels]]; [done..|].
  change (length (_ :: _ :: channels) =? 1)%nat with false.
  change (1 <? length (_ :: _ :: channels))%nat with true.
  cbn [lookup list_lookup]. rewrite !bind_Return.
  rewrite new_Float32Array_nonneg, bind_Return by lia.
  unfold mret, outcome_ret. f_equal. rewrite Nat2Z.id.
  by rewrite for_range_fill by by rewrite length_replicate.
Qed.

Lemma downmix_returns (buffer : AudioBuffer) :
  buffer_channels buffer ≠ [] → ∃ audioData, downmix buffer = Return audioData.
Proof.
  intros Hne. rewrite downmix_cases.
  destruct (buffer_channels buffer) as [|first [|second channels]]; [done|by eexists..].
Qed.

(** X7. The mono signal of the analysis: without a channel the read of
    channel 0 throws; a single channel is taken as it is; with two or more
    channels the signal has the length of the first and its entry [i] is
    the mean of the entries [i] of the first two, the other channels are
    not read (an entry the second channel lacks makes the mean NaN). *)
Theorem downmix_channels (buffer : AudioBuffer) :
  (buffer_channels buffer = [] → downmix buffer = Throw IndexSizeError)
  ∧ (∀ mono, buffer_channels buffer = [mono] → downmix buffer = Return mono)
  ∧ (∀ first second others, buffer_channels buffer = first :: second :: others →
     ∃ audioData,
       downmix buffer = Return audioData
       ∧ length audioData = length first
       ∧ ∀ i, (i < length first)%nat →
           audioData !! i = Some ((get first i + get second i) / num 2)%num).
Proof.
  rewrite downmix_cases. split_and!.
  - by intros ->.
  - by intros mono ->.
  - intros first second others ->. eexists. split; [done|]. split.
    + by rewrite length_fmap, length_seq.
    + intros i Hi. by rewrite list_lookup_fmap, lookup_seq_lt.
Qed.

Lemma downmix_channels_witness :
  downmix emptyBuffer = Return []
  ∧ ∃ audioData,
      downmix silentBuffer = Return audioData
      ∧ length audioData = 8%nat
      ∧ ∀ i, (i < 8)%nat →
          audioData !! i
          = Some ((get (replicate 8 (num 0)) i + get (replicate 8 (num 0)) i) / num 2)%num.
Proof.
  split.
  - exact (proj1 (proj2 (downmix_channels emptyBuffer)) [] eq_refl).
  - exact (proj2 (proj2 (downmix_channels silentBuffer)) _ _ [] eq_refl).
Defined.

(** The peak level is the largest absolute value of a sample. *)
Lemma signal_levels_peak (audioData : list number) :
  Forall (λ x, x ≠ NaN) audioData →
  let peak := (signal_levels audioData).2 in
  Forall (λ x, (abs x <=? peak)%num = true) audioData
  ∧ (peak = num 0 ∨ ∃ x, x ∈ audioData ∧ peak = abs x).
Proof.
  intros Hdata peak. subst peak. unfold signal_levels.
  pose (P := λ (n : nat) (st : number * number),
    st.2 ≠ NaN
    ∧ Forall (λ x, (abs x <=? st.2)%num = true) (take n audioData)
    ∧ (st.2 = num 0 ∨ ∃ x, x ∈ audioData ∧ st.2 = abs x)).
  match goal with |- context [for_range 0 ?n ?body ?s] =>
    assert (P n (for_range 0 n body s)) as (_ & Hall & Hsome) end.
  { apply for_range_ind_index; [lia| |].
    - split_and!; [done|by rewrite take_0|by left].
    - intros i [rmsSum peak] Hi (Hpeak & Hall & Hsome). cbn [fst snd] in *.
      destruct (lookup_lt_is_Some_2 audioData i ltac:(lia)) as [x Hx].
      unfold get. rewrite Hx. cbn [default from_option id].
      assert (x ≠ NaN) as Hxn.
      { eapply Forall_forall in Hdata; [exact Hdata|]. by eapply list_elem_of_lookup_2. }
      destruct (max_cases peak (abs x) Hpeak (abs_not_NaN x Hxn))
        as (Hmax & Hle1 & Hle2 & Hcases).
      split_and!; [done| |].
      + rewrite (take_S_r _ _ x) by done. apply Forall_app. split.
        * eapply Forall_impl; [exact Hall|]. intros y Hy. cbv beta in Hy.
          by eapply le_trans.
        * by apply Forall_singleton.
      + destruct Hcases as [->| ->]; [done|]. right. exists x.
        split; [by eapply list_elem_of_lookup_2|done]. }
  by rewrite firstn_all in Hall.
Qed.

(** ** The analysis as a whole *)

Section AnalyzeMore.
Context (host : HostMath) (this : AudioProcessor).

(** [analyze] returns as soon as the downmix and the spectrogram do and
    [fftSize] is not negative; every field of the result is then the
    value of the component that computes it. *)
Lemma analyze_returns (audioData : list number) (frames : list (list number)) :
  downmix (audioBuffer this) = Return audioData →
  0 ≤ fftSize (settings this) →
  generateSpectrogram host this audioData = Return frames →
  let transform := fft host (windowed_signal this audioData) in
  let magnitude := getMagnitudeSpectrum host transform.1 transform.2 in
  let sampleRate := buffer_sampleRate (audioBuffer this) in
  let spectralFeatures := findPeaks (settings this) magnitude sampleRate in
  analyze host this
  = Return {| spectralFeatures := spectralFeatures;
              harmonics := detectHarmonics spectralFeatures;
              fundamentalFreq :=
                select_fundamental (settings this) (detectHarmonics spectralFeatures)
                  spectralFeatures;
              spectralCentroid := calculateSpectralCentroid magnitude sampleRate;
              spectralRolloff := calculateSpectralRolloff magnitude sampleRate;
              spectralFlux := num 0;
              rmsLevel :=
                Math_sqrt host ((signal_levels audioData).1 / of_nat (length audioData))%num;
              peakLevel := (signal_levels audioData).2;
              sampleRate := sampleRate;
              duration := buffer_duration (audioBuffer this);
              envelope := calculateEnvelope sampleRate audioData;
              spectrogram := frames |}.
Proof.
  intros Hmix Hfft Hframes. cbv zeta. unfold analyze.
  rewrite Hmix, bind_Return.
  destruct (signal_levels audioData) as [rmsSum peak].
  rewrite new_Float32Array_nonneg, bind_Return by done.
  rewrite (for_range_fill_guarded
             (λ i, (getZ audioData
                      ((Z.of_nat (length audioData) - fftSize (settings this)) `div` 2
                       + Z.of_nat i) * get (windowFunction this) i)%num)
             (λ i, ((Z.of_nat (length audioData) - fftSize (settings this)) `div` 2
                    + Z.of_nat i <? Z.of_nat (length audioData))
                   && (0 <=? (Z.of_nat (length audioData) - fftSize (settings this)) `div` 2
                             + Z.of_nat i))).
  fold (windowed_signal this audioData).
  destruct (fft host (windowed_signal this audioData)) as [real imag].
  by rewrite Hframes, bind_Return.
Qed.

End AnalyzeMore.

(** The number of frames of the spectrogram, for a positive hop. *)
Lemma generateSpectrogram_frames
    (host : HostMath) (this : AudioProcessor) (audioData : list number) :
  let windowSize := windowSize (settings this) in
  let hopSize := hopSize (settings this) in
  0 < hopSize → 0 ≤ windowSize → Z.even windowSize = true →
  ∃ frames,
    generateSpectrogram host this audioData = Return frames
    ∧ Z.of_nat (length frames)
      = Z.max 0 ((Z.of_nat (length audioData) - windowSize) `div` hopSize + 1)
    ∧ Forall (λ frame, Z.of_nat (length frame) = windowSize `div` 2) frames.
Proof.
  cbv zeta. intros Hhop Hws Heven.
  rewrite generateSpectrogram_unfold by lia.
  set (ws := windowSize (settings this)) in *. set (hop := hopSize (settings this)) in *.
  destruct (spectrogram_frames_returns host this audioData
              (seq 0 (Z.to_nat ((Z.of_nat (length audioData) - ws) `div` hop + 1)))
              Hws Heven) as (frames & -> & Hlen & Hwidth).
  exists frames. split_and!; [done| |].
  - rewrite Hlen, length_seq. lia.
  - eapply Forall_impl; [exact Hwidth|]. intros frame ->. fold ws.
    rewrite Z2Nat.id; [done|]. apply Z.div_pos; lia.
Qed.

(** Under settings of non-negative sizes, an even window size and a
    positive hop the analysis of a buffer with a channel returns. *)
Lemma run_analysis_some (host : HostMath) (buffer : AudioBuffer)
    (settings : AnalysisSettings) :
  buffer_channels buffer ≠ [] →
  0 ≤ fftSize settings → 0 ≤ windowSize settings →
  Z.even (windowSize settings) = true → 0 < hopSize settings →
  ∃ result,
    analyze host {| audioBuffer := buffer;
                    settings := settings;
                    windowFunction := window_coefficient host (windowSize settings)
                                      <$> seq 0 (Z.to_nat (windowSize settings)) |}
    = Return result.
Proof.
  intros Hchannels Hfft Hws Heven Hhop.
  destruct (downmix_returns buffer Hchannels) as [audioData Hmix].
  set (this := {| audioBuffer := buffer; settings := settings; windowFunction := _ |}).
  destruct (generateSpectrogram_frames host this audioData Hhop Hws Heven)
    as (frames & Hframes & _).
  rewrite (analyze_returns host this audioData frames Hmix Hfft Hframes). by eexists.
Qed.

(** The levels of a result are those of the downmixed signal. *)
Lemma analyze_levels (host : HostMath) (this : AudioProcessor) (audioData : list number)
    (result : AnalysisResult) :
  downmix (audioBuffer this) = Return audioData →
  analyze host this = Return result →
  peakLevel result = (signal_levels audioData).2
  ∧ rmsLevel result
    = Math_sqrt host ((signal_levels audioData).1 / of_nat (length audioData))%num.
Proof.
  intros Hmix. unfold analyze. rewrite Hmix, bind_Return.
  destruct (signal_levels audioData) as [rmsSum peak].
  destruct (new_Float32Array _) as [windowedSignal| |]; [|done..].
  rewrite bind_Return. destruct (fft host _) as [real imag].
  destruct (generateSpectrogram host this audioData) as [frames| |]; [|done..].
  rewrite bind_Return. by intros [= <-].
Qed.

(** X8. For a buffer with one channel or more and settings with
    [fftSize] and [windowSize] not negative, [windowSize] even and
    [hopSize] positive, the analysis returns a result, whatever the
    samples are.  Its sample rate and duration are those of the buffer, its
    spectral flux is 0, its envelope has one entry for each sample of the
    mono signal, and its spectrogram has
    [max(0, floor((length - windowSize) / hopSize) + 1)] frames of
    [windowSize / 2] values each. *)
Theorem run_analysis_returns
    (host : HostMath) (buffer : AudioBuffer) (settings : AnalysisSettings) :
  buffer_channels buffer ≠ [] →
  0 ≤ fftSize settings → 0 ≤ windowSize settings →
  Z.even (windowSize settings) = true → 0 < hopSize settings →
  ∃ audioData result,
    downmix buffer = Return audioData
    ∧ run_analysis host buffer settings = Return result
    ∧ sampleRate result = buffer_sampleRate buffer
    ∧ duration result = buffer_duration buffer
    ∧ spectralFlux result = num 0
    ∧ length (envelope result) = length audioData
    ∧ Z.of_nat (length (spectrogram result))
      = Z.max 0 ((Z.of_nat (length audioData) - windowSize settings)
                 `div` hopSize settings + 1)
    ∧ Forall (λ frame, Z.of_nat (length frame) = windowSize settings `div` 2)
        (spectrogram result).
Proof.
  intros Hchannels Hfft Hws Heven Hhop.
  destruct (downmix_returns buffer Hchannels) as [audioData Hmix].
  rewrite run_analysis_unfold by done.
  set (this := {| audioBuffer := buffer; settings := settings;
                  windowFunction := _ |}).
  destruct (generateSpectrogram_frames host this audioData Hhop Hws Heven)
    as (frames & Hframes & Hcount & Hwidth).
  exists audioData. eexists. split; [done|]. split.
  - by apply (analyze_returns host this audioData frames).
  - cbn [sampleRate duration spectralFlux envelope spectrogram].
    split_and!; [done..| |done|done].
    by rewrite calculateEnvelope_unfold, length_fmap, length_seq.
Qed.

Lemma run_analysis_returns_witness :
  ∃ audioData result,
    downmix sampleBuffer = Return audioData
    ∧ run_analysis coarseHost sampleBuffer sampleSettings = Return result
    ∧ sampleRate result = num 400
    ∧ duration result = num 0.02
    ∧ spectralFlux result = num 0
    ∧ length (envelope result) = length audioData
    ∧ Z.of_nat (length (spectrogram result)) = 3
    ∧ Forall (λ frame, Z.of_nat (length frame) = 2) (spectrogram result).
Proof.
  destruct (run_analysis_returns coarseHost sampleBuffer sampleSettings)
    as (audioData & result & Hmix & Hrun & H); [done|done|done|done|done|].
  exists audioData, result. split; [exact Hmix|]. split; [exact Hrun|].
  injection Hmix as <-. exact H.
Defined.

(** X9. What the analysis refuses: a negative [windowSize] makes the
    constructor throw a RangeError; otherwise a buffer without a channel
    makes [analyze] throw an IndexSizeError; otherwise a negative
    [fftSize] makes it throw a RangeError. *)
Theorem run_analysis_rejects
    (host : HostMath) (buffer : AudioBuffer) (settings : AnalysisSettings) :
  (windowSize settings < 0 → run_analysis host buffer settings = Throw RangeError)
  ∧ (0 ≤ windowSize settings → buffer_channels buffer = [] →
     run_analysis host buffer settings = Throw IndexSizeError)
  ∧ (0 ≤ windowSize settings → buffer_channels buffer ≠ [] → fftSize settings < 0 →
     run_analysis host buffer settings = Throw RangeError).
Proof.
  split_and!.
  - intros Hws. unfold run_analysis, new_AudioProcessor.
    rewrite createWindow_unfold. by rewrite (proj2 (Z.ltb_lt _ 0)) by done.
  - intros Hws Hnone. rewrite run_analysis_unfold by done. unfold analyze.
    cbn [audioBuffer]. by rewrite downmix_cases, Hnone.
  - intros Hws Hchannels Hfft. rewrite run_analysis_unfold by done. unfold analyze.
    cbn [audioBuffer settings_of].
    destruct (downmix_returns buffer Hchannels) as [audioData ->].
    rewrite bind_Return. destruct (signal_levels audioData) as [rmsSum peak].
    unfold new_Float32Array. by rewrite (proj2 (Z.ltb_lt _ 0)) by done.
Qed.

Lemma run_analysis_rejects_witness :
  run_analysis coarseHost sampleBuffer
    {| fftSize := 4; windowSize := -4; hopSize := 2; minFreq := num 20;
       maxFreq := num 20000; harmonicThreshold := num 0.1; noiseFloor := num (-60) |}
  = Throw RangeError
  ∧ run_analysis coarseHost
      {| buffer_sampleRate := num 44100; buffer_duration := num 0; buffer_channels := [] |}
      sampleSettings
    = Throw IndexSizeError
  ∧ run_analysis coarseHost sampleBuffer
      {| fftSize := -4; windowSize := 4; hopSize := 2; minFreq := num 20;
         maxFreq := num 20000; harmonicThreshold := num 0.1; noiseFloor := num (-60) |}
    = Throw RangeError.
Proof.
  split_and!.
  - by apply (proj1 (run_analysis_rejects coarseHost sampleBuffer _)).
  - by apply (proj1 (proj2 (run_analysis_rejects coarseHost _ sampleSettings))).
  - by apply (proj2 (proj2 (run_analysis_rejects coarseHost sampleBuffer _))).
Defined.

(** X10. When no sample of the mono signal is NaN, the peak level of the
    result is at least the absolute value of every sample, and it is 0 or
    the absolute value of one of the samples. *)
Theorem analyze_peak_level (host : HostMath) (this : AudioProcessor)
    (audioData : list number) (result : AnalysisResult) :
  downmix (audioBuffer this) = Return audioData →
  analyze host this = Return result →
  Forall (λ x, x ≠ NaN) audioData →
  Forall (λ x, (abs x <=? peakLevel result)%num = true) audioData
  ∧ (peakLevel result = num 0 ∨ ∃ x, x ∈ audioData ∧ peakLevel result = abs x).
Proof.
  intros Hmix Hresult Hdata.
  destruct (analyze_levels host this audioData result Hmix Hresult) as [-> _].
  by apply signal_levels_peak.
Qed.

Lemma analyze_peak_level_witness :
  ∃ result,
    analyze coarseHost sampleProcessor = Return result
    ∧ Forall (λ x, (abs x <=? peakLevel result)%num = true) sampleData
    ∧ (peakLevel result = num 0 ∨ ∃ x, x ∈ sampleData ∧ peakLevel result = abs x).
Proof.
  destruct (run_analysis_some coarseHost sampleBuffer sampleSettings) as [result Hresult];
    [done..|].
  exists result. split; [exact Hresult|].
  apply (analyze_peak_level coarseHost sampleProcessor sampleData result eq_refl Hresult).
  apply Forall_fmap, Forall_true. intros q. discriminate.
Defined.

(** X11. In every result of [analyze] the harmonic series are in
    descending order of strength, and the fundamental frequency is the
    fundamental of the first, strongest, series when there is one, the
    frequency of the first, strongest, spectral feature when there is no
    series, and null when there is no feature either. *)
Theorem analyze_fundamental (host : HostMath) (this : AudioProcessor)
    (result : AnalysisResult) :
  analyze host this = Return result →
  StronglySorted (descending strength) (harmonics result)
  ∧ fundamentalFreq result
    = match harmonics result with
      | strongest :: _ => Some (fundamental strongest)
      | [] => frequency <$> head (spectralFeatures result)
      end.
Proof.
  intros Hresult.
  apply analyze_components in Hresult
    as (audioData & spectrum & _ & Hfeatures & Hharmonics & Hfundamental & _).
  split.
  - rewrite Hharmonics, Hfeatures. apply detectHarmonics_descending, findPeaks_magnitude.
  - rewrite Hfundamental. destruct (harmonics result) as [|strongest series]; [|done].
    rewrite Hfeatures. apply select_fundamental_findPeaks.
Qed.

Lemma analyze_fundamental_witness :
  ∃ result,
    analyze coarseHost sampleProcessor = Return result
    ∧ StronglySorted (descending strength) (harmonics result)
    ∧ fundamentalFreq result
      = match harmonics result with
        | strongest :: _ => Some (fundamental strongest)
        | [] => frequency <$> head (spectralFeatures result)
        end.
Proof.
  destruct (run_analysis_some coarseHost sampleBuffer sampleSettings) as [result Hresult];
    [done..|].
  exists result. split; [exact Hresult|]. exact (analyze_fundamental _ _ _ Hresult).
Defined.

(** X12. With a positive hop, a signal shorter than the window gives the
    empty spectrogram: no frame is computed, whatever the window size is. *)
Theorem generateSpectrogram_short_input
    (host : HostMath) (this : AudioProcessor) (audioData : list number) :
  0 < hopSize (settings this) →
  Z.of_nat (length audioData) < windowSize (settings this) →
  generateSpectrogram host this audioData = Return [].
Proof.
  intros Hhop Hshort. rewrite generateSpectrogram_unfold by lia.
  assert ((Z.of_nat (length audioData) - windowSize (settings this))
          `div` hopSize (settings this) < 0) as Hneg
    by (apply Z.div_lt_upper_bound; lia).
  by replace (Z.to_nat _) with 0%nat by lia.
Qed.

Lemma generateSpectrogram_short_input_witness :
  generateSpectrogram coarseHost sampleProcessor [num 1; num 2; num 3] = Return [].
Proof. apply generateSpectrogram_short_input; [done|]. simpl. lia. Defined.

(** X13. With an odd [windowSize], a positive hop and a signal at least
    as long as the window, the analysis throws a RangeError: the
    spectrogram asks for an array of [windowSize / 2] entries, which is not
    an integer. *)
Theorem run_analysis_odd_window
    (host : HostMath) (buffer : AudioBuffer) (settings : AnalysisSettings)
    (audioData : list number) :
  downmix buffer = Return audioData →
  0 < hopSize settings → 0 ≤ windowSize settings → Z.odd (windowSize settings) = true →
  windowSize settings ≤ Z.of_nat (length audioData) →
  run_analysis host buffer settings = Throw RangeError.
Proof.
  intros Hmix Hhop Hws Hodd Hlong. rewrite run_analysis_unfold by done.
  set (this := {| audioBuffer := buffer; settings := settings; windowFunction := _ |}).
  unfold analyze. cbn [audioBuffer this]. rewrite Hmix, bind_Return.
  destruct (signal_levels audioData) as [rmsSum peak].
  unfold new_Float32Array. cbn [settings_of this].
  destruct (fftSize settings <? 0); [done|].
  rewrite bind_Return. destruct (fft host _) as [real imag].
  by rewrite (generateSpectrogram_odd_window host _ audioData).
Qed.

Lemma run_analysis_odd_window_witness :
  run_analysis coarseHost sampleBuffer
    {| fftSize := 4; windowSize := 3; hopSize := 2; minFreq := num 20;
       maxFreq := num 20000; harmonicThreshold := num 0.1; noiseFloor := num (-60) |}
  = Throw RangeError.
Proof.
  apply (run_analysis_odd_window coarseHost sampleBuffer _ sampleData);
    [reflexivity|done|done|reflexivity|simpl; lia].
Defined.

(** X14. With a [hopSize] of 0 and a signal longer than the (even) window
    the analysis does not return: the number of frames of the spectrogram
    is infinite. *)
Theorem run_analysis_zero_hop
    (host : HostMath) (buffer : AudioBuffer) (settings : AnalysisSettings)
    (audioData : list number) :
  downmix buffer = Return audioData → 0 ≤ fftSize settings →
  hopSize settings = 0 → 0 ≤ windowSize settings → Z.even (windowSize settings) = true →
  windowSize settings < Z.of_nat (length audioData) →
  run_analysis host buffer settings = Diverge.
Proof.
  intros Hmix Hfft Hhop Hws Heven Hlong. rewrite run_analysis_unfold by done.
  set (this := {| audioBuffer := buffer; settings := settings; windowFunction := _ |}).
  unfold analyze. cbn [audioBuffer this]. rewrite Hmix, bind_Return.
  destruct (signal_levels audioData) as [rmsSum peak].
  rewrite new_Float32Array_nonneg, bind_Return by done.
  destruct (fft host _) as [real imag].
  by rewrite (generateSpectrogram_zero_hop host _ audioData).
Qed.

Lemma run_analysis_zero_hop_witness :
  run_analysis coarseHost sampleBuffer
    {| fftSize := 4; windowSize := 4; hopSize := 0; minFreq := num 20;
       maxFreq := num 20000; harmonicThreshold := num 0.1; noiseFloor := num (-60) |}
  = Diverge.
Proof.
  apply (run_analysis_zero_hop coarseHost sampleBuffer _ sampleData);
    [reflexivity|done|done|done|reflexivity|simpl; lia].
Defined.

(** ** FFT Engine: NaN in the input *)

(** ** NaN in the transform *)

Lemma get_insert_NaN (a : list number) (k p : nat) (x : number) :
  (p = k → x = NaN) → get a p = NaN → get (<[k := x]> a) p = NaN.
Proof.
  intros Hx Hp. unfold get in *. rewrite list_lookup_insert.
  case_decide as H; [|done]. destruct H as [-> _]. simpl. by apply Hx.
Qed.

Lemma get_insert_eq_NaN (a : list number) (k : nat) : get (<[k := NaN]> a) k = NaN.
Proof.
  unfold get. destruct (decide (k < length a)%nat).
  - by rewrite list_lookup_insert_eq.
  - rewrite list_insert_ge by lia. by rewrite (proj2 (lookup_ge_None a k)) by lia.
Qed.

Lemma get_beyond (a : list number) (p : nat) : (length a ≤ p)%nat → get a p = NaN.
Proof. intros Hp. unfold get. by rewrite (proj2 (lookup_ge_None a p)). Qed.

Lemma butterfly_sum_NaN (u wr wi x y : number) :
  u = NaN ∨ x = NaN →
  (u + (wr * x - wi * y))%num = NaN ∧ (u - (wr * x - wi * y))%num = NaN.
Proof.
  intros [-> | ->]; [done|].
  assert (wr * NaN = NaN)%num as -> by by destruct wr.
  assert (∀ t, (NaN - t)%num = NaN) as -> by done.
  by destruct u.
Qed.

(** A swap keeps a NaN in the array. *)
Lemma swap_keeps_NaN (a : list number) (i j : nat) :
  (i < length a)%nat →
  (∃ p, (p < length a)%nat ∧ get a p = NaN) →
  length (swap a i j) = length a
  ∧ ∃ p, (p < length a)%nat ∧ get (swap a i j) p = NaN.
Proof.
  intros Hi (p & Hp & Hnan). unfold swap. split; [by rewrite !length_insert|].
  destruct (decide (p = i)) as [->|Hpi].
  - destruct (decide (j < length a)%nat) as [Hj|Hj].
    + exists j. split; [done|]. rewrite Hnan. apply get_insert_eq_NaN.
    + exists i. split; [done|]. rewrite list_insert_ge by (rewrite length_insert; lia).
      rewrite (get_beyond a j) by lia. apply get_insert_eq_NaN.
  - destruct (decide (p = j)) as [->|Hpj].
    + exists i. split; [done|]. rewrite Hnan. unfold get.
      rewrite list_lookup_insert_ne by done. by rewrite list_lookup_insert_eq.
    + exists p. split; [done|]. unfold get in *.
      by rewrite !list_lookup_insert_ne.
Qed.

Lemma bit_reversal_keeps_NaN (real imag : list number) :
  (∃ p, (p < length real)%nat ∧ get real p = NaN) →
  length (bit_reversal real imag).1 = length real
  ∧ ∃ p, (p < length real)%nat ∧ get (bit_reversal real imag).1 p = NaN.
Proof.
  intros Hnan. unfold bit_reversal.
  loop_invariant (λ st : Z * list number * list number,
    length st.1.2 = length real
    ∧ ∃ p, (p < length real)%nat ∧ get st.1.2 p = NaN).
  - done.
  - intros i [[j re] im] Hi [Hlen Hre]. cbn [fst snd] in *.
    destruct (_ <? _); cbn [fst snd]; [|done].
    rewrite <- Hlen in Hre.
    destruct (swap_keeps_NaN re i (Z.to_nat (next_reversed (Z.of_nat (length real)) j)))
      as [Hlen' Hre']; [lia|done|].
    rewrite Hlen'. split; [done|]. by rewrite Hlen in Hre'.
  - by destruct (for_range _ _ _ _) as [[??]?].
Qed.

Section TransformNaN.
Context (host : HostMath).

Lemma butterfly_keeps_NaN (wlen : number) (len i j : nat)
    (ri : list number * list number) (p : nat) :
  get ri.1 p = NaN → get (butterfly host wlen len i j ri).1 p = NaN.
Proof.
  destruct ri as [re im]. cbn [fst butterfly]. intros Hp.
  apply get_insert_NaN.
  - intros ->. apply butterfly_sum_NaN. by right.
  - apply get_insert_NaN; [|done]. intros ->. apply butterfly_sum_NaN. by left.
Qed.

Lemma butterfly_spreads_NaN (wlen : number) (len i j : nat)
    (ri : list number * list number) :
  get ri.1 (i + j) = NaN ∨ get ri.1 (i + j + len / 2) = NaN →
  get (butterfly host wlen len i j ri).1 (i + j) = NaN
  ∧ get (butterfly host wlen len i j ri).1 (i + j + len / 2) = NaN.
Proof.
  destruct ri as [re im]. cbn [fst butterfly]. intros Hnan.
  destruct (butterfly_sum_NaN (get re (i + j))
              (Math_cos host (wlen * of_nat j)) (Math_sin host (wlen * of_nat j))
              (get re (i + j + len / 2)) (get im (i + j + len / 2)) Hnan) as [-> ->].
  split; [|apply get_insert_eq_NaN].
  apply get_insert_NaN; [done|]. apply get_insert_eq_NaN.
Qed.

(** The butterflies of one block. *)
Lemma block_NaN (wlen : number) (len i : nat) (ri : list number * list number) :
  let ri' := for_range 0 (len / 2) (λ j ri, butterfly host wlen len i j ri) ri in
  (∀ p, get ri.1 p = NaN → get ri'.1 p = NaN)
  ∧ ∀ j, (j < len / 2)%nat →
      get ri.1 (i + j) = NaN ∨ get ri.1 (i + j + len / 2) = NaN →
      get ri'.1 (i + j) = NaN ∧ get ri'.1 (i + j + len / 2) = NaN.
Proof.
  cbv zeta.
  apply (for_range_ind_index (λ n st,
    (∀ p, get ri.1 p = NaN → get st.1 p = NaN)
    ∧ ∀ j, (j < n)%nat →
        get ri.1 (i + j) = NaN ∨ get ri.1 (i + j + len / 2) = NaN →
        get st.1 (i + j) = NaN ∧ get st.1 (i + j + len / 2) = NaN)); [lia| |].
  - split; [done|]. intros j Hj. lia.
  - intros n st Hn [Hkeep Hdone]. split.
    + intros p Hp. by apply butterfly_keeps_NaN, Hkeep.
    + intros j Hj Hnan. destruct (decide (j = n)) as [->|Hne].
      * apply butterfly_spreads_NaN. destruct Hnan as [H|H]; [left|right]; by apply Hkeep.
      * destruct (Hdone j ltac:(lia) Hnan) as [H1 H2].
        split; by apply butterfly_keeps_NaN.
Qed.

(** One stage: all the blocks of length [len]. *)
Lemma stage_NaN (wlen : number) (len N : nat) (ri : list number * list number) :
  (0 < len)%nat →
  let ri' :=
    for_stride N 0 N len
      (λ i ri, for_range 0 (len / 2) (λ j ri, butterfly host wlen len i j ri) ri) ri in
  (∀ p, get ri.1 p = NaN → get ri'.1 p = NaN)
  ∧ ∀ b j, (b * len < N)%nat → (j < len / 2)%nat →
      get ri.1 (b * len + j) = NaN ∨ get ri.1 (b * len + j + len / 2) = NaN →
      get ri'.1 (b * len + j) = NaN ∧ get ri'.1 (b * len + j + len / 2) = NaN.
Proof.
  intros Hlen. cbv zeta.
  destruct (for_stride_ind_index (λ i st, ∃ b,
      i = (b * len)%nat
      ∧ (∀ p, get ri.1 p = NaN → get st.1 p = NaN)
      ∧ ∀ b' j, (b' < b)%nat → (j < len / 2)%nat →
          get ri.1 (b' * len + j) = NaN ∨ get ri.1 (b' * len + j + len / 2) = NaN →
          get st.1 (b' * len + j) = NaN ∧ get st.1 (b' * len + j + len / 2) = NaN)
      N 0 N len
      (λ i ri, for_range 0 (len / 2) (λ j ri, butterfly host wlen len i j ri) ri) ri)
    as (i' & Hi' & b & -> & Hkeep & Hdone); [done|nia| | |].
  - exists 0%nat. split_and!; [done|done|]. intros b' j Hb'. lia.
  - intros i st Hi (b & -> & Hkeep & Hdone).
    destruct (block_NaN wlen len (b * len) st) as [Hkeep' Hblock].
    exists (S b). split_and!; [lia| |].
    + intros p Hp. by apply Hkeep', Hkeep.
    + intros b' j Hb' Hj Hnan. destruct (decide (b' = b)) as [->|Hne].
      * apply Hblock; [done|]. destruct Hnan as [H|H]; [left|right]; by apply Hkeep.
      * destruct (Hdone b' j ltac:(lia) Hj Hnan) as [H1 H2]. split; by apply Hkeep'.
  - split; [done|]. intros b' j Hb' Hj. apply Hdone; [nia|done].
Qed.

Lemma cooley_tukey_NaN (real imag : list number) (k p0 : nat) :
  length real = (2 ^ k)%nat → (p0 < 2 ^ k)%nat → get real p0 = NaN →
  ∀ p, (p < 2 ^ k)%nat → get (cooley_tukey host real imag).1 p = NaN.
Proof.
  intros Hlen Hp0 Hnan. unfold cooley_tukey. rewrite Hlen.
  set (N := (2 ^ k)%nat) in *.
  destruct (for_doubling_ind_index (λ len st, ∃ m c,
      len = (2 ^ S m)%nat ∧ (2 ^ m ≤ N)%nat ∧ (c * 2 ^ m < N)%nat
      ∧ ∀ r, (r < 2 ^ m)%nat → get st.1 (c * 2 ^ m + r) = NaN)
      N 2 N
      (λ len ri,
         let wlen := (num 2 * Math_PI / of_nat len)%num in
         for_stride N 0 N len
           (λ i ri, for_range 0 (len / 2) (λ j ri, butterfly host wlen len i j ri) ri)
           ri)
      (real, imag))
    as (len' & Hlen' & m & c & -> & Hm & Hc & Hblock).
  - lia.
  - pose proof (Nat.pow_gt_lin_r 2 N ltac:(lia)). lia.
  - exists 0%nat, p0. cbn [Nat.pow fst]. split_and!; [done|lia|lia|].
    intros r Hr. by replace (p0 * 1 + r)%nat with p0 by lia.
  - intros len st Hle (m & c & -> & Hm & Hc & Hblock). cbv zeta.
    destruct (stage_NaN (num 2 * Math_PI / of_nat (2 ^ S m))%num (2 ^ S m) N st)
      as [Hkeep Hstage]; [pose proof (Nat.pow_nonzero 2 (S m)); lia|].
    assert (2 ^ S m / 2 = 2 ^ m)%nat as Hhalf.
    { rewrite Nat.pow_succ_r'. by rewrite Nat.mul_comm, Nat.div_mul. }
    rewrite Hhalf in Hstage.
    exists (S m), (c / 2)%nat.
    pose proof (Nat.div_mod_eq c 2) as Hc2.
    pose proof (Nat.mod_upper_bound c 2 ltac:(lia)) as Hc2'.
    assert (2 ^ S m = 2 * 2 ^ m)%nat as Hpow by apply Nat.pow_succ_r'.
    split_and!; [by rewrite <- Nat.pow_succ_r'|done|nia|].
    intros r Hr. cbn [fst]. rewrite Hhalf.
    pose proof (Nat.div_mod_eq r (2 ^ m)) as Hr2.
    pose proof (Nat.mod_upper_bound r (2 ^ m) ltac:(pose proof (Nat.pow_nonzero 2 m); lia))
      as Hr2'.
    set (j := (r `mod` 2 ^ m)%nat) in *.
    destruct (Hstage (c / 2)%nat j) as [H1 H2]; [nia|done| |].
    + destruct (decide (c `mod` 2 = 0)%nat) as [Heven|Hodd].
      * left. replace (c / 2 * 2 ^ S m + j)%nat with (c * 2 ^ m + j)%nat by nia.
        by apply Hblock.
      * right. replace (c / 2 * 2 ^ S m + j + 2 ^ m)%nat with (c * 2 ^ m + j)%nat by nia.
        by apply Hblock.
    + assert (r / 2 ^ m = 0 ∨ r / 2 ^ m = 1)%nat as [Hq|Hq] by nia.
      * by replace (c / 2 * 2 ^ S m + r)%nat with (c / 2 * 2 ^ S m + j)%nat by nia.
      * by replace (c / 2 * 2 ^ S m + r)%nat with (c / 2 * 2 ^ S m + j + 2 ^ m)%nat by nia.
  - assert (m = k) as ->.
    { assert (m ≤ k)%nat by (apply (Nat.pow_le_mono_r_iff 2); [lia|done]).
      assert (k < S m)%nat by (apply (Nat.pow_lt_mono_r_iff 2); [lia|done]). lia. }
    fold N in Hc, Hblock. assert (c = 0)%nat as -> by nia.
    intros p Hp. specialize (Hblock p Hp). by rewrite Nat.mul_0_l, Nat.add_0_l in Hblock.
Qed.

(** A NaN anywhere in a signal of a power-of-two length makes every real
    part of its transform NaN. *)
Lemma fft_NaN (signal : list number) (k p0 : nat) :
  length signal = (2 ^ k)%nat → (p0 < 2 ^ k)%nat → get signal p0 = NaN →
  ∀ p, (p < 2 ^ k)%nat → get (fft host signal).1 p = NaN.
Proof.
  intros Hlen Hp0 Hnan. unfold fft.
  destruct (bit_reversal_keeps_NaN signal (replicate (length signal) (num 0)))
    as (Hlen' & p1 & Hp1 & Hnan'); [exists p0; split; [lia|done]|].
  destruct (bit_reversal _ _) as [real imag]. cbn [fst] in *.
  apply (cooley_tukey_NaN real imag k p1); [lia|lia|done].
Qed.

End TransformNaN.

(** X15. One NaN among the samples of a signal of a power-of-two length
    makes every real part of its transform NaN, and with them every bin of
    the magnitude spectrum. *)
Theorem fft_spreads_NaN (host : HostMath) (signal : list number) (k p : nat) :
  length signal = (2 ^ k)%nat → (p < 2 ^ k)%nat → get signal p = NaN →
  Forall (λ x, x = NaN) (fft host signal).1
  ∧ Forall (λ m, m = NaN)
      (getMagnitudeSpectrum host (fft host signal).1 (fft host signal).2).
Proof.
  intros Hlen Hp Hnan.
  pose proof (fft_NaN host signal k p Hlen Hp Hnan) as Hall.
  destruct (fft_length host signal) as [Hre _].
  assert (∀ i, (i < length (fft host signal).1)%nat → get (fft host signal).1 i = NaN)
    as Hall' by (intros i Hi; apply Hall; lia).
  split.
  - apply Forall_lookup. intros i x Hx.
    specialize (Hall' i (lookup_lt_Some _ _ _ Hx)). unfold get in Hall'.
    by rewrite Hx in Hall'.
  - rewrite getMagnitudeSpectrum_unfold. apply Forall_fmap, Forall_forall.
    intros i Hi. apply elem_of_seq in Hi. unfold compose.
    pose proof (Nat.Div0.div_le_upper_bound (length (fft host signal).1) 2
                  (length (fft host signal).1) ltac:(lia)).
    by rewrite Hall' by lia.
Qed.

Lemma fft_spreads_NaN_witness :
  Forall (λ x, x = NaN) (fft coarseHost [num 1; NaN; num 3; num 4]).1
  ∧ Forall (λ m, m = NaN)
      (getMagnitudeSpectrum coarseHost (fft coarseHost [num 1; NaN; num 3; num 4]).1
         (fft coarseHost [num 1; NaN; num 3; num 4]).2).
Proof.
  apply (fft_spreads_NaN coarseHost [num 1; NaN; num 3; num 4] 2 1); [done|simpl; lia|done].
Defined.

(** The magnitude of a transform whose real parts are NaN. *)
Lemma getMagnitudeSpectrum_NaN (host : HostMath) (real imag : list number) :
  (∀ p, (p < length real)%nat → get real p = NaN) →
  Forall silent (getMagnitudeSpectrum host real imag).
Proof.
  intros Hnan. rewrite getMagnitudeSpectrum_unfold. apply Forall_fmap, Forall_forall.
  intros i Hi. apply elem_of_seq in Hi. simpl. right.
  rewrite Hnan; [done|].

  pose proof (Nat.Div0.div_le_upper_bound (length real) 2 (length real) ltac:(lia)). lia.
Qed.

Lemma windowed_signal_length (this : AudioProcessor) (audioData : list number) :
  length (windowed_signal this audioData) = Z.to_nat (fftSize (settings this)).
Proof. unfold windowed_signal. by rewrite length_fmap, length_seq. Qed.

(** Past the end of the window function the windowed signal is NaN,
    wherever the frame meets the signal. *)
Lemma windowed_signal_NaN (this : AudioProcessor) (audioData : list number) (i : nat) :
  let start := (Z.of_nat (length audioData) - fftSize (settings this)) `div` 2 in
  (length (windowFunction this) ≤ i)%nat → Z.of_nat i < fftSize (settings this) →
  0 ≤ start + Z.of_nat i < Z.of_nat (length audioData) →
  get (windowed_signal this audioData) i = NaN.
Proof.
  intros start Hwindow Hi Hrange. unfold windowed_signal, get.
  rewrite list_lookup_fmap, lookup_seq_lt by lia. cbn [fmap option_fmap option_map default Nat.add].
  fold start.
  rewrite (proj2 (Z.ltb_lt _ _)), (proj2 (Z.leb_le _ _)) by lia. cbn [andb].
  rewrite (proj2 (lookup_ge_None (windowFunction this) i)) by done.
  cbn [default]. by destruct (getZ audioData (start + Z.of_nat i)).
Qed.

(** X16. When [fftSize] is a power of two larger than [windowSize], as
    in the settings the application starts with (8192 and 2048), [analyze]
    reads the window function past its end: the frame it transforms holds
    a NaN, and the result has no spectral feature, no harmonic series, a
    null fundamental and a spectral centroid of 0, whatever the signal is
    (here: any signal of one sample or more, longer than
    [2 * windowSize - fftSize]). *)
Theorem run_analysis_window_shorter_than_fft
    (host : HostMath) (buffer : AudioBuffer) (settings : AnalysisSettings)
    (audioData : list number) (k : nat) :
  downmix buffer = Return audioData →
  fftSize settings = 2 ^ Z.of_nat k →
  0 ≤ windowSize settings < fftSize settings →
  Z.even (windowSize settings) = true → 0 < hopSize settings →
  (0 < length audioData)%nat →
  2 * windowSize settings - fftSize settings < Z.of_nat (length audioData) →
  ∃ result,
    run_analysis host buffer settings = Return result
    ∧ spectralFeatures result = []
    ∧ harmonics result = []
    ∧ fundamentalFreq result = None
    ∧ spectralCentroid result = num 0.
Proof.
  intros Hmix Hpow Hws Heven Hhop Hlen Hlong.
  rewrite run_analysis_unfold by lia.
  set (this := {| audioBuffer := buffer; settings := settings; windowFunction := _ |}).
  destruct (generateSpectrogram_frames host this audioData Hhop ltac:(cbn; lia) Heven)
    as (frames & Hframes & _).
  rewrite (analyze_returns host this audioData frames Hmix ltac:(cbn; lia) Hframes).
  eexists. split; [done|]. cbn [spectralFeatures harmonics fundamentalFreq spectralCentroid].
  assert (Forall silent
            (getMagnitudeSpectrum host (fft host (windowed_signal this audioData)).1
               (fft host (windowed_signal this audioData)).2)) as Hsilent.
  { apply getMagnitudeSpectrum_NaN.
    destruct (fft_length host (windowed_signal this audioData)) as [-> _].
    rewrite windowed_signal_length. cbn [settings_of this].
    set (start := (Z.of_nat (length audioData) - fftSize settings) `div` 2).
    assert (Z.to_nat (fftSize settings) = 2 ^ k)%nat as Hsize.
    { rewrite Hpow. rewrite <- (Nat2Z.id (2 ^ k)). f_equal.
      by rewrite Nat2Z.inj_pow. }
    rewrite Hsize.
    set (i := Z.to_nat (Z.max (windowSize settings) (- start))).
    assert (2 * start ≤ Z.of_nat (length audioData) - fftSize settings
            ∧ Z.of_nat (length audioData) - fftSize settings < 2 * start + 2) as Hstart.
    { unfold start.
      pose proof (Z.div_mod (Z.of_nat (length audioData) - fftSize settings) 2 ltac:(lia)).
      pose proof (Z.mod_pos_bound (Z.of_nat (length audioData) - fftSize settings) 2
                    ltac:(lia)).
      lia. }
    apply (fft_NaN host (windowed_signal this audioData) k i).
    - by rewrite windowed_signal_length.
    - rewrite <- Hsize. unfold i. lia.
    - apply windowed_signal_NaN; cbn [settings_of this windowFunction]; fold start.
      + rewrite length_fmap, length_seq. unfold i. lia.
      + unfold i. lia.
      + unfold i. lia. }
  rewrite findPeaks_silent by done. rewrite detectHarmonics_nil.
  split_and!; [done|done|done|]. by apply calculateSpectralCentroid_silent.
Qed.

Lemma run_analysis_window_shorter_than_fft_witness :
  ∃ result,
    run_analysis coarseHost sampleBuffer defaultSettings = Return result
    ∧ spectralFeatures result = []
    ∧ harmonics result = []
    ∧ fundamentalFreq result = None
    ∧ spectralCentroid result = num 0.
Proof.
  apply (run_analysis_window_shorter_than_fft coarseHost sampleBuffer defaultSettings
           sampleData 13); [reflexivity|reflexivity|done|reflexivity|done|..].
  - simpl. lia.
  - simpl. lia.
Defined.

(** ** FFT Engine: lengths that are a power of two, and the others *)

(** ** The bit-reversal counter *)

Lemma land_pow2_cases (j b : Z) :
  0 ≤ b → Z.land j (2 ^ b) = if Z.testbit j b then 2 ^ b else 0.
Proof.
  intros Hb. apply Z.bits_inj'. intros n Hn. rewrite Z.land_spec.
  destruct (Z.testbit j b) eqn:Hj.
  - rewrite Z.pow2_bits_eqb by done. destruct (Z.eqb_spec b n) as [<-|Hne].
    + by rewrite Hj.
    + by rewrite andb_false_r.
  - rewrite Z.bits_0, Z.pow2_bits_eqb by done. destruct (Z.eqb_spec b n) as [<-|Hne].
    + by rewrite Hj.
    + by rewrite andb_false_r.
Qed.

Lemma lxor_pow2_set (j b : Z) :
  0 ≤ j → 0 ≤ b → Z.land j (2 ^ b) ≠ 0 →
  0 ≤ Z.lxor j (2 ^ b) ∧ Z.lxor j (2 ^ b) = j - 2 ^ b.
Proof.
  intros Hj Hb Hset. rewrite land_pow2_cases in Hset by done.
  destruct (Z.testbit j b) eqn:Hbit; [|done].
  assert (Z.land (Z.lxor j (2 ^ b)) (2 ^ b) = 0) as Hclear.
  { rewrite land_pow2_cases by done.
    by rewrite Z.lxor_spec, Hbit, Z.pow2_bits_true. }
  split; [apply Z.lxor_nonneg; split; intros; [by apply Z.pow_nonneg|done]|].
  apply Z.add_nocarry_lxor in Hclear.
  rewrite Z.lxor_assoc, Z.lxor_nilpotent, Z.lxor_0_r in Hclear. lia.
Qed.

Lemma lxor_pow2_clear (j b : Z) :
  0 ≤ j < 2 ^ (b + 1) → 0 ≤ b → Z.land j (2 ^ b) = 0 →
  Z.lxor j (2 ^ b) = j + 2 ^ b ∧ j < 2 ^ b.
Proof.
  intros Hj Hb Hclear. split; [symmetry; by apply Z.add_nocarry_lxor|].
  rewrite land_pow2_cases in Hclear by done.
  destruct (Z.testbit j b) eqn:Hbit.
  - pose proof (Z.pow_pos_nonneg 2 b). lia.
  - destruct (Z.lt_ge_cases j (2 ^ b)) as [|Hge]; [done|].
    rewrite Z.testbit_false in Hbit by done.
    rewrite Z.pow_add_r, Z.pow_1_r in Hj by lia.
    assert (j / 2 ^ b = 1) as Hq.
    { pose proof (Z.pow_pos_nonneg 2 b ltac:(lia) Hb).
      symmetry. apply Z.div_unique with (j - 2 ^ b); lia. }
    rewrite Hq in Hbit. done.
Qed.

Lemma shiftr_pow2 (b : Z) : 0 < b → Z.shiftr (2 ^ b) 1 = 2 ^ (b - 1).
Proof.
  intros Hb. rewrite Z.shiftr_div_pow2, Z.pow_1_r by lia.
  replace b with (b - 1 + 1) at 1 by lia. rewrite Z.pow_add_r, Z.pow_1_r by lia.
  by rewrite Z.div_mul.
Qed.

Lemma clear_high_bits_zero (fuel : nat) (j : Z) : clear_high_bits fuel j 0 = (j, 0).
Proof. destruct fuel; [done|]. cbn [clear_high_bits]. by rewrite Z.land_0_r. Qed.

(** The counter of the bit reversal stays below [N = 2 ^ k]. *)
Lemma clear_high_bits_bound (fuel : nat) (j b : Z) :
  0 ≤ b → 0 ≤ j < 2 ^ (b + 1) →
  let '(j', bit') := clear_high_bits fuel j (2 ^ b) in
  (j' = 0 ∧ bit' = 0) ∨ ∃ b', 0 ≤ b' ≤ b ∧ bit' = 2 ^ b' ∧ 0 ≤ j' < 2 ^ (b' + 1).
Proof.
  revert j b. induction fuel as [|fuel IH]; intros j b Hb Hj; cbn [clear_high_bits].
  - right. exists b. split_and!; [lia|lia|done|lia|lia].
  - destruct (Z.eqb_spec (Z.land j (2 ^ b)) 0) as [Hclear|Hset].
    + cbv beta iota. right. exists b. split_and!; [lia|lia|done|lia|lia].
    + destruct (lxor_pow2_set j b) as [Hnonneg Hxor]; [lia|done|done|].
      rewrite Z.pow_add_r, Z.pow_1_r in Hj by lia.
      destruct (decide (b = 0)) as [->|Hb0].
      * change (Z.shiftr (2 ^ 0) 1) with 0. change (2 ^ 0) with 1 in *.
        assert (Z.lxor j 1 = 0) as -> by lia.
        rewrite clear_high_bits_zero. by left.
      * rewrite shiftr_pow2 by lia.
        specialize (IH (Z.lxor j (2 ^ b)) (b - 1)).
        destruct (clear_high_bits fuel (Z.lxor j (2 ^ b)) (2 ^ (b - 1))) as [j' bit'].
        destruct IH as [?|(b' & Hb' & ? & ?)]; [lia| |by left|].
        -- replace (b - 1 + 1) with b by lia. lia.
        -- right. exists b'. split_and!; [lia|lia|done|lia|lia].
Qed.

Lemma next_reversed_bound (k : nat) (j : Z) :
  0 ≤ j < 2 ^ Z.of_nat k → 0 ≤ next_reversed (2 ^ Z.of_nat k) j < 2 ^ Z.of_nat k.
Proof.
  intros Hj. unfold next_reversed.
  pose proof (Z.pow_pos_nonneg 2 (Z.of_nat k) ltac:(lia) ltac:(lia)) as HN.
  pose proof (clear_high_bits_exit (Z.to_nat (2 ^ Z.of_nat k)) j
                (Z.shiftr (2 ^ Z.of_nat k) 1)
                (next_reversed_fuel (2 ^ Z.of_nat k) ltac:(lia))) as Hexit.
  destruct k as [|k].
  - change (2 ^ Z.of_nat 0) with 1 in *. change (Z.shiftr 1 1) with 0 in *.
    assert (j = 0) as -> by lia. by rewrite clear_high_bits_zero.
  - rewrite shiftr_pow2 in * by lia.
    pose proof (clear_high_bits_bound (Z.to_nat (2 ^ Z.of_nat (S k))) j (Z.of_nat (S k) - 1))
      as Hbound.
    destruct (clear_high_bits _ j (2 ^ (Z.of_nat (S k) - 1))) as [j' bit'].
    cbn [fst snd] in Hexit.
    destruct Hbound as [[-> ->]|(b' & Hb' & -> & Hj')]; [lia| | |].
    + by replace (Z.of_nat (S k) - 1 + 1) with (Z.of_nat (S k)) by lia.
    + change (Z.lxor 0 0) with 0. lia.
    + destruct (lxor_pow2_clear j' b') as [-> Hlt]; [done|lia|done|].
      assert (2 ^ (b' + 1) ≤ 2 ^ Z.of_nat (S k)) by (apply Z.pow_le_mono_r; lia).
      rewrite Z.pow_add_r, Z.pow_1_r in * by lia. lia.
Qed.

Lemma finite_insert (a : list number) (i : nat) (x : number) :
  Forall finite a → finite x → Forall finite (<[i := x]> a).
Proof. intros. by apply Forall_insert. Qed.

Lemma pow2_nat_Z (k : nat) : Z.of_nat (2 ^ k) = 2 ^ Z.of_nat k.
Proof. by rewrite Nat2Z.inj_pow. Qed.

Lemma pow2_pos (k : nat) : (0 < 2 ^ k)%nat.
Proof. pose proof (Nat.pow_nonzero 2 k). lia. Qed.

Lemma pow2_half (m : nat) : (2 ^ S m / 2 = 2 ^ m)%nat.
Proof. rewrite Nat.pow_succ_r'. by rewrite Nat.mul_comm, Nat.div_mul. Qed.

(** A block of length [2 ^ S m] that starts below [N = 2 ^ k] ends at or
    below [N]. *)
Lemma block_within (k m b : nat) :
  (2 ^ S m ≤ 2 ^ k)%nat → (b * 2 ^ S m < 2 ^ k)%nat → (b * 2 ^ S m + 2 ^ S m ≤ 2 ^ k)%nat.
Proof.
  intros Hlen Hb.
  assert (S m ≤ k)%nat as Hm by (apply (Nat.pow_le_mono_r_iff 2); [lia|done]).
  replace k with ((k - S m) + S m)%nat in Hb |- * by lia.
  rewrite Nat.pow_add_r in Hb |- *. pose proof (pow2_pos (S m)).
  set (P := (2 ^ S m)%nat) in *. set (C := (2 ^ (k - S m))%nat) in *.
  assert (b < C)%nat by nia. nia.
Qed.

Lemma twiddle_step_finite (len : nat) :
  (0 < len)%nat → finite (num 2 * Math_PI / of_nat len)%num.
Proof.
  intros Hlen. unfold of_nat, of_Z, num, Math_PI, mul, div, fin.
  rewrite Qeq_bool_false; [by eexists|].
  assert (0 < inject_Z (Z.of_nat len))%Q by (apply inject_Z_pos; lia). lra.
Qed.

Section TransformPow2.
Context (host : HostMath).

(** With a length [2 ^ k] every swap of the bit reversal is between two
    positions of the arrays. *)
Lemma bit_reversal_ind_pow2 (Q : list number → list number → Prop)
    (real imag : list number) (k : nat) :
  length real = (2 ^ k)%nat →
  Q real imag →
  (∀ re im i j, (i < 2 ^ k)%nat → (j < 2 ^ k)%nat → Q re im →
     Q (swap re i j) (swap im i j)) →
  Q (bit_reversal real imag).1 (bit_reversal real imag).2.
Proof.
  intros Hlen Hinit Hswap. unfold bit_reversal. rewrite Hlen.
  loop_invariant (λ st : Z * list number * list number,
    0 ≤ st.1.1 < 2 ^ Z.of_nat k ∧ Q st.1.2 st.2).
  - cbn [fst snd]. split; [|done]. pose proof (Z.pow_pos_nonneg 2 (Z.of_nat k)). lia.
  - intros i [[j re] im] Hi [Hj Hst]. cbn [fst snd] in *.
    rewrite pow2_nat_Z.
    pose proof (next_reversed_bound k j Hj) as Hnext.
    destruct (_ <? _); cbn [fst snd]; (split; [exact Hnext|]); [|done].
    apply Hswap; [lia| |done].
    apply Nat2Z.inj_lt. rewrite Z2Nat.id, pow2_nat_Z by lia. lia.
  - destruct (for_range _ _ _ _) as [[??]?]. by destruct Hloop.
Qed.

(** With a length [2 ^ k] every butterfly reads and writes positions of
    the arrays, with finite twiddle factors. *)
Lemma cooley_tukey_ind_pow2 (Q : list number * list number → Prop)
    (real imag : list number) (k : nat) :
  length real = (2 ^ k)%nat →
  Q (real, imag) →
  (∀ wlen len i j ri, finite wlen → (i + j + len / 2 < 2 ^ k)%nat → Q ri →
     Q (butterfly host wlen len i j ri)) →
  Q (cooley_tukey host real imag).
Proof.
  intros Hlen Hinit Hbutterfly. unfold cooley_tukey. rewrite Hlen.
  set (N := (2 ^ k)%nat).
  destruct (for_doubling_ind_index (λ len st, (∃ m, len = 2 ^ S m)%nat ∧ Q st)
      N 2 N
      (λ len ri,
         let wlen := (num 2 * Math_PI / of_nat len)%num in
         for_stride N 0 N len
           (λ i ri, for_range 0 (len / 2) (λ j ri, butterfly host wlen len i j ri) ri)
           ri)
      (real, imag)) as (len' & _ & _ & Hfinal); [lia| | | |done].
  - pose proof (Nat.pow_gt_lin_r 2 N ltac:(lia)). lia.
  - split; [by exists 0%nat|done].
  - intros len st Hle [[m ->] Hst]. split; [exists (S m); by rewrite <- Nat.pow_succ_r'|].
    cbv zeta.
    destruct (for_stride_ind_index (λ i st, (∃ b, i = b * 2 ^ S m)%nat ∧ Q st)
        N 0 N (2 ^ S m)%nat
        (λ i ri, for_range 0 (2 ^ S m / 2)
                   (λ j ri, butterfly host (num 2 * Math_PI / of_nat (2 ^ S m))%num
                              (2 ^ S m) i j ri) ri)
        st) as (i' & _ & _ & Hstage); [apply pow2_pos| | | |done].
    + pose proof (pow2_pos (S m)). nia.
    + split; [by exists 0%nat|done].
    + intros i st' Hi [[b ->] Hst']. split; [exists (S b); lia|].
      pose proof (block_within k m b Hle Hi) as Hend.
      apply for_range_ind; [done|]. intros j ri Hj Hri.
      apply Hbutterfly; [apply twiddle_step_finite, pow2_pos| |done].
      rewrite pow2_half in *. rewrite Nat.pow_succ_r' in Hend |- *. unfold N. lia.
Qed.

Lemma fft_ind_pow2 (Q : list number → list number → Prop) (signal : list number)
    (k : nat) :
  length signal = (2 ^ k)%nat →
  Q signal (replicate (length signal) (num 0)) →
  (∀ re im i j, (i < 2 ^ k)%nat → (j < 2 ^ k)%nat →
     length re = (2 ^ k)%nat → length im = (2 ^ k)%nat → Q re im →
     Q (swap re i j) (swap im i j)) →
  (∀ wlen len i j re im, finite wlen → (i + j + len / 2 < 2 ^ k)%nat →
     length re = (2 ^ k)%nat → length im = (2 ^ k)%nat → Q re im →
     Q (butterfly host wlen len i j (re, im)).1 (butterfly host wlen len i j (re, im)).2) →
  Q (fft host signal).1 (fft host signal).2.
Proof.
  intros Hlen Hinit Hswap Hbutterfly. unfold fft.
  pose (Q' := λ re im : list number,
          length re = (2 ^ k)%nat ∧ length im = (2 ^ k)%nat ∧ Q re im).
  assert (Q' (bit_reversal signal (replicate (length signal) (num 0))).1
             (bit_reversal signal (replicate (length signal) (num 0))).2) as Hrev.
  { apply (bit_reversal_ind_pow2 Q' _ _ k); [done| |].
    - split_and!; [done|by rewrite length_replicate|done].
    - intros re im i j Hi Hj (Hre & Him & HQ). unfold Q', swap.
      rewrite !length_insert. split_and!; [done|done|]. by apply Hswap. }
  destruct (bit_reversal _ _) as [re im]. cbn [fst snd] in Hrev.
  destruct Hrev as (Hre & Him & HQ).
  apply (cooley_tukey_ind_pow2 (λ ri, Q' ri.1 ri.2) re im k); [done|done|].
  intros wlen len i j [re' im'] Hwlen Hrange (Hre' & Him' & HQ'). cbn [fst snd] in *.
  split_and!; [cbn [butterfly fst snd]; by rewrite !length_insert..|].
  by apply Hbutterfly.
Qed.

Lemma finite_get_in (a : list number) (i : nat) :
  Forall finite a → (i < length a)%nat → finite (get a i).
Proof. intros Ha Hi. destruct (finite_get a i Ha Hi) as [q ->]. by exists q. Qed.

Lemma finite_cos (x : number) : finite x → finite (Math_cos host x).
Proof. intros [q ->]. unfold Math_cos. destruct (Qeq_bool q 0); by eexists. Qed.

Lemma finite_sin (x : number) : finite x → finite (Math_sin host x).
Proof. intros [q ->]. unfold Math_sin. destruct (Qeq_bool q 0); by eexists. Qed.

Lemma finite_add (x y : number) : finite x → finite y → finite (x + y)%num.
Proof. intros [a ->] [b ->]. by eexists. Qed.

Lemma finite_sub (x y : number) : finite x → finite y → finite (x - y)%num.
Proof. intros [a ->] [b ->]. by eexists. Qed.

Lemma finite_mul (x y : number) : finite x → finite y → finite (x * y)%num.
Proof. intros [a ->] [b ->]. by eexists. Qed.

Lemma finite_of_nat (n : nat) : finite (of_nat n).
Proof. by eexists. Qed.

(** The transform of finite samples, of a power-of-two length, is finite:
    no entry is NaN or infinite. *)
Lemma fft_finite_pow2 (signal : list number) (k : nat) :
  length signal = (2 ^ k)%nat → Forall finite signal →
  Forall finite (fft host signal).1 ∧ Forall finite (fft host signal).2.
Proof.
  intros Hlen Hsignal.
  apply (fft_ind_pow2 (λ re im, Forall finite re ∧ Forall finite im) signal k); [done|..].
  - split; [done|]. apply Forall_replicate. by eexists.
  - intros re im i j Hi Hj Hre Him [Hfre Hfim]. unfold swap.
    split; repeat apply finite_insert; try done; apply finite_get_in; (done || lia).
  - intros wlen len i j re im Hwlen Hrange Hre Him [Hfre Hfim]. cbn [butterfly fst snd].
    assert (finite (get re (i + j)) ∧ finite (get im (i + j))
            ∧ finite (get re (i + j + len / 2)) ∧ finite (get im (i + j + len / 2)))
      as (Hu & Hv & Hx & Hy) by (split_and!; apply finite_get_in; (done || lia)).
    assert (finite (Math_cos host (wlen * of_nat j)) ∧ finite (Math_sin host (wlen * of_nat j)))
      as [Hwr Hwi]
      by (split; [apply finite_cos|apply finite_sin]; apply finite_mul;
          (done || apply finite_of_nat)).
    split; repeat apply finite_insert; try done;
      repeat first [apply finite_add|apply finite_sub|apply finite_mul]; done.
Qed.

Lemma mul_zero_r (x : number) : finite x → (x * num 0)%num = num 0.
Proof. intros [q ->]. apply fin_zero. change (Qred 0) with 0%Q. lra. Qed.

Lemma insert_zero (n i : nat) : <[i := num 0]> (replicate n (num 0)) = replicate n (num 0).
Proof.
  destruct (decide (i < n)%nat).
  - apply list_insert_id. by rewrite lookup_replicate_2.
  - apply list_insert_ge. rewrite length_replicate. lia.
Qed.

End TransformPow2.



(** X18. The transform of zeros, of a power-of-two length, is zeros in
    both parts. *)
Theorem fft_zeros_pow2 (host : HostMath) (k : nat) :
  fft host (replicate (2 ^ k) (num 0))
  = (replicate (2 ^ k) (num 0), replicate (2 ^ k) (num 0)).
Proof.
  pose proof (fft_ind_pow2 host
    (λ re im, re = replicate (2 ^ k) (num 0) ∧ im = replicate (2 ^ k) (num 0))
    (replicate (2 ^ k) (num 0)) k) as H.
  destruct (fft host (replicate (2 ^ k) (num 0))) as [re im]. cbn [fst snd] in H.
  destruct H as [-> ->]; [by rewrite length_replicate|by rewrite length_replicate|..|done].
  - intros re' im' i j Hi Hj _ _ [-> ->]. unfold swap, get.
    rewrite !lookup_replicate_2 by done. cbn [default].
    by rewrite !insert_zero.
  - intros wlen len i j re' im' Hwlen Hrange _ _ [-> ->]. cbn [butterfly fst snd].
    unfold get. rewrite !lookup_replicate_2 by lia. cbn [default].
    rewrite !mul_zero_r
      by (first [apply finite_cos|apply finite_sin]; apply finite_mul;
          (done || apply finite_of_nat)).
    change (num 0 - num 0)%num with (num 0). change (num 0 + num 0)%num with (num 0).
    change (num 0 - num 0)%num with (num 0).
    by rewrite !insert_zero.
Qed.

Lemma Qsum_cons (q : Q) (l : list Q) : Qsum (q :: l) = (q + Qsum l)%Q.
Proof. done. Qed.

Lemma Qsum_app (l1 l2 : list Q) : (Qsum (l1 ++ l2) == Qsum l1 + Qsum l2)%Q.
Proof.
  induction l1 as [|q l1 IH]; [simpl; change (Qsum []) with 0%Q; lra|].
  rewrite <- app_comm_cons, !Qsum_cons, IH. lra.
Qed.

Lemma block_sum_seq (f : nat → Q) (m b : nat) :
  (block_sum f m b == Qsum (f <$> seq (b * 2 ^ m) (2 ^ m)))%Q.
Proof.
  revert b. induction m as [|m IH]; intros b.
  - simpl. rewrite Nat.mul_1_r. simpl. rewrite Qsum_cons. change (Qsum []) with 0%Q. lra.
  - cbn [block_sum]. rewrite !IH. rewrite Nat.pow_succ_r'.
    replace (2 * 2 ^ m)%nat with (2 ^ m + 2 ^ m)%nat by lia.
    rewrite seq_app, fmap_app, Qsum_app.
    replace (2 * b * 2 ^ m)%nat with (b * (2 ^ m + 2 ^ m))%nat by lia.
    replace ((2 * b + 1) * 2 ^ m)%nat with (b * (2 ^ m + 2 ^ m) + 2 ^ m)%nat by lia.
    lra.
Qed.

Lemma Qsum_insert (a : list number) (i : nat) (x : number) :
  (i < length a)%nat →
  (Qsum (Qvalue <$> <[i := x]> a)
   == Qsum (Qvalue <$> a) - Qvalue (get a i) + Qvalue x)%Q.
Proof.
  revert i. induction a as [|y a IH]; intros i Hi; [simpl in Hi; lia|].
  destruct i as [|i]; simpl; rewrite !Qsum_cons.
  - unfold get. simpl. lra.
  - rewrite IH by (simpl in Hi; lia). unfold get. simpl.
    change (list_fmap number Q Qvalue a) with (Qvalue <$> a). lra.
Qed.

Lemma Qsum_swap (a : list number) (i j : nat) :
  (i < length a)%nat → (j < length a)%nat →
  (Qsum (Qvalue <$> swap a i j) == Qsum (Qvalue <$> a))%Q.
Proof.
  intros Hi Hj. unfold swap.
  rewrite Qsum_insert by by rewrite length_insert.
  rewrite Qsum_insert by done.
  assert (get (<[i := get a j]> a) j = get a j) as ->.
  { unfold get. destruct (decide (i = j)) as [->|Hne].
    - by rewrite list_lookup_insert_eq.
    - by rewrite list_lookup_insert_ne. }
  lra.
Qed.

Lemma Qsum_get (a : list number) :
  (λ p, Qvalue (get a p)) <$> seq 0 (length a) = Qvalue <$> a.
Proof.
  apply list_eq. intros i. rewrite !list_lookup_fmap.
  destruct (decide (i < length a)%nat) as [Hi|Hi].
  - rewrite lookup_seq_lt by done.
    destruct (lookup_lt_is_Some_2 _ _ Hi) as [x Hx]. rewrite Hx. simpl.
    unfold get. by rewrite Hx.
  - rewrite lookup_seq_ge by lia. by rewrite (proj2 (lookup_ge_None _ _)) by lia.
Qed.

Lemma foldl_add_denotes (l : list number) (acc : number) (a : Q) :
  Forall finite l → denotes acc a →
  denotes (foldl (λ sum x, sum + x)%num acc l) (a + Qsum (Qvalue <$> l)).
Proof.
  intros Hl. revert acc a. induction Hl as [|x l [q ->] _ IH]; intros acc a Hacc.
  - cbn [foldl]. eapply denotes_proper; [|done].
    change (Qsum (Qvalue <$> [])) with 0%Q. lra.
  - cbn [foldl]. rewrite fmap_cons, Qsum_cons.
    eapply denotes_proper; [|apply IH; apply denotes_add; [done|apply denotes_Finite]].
    cbn [Qvalue]. lra.
Qed.

Section TransformSum.
Context (host : HostMath).

Lemma butterfly_get_ne (wlen : number) (len i j : nat)
    (ri : list number * list number) (p : nat) :
  p ≠ (i + j)%nat → p ≠ (i + j + len / 2)%nat →
  get (butterfly host wlen len i j ri).1 p = get ri.1 p
  ∧ get (butterfly host wlen len i j ri).2 p = get ri.2 p.
Proof.
  intros H1 H2. destruct ri as [re im]. cbn [butterfly fst snd]. unfold get.
  by rewrite !list_lookup_insert_ne.
Qed.

Lemma butterfly_length (wlen : number) (len i j : nat) (ri : list number * list number) :
  length (butterfly host wlen len i j ri).1 = length ri.1
  ∧ length (butterfly host wlen len i j ri).2 = length ri.2.
Proof. destruct ri as [re im]. cbn [butterfly fst snd]. by rewrite !length_insert. Qed.

Lemma twiddle_zero (wlen : number) :
  finite wlen →
  Math_cos host (wlen * of_nat 0) = num 1 ∧ Math_sin host (wlen * of_nat 0) = num 0.
Proof.
  intros [w ->]. unfold Math_cos, Math_sin, of_nat, of_Z, mul, fin.
  assert (Qeq_bool (Qred (w * inject_Z (Z.of_nat 0))) 0 = true) as ->; [|done].
  apply Qeq_bool_iff. rewrite Qred_correct. change (inject_Z (Z.of_nat 0)) with 0%Q. lra.
Qed.

(** The butterflies of the block at [i = b * len]: the first adds the
    heads of the two halves of the block, and the others leave every
    position that is a multiple of [h = len / 2] alone. *)
Lemma block_heads (wlen : number) (h i : nat) (ri : list number * list number)
    (u x : Q) :
  finite wlen → (0 < h)%nat → (i + h < length ri.1)%nat → (i + h < length ri.2)%nat →
  (h | i)%nat →
  denotes (get ri.1 i) u → denotes (get ri.2 i) 0 →
  denotes (get ri.1 (i + h)) x → denotes (get ri.2 (i + h)) 0 →
  let ri' := for_range 0 h (λ j ri, butterfly host wlen (2 * h) i j ri) ri in
  length ri'.1 = length ri.1 ∧ length ri'.2 = length ri.2
  ∧ denotes (get ri'.1 i) (u + x) ∧ denotes (get ri'.2 i) 0
  ∧ ∀ p, (h | p)%nat → p ≠ i → p ≠ (i + h)%nat →
      get ri'.1 p = get ri.1 p ∧ get ri'.2 p = get ri.2 p.
Proof.
  intros Hwlen Hh Hre Him [c ->] Hu Hv Hx Hy. cbv zeta.
  assert (2 * h / 2 = h)%nat as Hhalf by (by rewrite Nat.mul_comm, Nat.div_mul).
  rewrite for_range_first by done.
  set (first := butterfly host wlen (2 * h) (c * h) 0 ri).
  assert (length first.1 = length ri.1 ∧ length first.2 = length ri.2
          ∧ denotes (get first.1 (c * h)) (u + x) ∧ denotes (get first.2 (c * h)) 0
          ∧ ∀ p, p ≠ (c * h)%nat → p ≠ (c * h + h)%nat →
              get first.1 p = get ri.1 p ∧ get first.2 p = get ri.2 p)
    as (Hlen1 & Hlen2 & Hhead1 & Hhead2 & Hrest).
  { destruct (butterfly_length wlen (2 * h) (c * h) 0 ri) as [? ?].
    split_and!; [done|done| | |].
    - subst first. destruct ri as [re im]. cbn [butterfly fst snd] in *.
      rewrite Hhalf, !Nat.add_0_r.
      destruct (twiddle_zero wlen Hwlen) as [-> ->].
      unfold get at 1. rewrite list_lookup_insert_ne by lia.
      rewrite list_lookup_insert_eq by lia. cbn [default].
      eapply denotes_proper; [|eauto 10 with denotes]. lra.
    - subst first. destruct ri as [re im]. cbn [butterfly fst snd] in *.
      rewrite Hhalf, !Nat.add_0_r.
      destruct (twiddle_zero wlen Hwlen) as [-> ->].
      unfold get at 1. rewrite list_lookup_insert_ne by lia.
      rewrite list_lookup_insert_eq by lia. cbn [default].
      eapply denotes_proper; [|eauto 10 with denotes]. lra.
    - intros p Hp1 Hp2. apply butterfly_get_ne; rewrite ?Hhalf; lia. }
  clearbody first.
  apply (for_range_ind (λ st,
    length st.1 = length ri.1 ∧ length st.2 = length ri.2
    ∧ denotes (get st.1 (c * h)) (u + x) ∧ denotes (get st.2 (c * h)) 0
    ∧ ∀ p, (h | p)%nat → p ≠ (c * h)%nat → p ≠ (c * h + h)%nat →
        get st.1 p = get ri.1 p ∧ get st.2 p = get ri.2 p)).
  - split_and!; [done..|]. intros p _. apply Hrest.
  - intros j st Hj (Hl1 & Hl2 & Hh1 & Hh2 & Hothers).
    destruct (butterfly_length wlen (2 * h) (c * h) j st) as [-> ->].
    assert (∀ p, (h | p)%nat →
              get (butterfly host wlen (2 * h) (c * h) j st).1 p = get st.1 p
              ∧ get (butterfly host wlen (2 * h) (c * h) j st).2 p = get st.2 p) as Hkeep.
    { intros p [d ->]. apply butterfly_get_ne; rewrite ?Hhalf.
      - intros Heq. assert (d = c) by nia. nia.
      - intros Heq. assert (d = c + 1)%nat by nia. nia. }
    split_and!; [done|done| | |].
    + by rewrite (proj1 (Hkeep (c * h)%nat ltac:(by exists c))).
    + by rewrite (proj2 (Hkeep (c * h)%nat ltac:(by exists c))).
    + intros p Hp Hp1 Hp2. destruct (Hkeep p Hp) as [-> ->]. by apply Hothers.
Qed.

End TransformSum.

Section TransformDC.
Context (host : HostMath) (f : nat → Q) (k : nat).

Lemma stage_heads (m : nat) (ri : list number * list number) :
  (2 ^ S m ≤ 2 ^ k)%nat → heads_at f k m ri →
  heads_at f k (S m)
    (for_stride (2 ^ k) 0 (2 ^ k) (2 ^ S m)
       (λ i ri, for_range 0 (2 ^ S m / 2)
                  (λ j ri, butterfly host (num 2 * Math_PI / of_nat (2 ^ S m))%num
                             (2 ^ S m) i j ri) ri)
       ri).
Proof.
  intros Hle (Hre & Him & Hheads).
  set (h := (2 ^ m)%nat) in *. pose proof (pow2_pos m) as Hh. fold h in Hh.
  assert (2 ^ S m = 2 * h)%nat as Hlen by apply Nat.pow_succ_r'.
  rewrite pow2_half. fold h.
  destruct (for_stride_ind_index (λ i st, ∃ b,
      i = (b * 2 ^ S m)%nat
      ∧ length st.1 = (2 ^ k)%nat ∧ length st.2 = (2 ^ k)%nat
      ∧ (∀ c, (c < b)%nat → (c * 2 ^ S m < 2 ^ k)%nat →
           denotes (get st.1 (c * 2 ^ S m)) (block_sum f (S m) c)
           ∧ denotes (get st.2 (c * 2 ^ S m)) 0)
      ∧ ∀ c, (2 * b ≤ c)%nat → (c * h < 2 ^ k)%nat →
          denotes (get st.1 (c * h)) (block_sum f m c) ∧ denotes (get st.2 (c * h)) 0)
      (2 ^ k)%nat 0%nat (2 ^ k)%nat (2 ^ S m)%nat
      (λ i ri, for_range 0 h
                 (λ j ri, butterfly host (num 2 * Math_PI / of_nat (2 ^ S m))%num
                            (2 ^ S m) i j ri) ri)
      ri) as (i' & Hi' & b & -> & Hre' & Him' & Hnew & _).
  - apply pow2_pos.
  - pose proof (pow2_pos (S m)). nia.
  - exists 0%nat. split_and!; [done|done|done| |].
    + intros c Hc. lia.
    + intros c _ Hc. by apply Hheads.
  - intros i st Hi (b & -> & Hre' & Him' & Hnew & Hold).
    pose proof (block_within k m b Hle Hi) as Hend.
    destruct (Hold (2 * b)%nat ltac:(lia) ltac:(nia)) as [Hu Hv].
    destruct (Hold (2 * b + 1)%nat ltac:(lia) ltac:(nia)) as [Hx Hy].
    replace (2 * b * h)%nat with (b * 2 ^ S m)%nat in Hu, Hv by lia.
    replace ((2 * b + 1) * h)%nat with (b * 2 ^ S m + h)%nat in Hx, Hy by lia.
    rewrite Hlen.
    destruct (block_heads host (num 2 * Math_PI / of_nat (2 * h))%num h (b * (2 * h)) st
                (block_sum f m (2 * b)) (block_sum f m (2 * b + 1)))
      as (Hre'' & Him'' & Hhead1 & Hhead2 & Hothers).
    { apply twiddle_step_finite. lia. }
    { done. }
    { lia. }
    { lia. }
    { exists (2 * b)%nat. lia. }
    { by rewrite <- Hlen. }
    { by rewrite <- Hlen. }
    { by rewrite <- Hlen. }
    { by rewrite <- Hlen. }
    exists (S b). split_and!; [lia|lia|lia| |].
    + intros c Hc Hc'. destruct (decide (c = b)) as [->|Hne].
      * done.
      * destruct (Hothers (c * (2 * h))%nat) as [-> ->];
          [exists (2 * c)%nat; lia|nia|nia|].
        rewrite <- Hlen. apply Hnew; [lia|]. by rewrite Hlen.
    + intros c Hc Hc'.
      destruct (Hothers (c * h)%nat) as [-> ->]; [by exists c|nia|nia|].
      apply Hold; [lia|done].
  - split_and!; [done|done|]. intros c Hc. apply Hnew; [nia|done].
Qed.

Lemma cooley_tukey_heads (real imag : list number) :
  heads_at f k 0 (real, imag) → heads_at f k k (cooley_tukey host real imag).
Proof.
  intros Hinit. unfold cooley_tukey.
  destruct Hinit as (Hre & Him & Hheads). cbn [fst snd] in *. rewrite Hre.
  set (N := (2 ^ k)%nat).
  destruct (for_doubling_ind_index (λ len st, ∃ m,
      len = (2 ^ S m)%nat ∧ (m ≤ k)%nat ∧ heads_at f k m st)
      N 2 N
      (λ len ri,
         let wlen := (num 2 * Math_PI / of_nat len)%num in
         for_stride N 0 N len
           (λ i ri, for_range 0 (len / 2) (λ j ri, butterfly host wlen len i j ri) ri)
           ri)
      (real, imag)) as (len' & Hlen' & m & -> & Hm & Hfinal).
  - lia.
  - pose proof (Nat.pow_gt_lin_r 2 N ltac:(lia)). lia.
  - exists 0%nat. split_and!; [done|lia|]. by split_and!.
  - intros len st Hle (m & -> & Hm & Hst). exists (S m).
    assert (S m ≤ k)%nat by (apply (Nat.pow_le_mono_r_iff 2); [lia|done]).
    split_and!; [by rewrite <- Nat.pow_succ_r'|done|]. by apply stage_heads.
  - assert (k < S m)%nat by (apply (Nat.pow_lt_mono_r_iff 2); [lia|done]).
    assert (m = k) as -> by lia. done.
Qed.

End TransformDC.



Section TransformOddFactor.
Context (host : HostMath).

Lemma block_length (wlen : number) (len i n : nat) (ri : list number * list number) :
  length (for_range 0 n (λ j ri, butterfly host wlen len i j ri) ri).1 = length ri.1.
Proof.
  apply (for_range_ind (λ st, length st.1 = length ri.1)); [done|].
  intros j st _ <-. apply butterfly_length.
Qed.

(** The stage of block length [2 ^ S m] on an array of [2 ^ m * (2 b + 3)]
    entries: the last block is cut short, its first butterfly reads past
    the end, and the entry it writes is NaN. *)
Lemma stage_past_end (wlen : number) (m b : nat) (ri : list number * list number) :
  length ri.1 = (2 ^ m * (2 * b + 3))%nat →
  get (for_stride (length ri.1) 0 (length ri.1) (2 ^ S m)
         (λ i ri, for_range 0 (2 ^ S m / 2)
                    (λ j ri, butterfly host wlen (2 ^ S m) i j ri) ri)
         ri).1 (length ri.1 - 2 ^ m) = NaN.
Proof.
  intros Hlen. pose proof (pow2_pos m) as Hh. pose proof (Nat.pow_succ_r' 2 m) as HL.
  set (N := length ri.1) in *. set (h := (2 ^ m)%nat) in *. set (L := (2 ^ S m)%nat) in *.
  assert (N - h = (b + 1) * L)%nat as Hpos by lia.
  destruct (for_stride_ind_index (λ i st, ∃ c,
      i = (c * L)%nat ∧ length st.1 = N ∧ (b + 1 < c → get st.1 (N - h) = NaN)%nat)
      N 0 N L
      (λ i ri, for_range 0 (L / 2) (λ j ri, butterfly host wlen L i j ri) ri) ri)
    as (i' & Hi' & c & -> & _ & Hbad); [lia|nia| | |].
  - exists 0%nat. split_and!; [done|done|lia].
  - intros i st Hi (c & -> & Hst & Hbad).
    destruct (block_NaN host wlen L (c * L) st) as [Hkeep Hblock].
    exists (S c). split_and!; [lia|by rewrite block_length|].
    intros Hc. destruct (decide (c = b + 1)%nat) as [->|Hne].
    + destruct (Hblock 0%nat) as [Hfirst _].
      * unfold L. rewrite pow2_half. lia.
      * right. apply get_beyond. unfold L at 2. rewrite pow2_half. fold h. lia.
      * rewrite Hpos. by rewrite Nat.add_0_r in Hfirst.
    + apply Hkeep, Hbad. lia.
  - apply Hbad. nia.
Qed.

Lemma cooley_tukey_past_end (real imag : list number) (m b : nat) :
  length real = (2 ^ m * (2 * b + 3))%nat →
  get (cooley_tukey host real imag).1 (length real - 2 ^ m) = NaN.
Proof.
  intros Hlen. unfold cooley_tukey.
  pose proof (pow2_pos m) as Hh. pose proof (Nat.pow_succ_r' 2 m) as HL.
  set (N := length real) in *.
  destruct (for_doubling_ind_index (λ len st, ∃ a,
      len = (2 ^ S a)%nat ∧ length st.1 = N ∧ (m < a → get st.1 (N - 2 ^ m) = NaN)%nat)
      N 2 N
      (λ len ri,
         let wlen := (num 2 * Math_PI / of_nat len)%num in
         for_stride N 0 N len
           (λ i ri, for_range 0 (len / 2) (λ j ri, butterfly host wlen len i j ri) ri)
           ri)
      (real, imag)) as (len' & Hlen' & a & -> & _ & Hbad).
  - lia.
  - pose proof (Nat.pow_gt_lin_r 2 N ltac:(lia)). lia.
  - exists 0%nat. split_and!; [done|done|lia].
  - intros len st Hle (a & -> & Hst & Hbad). cbv zeta.
    destruct (stage_NaN host (num 2 * Math_PI / of_nat (2 ^ S a))%num (2 ^ S a) N st)
      as [Hkeep _]; [apply pow2_pos|].
    exists (S a). split_and!; [by rewrite <- Nat.pow_succ_r'| |].
    + apply (for_stride_ind (λ st', length st'.1 = N)); [done|].
      intros i st' <-. apply block_length.
    + intros Ha. destruct (decide (a = m)) as [->|Hne].
      * rewrite <- Hst. apply (stage_past_end _ m b). by rewrite Hst.
      * apply Hkeep, Hbad. lia.
  - apply Hbad. apply (Nat.pow_lt_mono_r_iff 2); [lia|].
    pose proof (Nat.pow_succ_r' 2 a). nia.
Qed.

Lemma bit_reversal_length (real imag : list number) :
  length (bit_reversal real imag).1 = length real.
Proof.
  unfold bit_reversal.
  loop_invariant (λ st : Z * list number * list number, length st.1.2 = length real).
  - done.
  - intros i [[j re] im] _ Hre. cbn [fst snd] in *.
    destruct (_ <? _); cbn [fst snd]; [|done]. unfold swap. by rewrite !length_insert.
  - by destruct (for_range _ _ _ _) as [[??]?].
Qed.

End TransformOddFactor.

(** X20. When the length of the signal is not a power of two, that is,
    [2 ^ m] times an odd number of 3 or more, the transform reads past the
    end of its arrays, and the real part at index [length - 2 ^ m] is NaN,
    whatever the samples are. *)
Theorem fft_odd_factor (host : HostMath) (signal : list number) (m b : nat) :
  length signal = (2 ^ m * (2 * b + 3))%nat →
  get (fft host signal).1 (length signal - 2 ^ m) = NaN.
Proof.
  intros Hlen. unfold fft.
  pose proof (bit_reversal_length signal (replicate (length signal) (num 0))) as Hrev.
  destruct (bit_reversal _ _) as [real imag]. cbn [fst] in Hrev.
  rewrite <- Hrev. apply (cooley_tukey_past_end host real imag m b). by rewrite Hrev.
Qed.

Lemma fft_odd_factor_witness :
  get (fft coarseHost [num 1; num 2; num 3]).1 2 = NaN.
Proof. exact (fft_odd_factor coarseHost [num 1; num 2; num 3] 0 0 eq_refl). Defined.

(** ** Spectrogram Builder: the values of a frame *)

Lemma spectrogram_frame_unfold
    (host : HostMath) (this : AudioProcessor) (audioData : list number) (frame : nat) :
  0 ≤ windowSize (settings this) → Z.even (windowSize (settings this)) = true →
  let transform := fft host (windowed_frame this audioData frame) in
  spectrogram_frame host this audioData frame
  = Return (normalized_db host <$> getMagnitudeSpectrum host transform.1 transform.2).
Proof.
  intros Hws Heven. cbv zeta. unfold spectrogram_frame.
  rewrite new_Float32Array_nonneg, bind_Return by done.
  rewrite (for_range_fill_guarded
             (λ i, (getZ audioData (Z.of_nat frame * hopSize (settings this) + Z.of_nat i)
                    * get (windowFunction this) i)%num)
             (λ i, Z.of_nat frame * hopSize (settings this) + Z.of_nat i
                   <? Z.of_nat (length audioData))).
  fold (windowed_frame this audioData frame).
  pose proof (fft_length host (windowed_frame this audioData frame)) as [Hreal _].
  assert (length (windowed_frame this audioData frame)
          = Z.to_nat (windowSize (settings this))) as Hsignal
    by (unfold windowed_frame; by rewrite length_fmap, length_seq).
  destruct (fft host (windowed_frame this audioData frame)) as [real imag].
  cbn [fst snd] in *. rewrite new_Array_half, bind_Return by done.
  assert (length (getMagnitudeSpectrum host real imag)
          = Z.to_nat (windowSize (settings this) `div` 2)) as Hlen.
  { rewrite getMagnitudeSpectrum_length, Hreal, Hsignal.
    rewrite Z2Nat.inj_div by lia. done. }
  unfold mret, outcome_ret. f_equal. rewrite length_replicate.
  rewrite (for_range_fill (λ i, normalized_db host (get (getMagnitudeSpectrum host real imag) i)))
    by by rewrite length_replicate.
  rewrite <- Hlen. apply list_eq. intros i. rewrite !list_lookup_fmap.
  destruct (decide (i < length (getMagnitudeSpectrum host real imag))%nat) as [Hi|Hi].
  - rewrite lookup_seq_lt by done. simpl. unfold get.
    by destruct (lookup_lt_is_Some_2 _ _ Hi) as [x ->].
  - rewrite lookup_seq_ge by lia. by rewrite (proj2 (lookup_ge_None _ _)) by lia.
Qed.

(** A level that is a finite number and not negative. *)
Lemma nonnegative_normalized_db (host : HostMath) (x : number) :
  finite x → nonnegative (normalized_db host x).
Proof.
  intros [q ->]. unfold normalized_db.
  destruct (denotes_max (Finite q) (num 1e-10) q 1e-10 (denotes_Finite q)
              (denotes_num _)) as (m & -> & Hm).
  assert (0 < m)%Q as Hpos.
  { rewrite Hm. eapply Qlt_le_trans; [|apply Q.le_max_r]. reflexivity. }
  assert (∃ l, Math_log10 host (Finite m) = Finite l) as [l ->].
  { unfold Math_log10. rewrite Qeq_bool_false by lra.
    destruct (Qeq_bool m 1); [by eexists|].
    rewrite (proj2 (Qle_bool_iff 0 m)) by lra. by eexists. }
  assert (denotes ((num 20 * Finite l + num 100) / num 100)%num ((20 * l + 100) / 100))
    as Hdb by (apply denotes_div; eauto with denotes; lra).
  destruct (denotes_max _ _ _ _ (denotes_num 0) Hdb) as (v & -> & Hv).
  exists v. split; [done|]. rewrite Hv. apply Q.le_max_l.
Qed.

Lemma finite_sqrt_square_sum (host : HostMath) (x y : number) :
  finite x → finite y → finite (Math_sqrt host (x * x + y * y)%num).
Proof.
  intros [a ->] [b ->]. unfold Math_sqrt, mul, add, fin.
  destruct (Qeq_bool _ 0); [by eexists|].
  rewrite (proj2 (Qle_bool_iff 0 _)); [by eexists|].
  rewrite !Qred_correct. nra.
Qed.

Lemma window_coefficient_finite (host : HostMath) (size : Z) (i : nat) :
  size ≠ 1 → finite (window_coefficient host size i).
Proof.
  intros Hsize. unfold window_coefficient. cbv zeta.
  assert (∀ c, finite (num c * Math_PI * of_nat i / (of_Z size - num 1))%num) as Hangle.
  { intros c. destruct (denotes_div (num c * Math_PI * of_nat i)%num
                          (of_Z size - num 1)%num
                          (c * (884279719003555 # 281474976710656) * inject_Z (Z.of_nat i))
                          (inject_Z size - 1)) as (q & -> & _).
    - unfold Math_PI. eauto with denotes.
    - eauto with denotes.
    - intros Heq. assert (inject_Z size == inject_Z 1)%Q as Heq'
        by (change (inject_Z 1) with 1%Q; lra).
      by apply (proj1 (inject_Z_injective _ _)) in Heq'.
    - by exists q. }
  repeat first [apply finite_add|apply finite_sub|apply finite_mul|apply finite_cos
               |apply Hangle|apply finite_num].
Qed.

Lemma finite_getZ_in (a : list number) (i : Z) :
  Forall finite a → 0 ≤ i < Z.of_nat (length a) → finite (getZ a i).
Proof.
  intros Ha Hi. unfold getZ. rewrite (proj2 (Z.ltb_ge _ _)) by lia.
  apply finite_get_in; [done|lia].
Qed.

Lemma windowed_frame_finite (this : AudioProcessor) (audioData : list number)
    (frame : nat) :
  0 ≤ hopSize (settings this) →
  Forall finite audioData → Forall finite (windowFunction this) →
  (Z.to_nat (windowSize (settings this)) ≤ length (windowFunction this))%nat →
  Forall finite (windowed_frame this audioData frame).
Proof.
  intros Hhop Hdata Hwindow Hlen. unfold windowed_frame.
  apply Forall_fmap, Forall_forall. intros i Hi. apply elem_of_seq in Hi.
  unfold compose. cbv beta.
  destruct (Z.ltb_spec (Z.of_nat frame * hopSize (settings this) + Z.of_nat i)
              (Z.of_nat (length audioData))); [|apply finite_num].
  apply finite_mul; [apply finite_getZ_in; [done|nia]|apply finite_get_in; [done|lia]].
Qed.

(** For finite samples and a power-of-two window of two or more samples
    every spectrogram value is a finite number and not negative. *)
Lemma spectrogram_frame_nonnegative
    (host : HostMath) (this : AudioProcessor) (audioData : list number) (frame k : nat) :
  windowSize (settings this) = 2 ^ Z.of_nat (S k) → 0 ≤ hopSize (settings this) →
  Forall finite audioData → Forall finite (windowFunction this) →
  (Z.to_nat (windowSize (settings this)) ≤ length (windowFunction this))%nat →
  ∃ magnitudeDB, spectrogram_frame host this audioData frame = Return magnitudeDB
                 ∧ Forall nonnegative magnitudeDB.
Proof.
  intros Hws Hhop Hdata Hwindow Hlen.
  assert (0 < 2 ^ Z.of_nat k) as Hpos by (apply Z.pow_pos_nonneg; lia).
  assert (windowSize (settings this) = 2 * 2 ^ Z.of_nat k) as Hws'.
  { rewrite Hws, Nat2Z.inj_succ, Z.pow_succ_r by lia. done. }
  rewrite spectrogram_frame_unfold; [|lia|by rewrite Hws', Z.even_mul].
  eexists. split; [done|].
  destruct (fft_finite_pow2 host (windowed_frame this audioData frame) (S k))
    as [Hre Him].
  { unfold windowed_frame. rewrite length_fmap, length_seq, Hws.
    rewrite <- pow2_nat_Z. apply Nat2Z.id. }
  { by apply windowed_frame_finite. }
  pose proof (fft_length host (windowed_frame this audioData frame)) as [Hlenre Hlenim].
  destruct (fft host (windowed_frame this audioData frame)) as [re im]. cbn [fst snd] in *.
  apply Forall_fmap. rewrite getMagnitudeSpectrum_unfold. apply Forall_fmap, Forall_forall.
  intros i Hi. apply elem_of_seq in Hi. unfold compose. cbv beta.
  pose proof (Nat.Div0.div_le_upper_bound (length re) 2 (length re) ltac:(lia)).
  apply nonnegative_normalized_db, finite_sqrt_square_sum; apply finite_get_in; (done || lia).
Qed.

Lemma spectrogram_frames_nonnegative
    (host : HostMath) (this : AudioProcessor) (audioData : list number) (k : nat)
    (frames : list nat) :
  windowSize (settings this) = 2 ^ Z.of_nat (S k) → 0 ≤ hopSize (settings this) →
  Forall finite audioData → Forall finite (windowFunction this) →
  (Z.to_nat (windowSize (settings this)) ≤ length (windowFunction this))%nat →
  ∃ spectrogram, spectrogram_frames host this audioData frames = Return spectrogram
                 ∧ Forall (Forall nonnegative) spectrogram.
Proof.
  intros Hws Hhop Hdata Hwindow Hlen. induction frames as [|frame frames IH].
  - by exists [].
  - cbn [spectrogram_frames].
    destruct (spectrogram_frame_nonnegative host this audioData frame k)
      as (magnitudeDB & -> & Hframe); [done..|].
    destruct IH as (spectrogram & -> & Hrest).
    rewrite !bind_Return. eexists. split; [done|]. by constructor.
Qed.



(** ** Envelope Extractor: an odd window width *)

Lemma envelope_window_NaN (fuel : nat) (audioData : list number) (j e : number)
    (count : nat) :
  (envelope_window fuel audioData j e NaN count).1 = NaN
  ∧ (count ≤ (envelope_window fuel audioData j e NaN count).2)%nat.
Proof.
  revert j count. induction fuel as [|fuel IH]; intros j count; cbn [envelope_window].
  - done.
  - destruct (j <? e)%num; [|done].
    destruct (IH (j + num 1)%num (S count)) as [IH1 IH2].
    change (NaN + abs (get_num audioData j))%num with NaN.
    split; [done|lia].
Qed.

Lemma to_index_fraction (x : number) (z : Z) :
  denotes x (inject_Z z + (1 # 2)) → to_index x = None.
Proof.
  intros (q & -> & Hq). unfold to_index.
  assert (Qeq_bool q (inject_Z (Qfloor q)) = false) as ->; [|done].
  apply Qeq_bool_false. intros Heq.
  assert (inject_Z (2 * Qfloor q) == inject_Z (2 * z + 1))%Q as Hparity.
  { rewrite inject_Z_plus, !inject_Z_mult. change (inject_Z 2) with 2%Q.
    change (inject_Z 1) with 1%Q. lra. }
  apply (proj1 (inject_Z_injective _ _)) in Hparity. lia.
Qed.

(** With an odd window width [2 h + 1] the window of an entry beyond
    index [h] starts at a fractional index: its first read is
    [undefined], and the entry is NaN. *)
Lemma envelope_at_odd (audioData : list number) (h : Z) (i : nat) :
  0 ≤ h → h < Z.of_nat i → (i < length audioData)%nat →
  envelope_at audioData (of_Z (2 * h + 1)) i = NaN.
Proof.
  intros Hh Hi Hlen. unfold envelope_at.
  set (half := (of_Z (2 * h + 1) / num 2)%num).
  assert (denotes half (inject_Z h + (1 # 2))) as Hhalf.
  { eapply denotes_proper; [|apply denotes_div; [apply denotes_of_Z|apply denotes_num|done]].
    rewrite inject_Z_plus, inject_Z_mult. change (inject_Z 2) with 2%Q.
    change (inject_Z 1) with 1%Q. field. }
  set (start := max (num 0) (of_nat i - half)).
  set (end_ := min (of_nat (length audioData)) (of_nat i + half)).
  assert (denotes start (inject_Z (Z.of_nat i - h - 1) + (1 # 2))) as Hstart.
  { eapply denotes_proper; [|unfold start; eauto with denotes].
    rewrite Q.max_r.
    - unfold Z.sub. rewrite !inject_Z_plus, !inject_Z_opp. change (inject_Z 1) with 1%Q. lra.
    - assert (inject_Z h + 1 <= inject_Z (Z.of_nat i))%Q.
      { change 1%Q with (inject_Z 1). rewrite <- inject_Z_plus, <- Zle_Qle. lia. }
      lra. }
  assert (∃ e, denotes end_ e ∧ (inject_Z (Z.of_nat i - h - 1) + (1 # 2) < e)%Q)
    as (e & Hend & Hlt).
  { eexists. split; [unfold end_; eauto with denotes|].
    assert (inject_Z (Z.of_nat i - h - 1) + 1 <= inject_Z (Z.of_nat i))%Q.
    { change 1%Q with (inject_Z 1). rewrite <- inject_Z_plus, <- Zle_Qle. lia. }
    assert (inject_Z (Z.of_nat i) + 1 <= inject_Z (Z.of_nat (length audioData)))%Q.
    { change 1%Q with (inject_Z 1). rewrite <- inject_Z_plus, <- Zle_Qle. lia. }
    assert (0 <= inject_Z h)%Q by (apply inject_Z_nonneg; lia).
    apply Q.min_glb_lt; lra. }
  cbn [envelope_window].
  rewrite (proj2 (denotes_lt start end_ _ _ Hstart Hend)) by done.
  unfold get_num. rewrite (to_index_fraction start _ Hstart).
  change (num 0 + abs NaN)%num with NaN.
  destruct (envelope_window_NaN (length audioData) audioData (start + num 1)%num end_ 1)
    as [Hsum Hcount].
  destruct (envelope_window _ _ _ _ NaN 1) as [sum count]. cbn [fst snd] in *. subst sum.
  destruct (Nat.ltb_spec 0 count); [done|lia].
Qed.

(** X22. When the window width [floor(sampleRate * 0.01)] is odd,
    [2 h + 1], every entry of the envelope at an index above [h] is NaN:
    the window then starts at a fractional index.  At 44100 Hz the width is
    441, and every entry from index 221 on is NaN. *)
Theorem calculateEnvelope_odd_width (r : Q) (h : Z) (audioData : list number) (i : nat) :
  Qfloor (r * 0.01) = 2 * h + 1 → 0 ≤ h →
  h < Z.of_nat i → (i < length audioData)%nat →
  calculateEnvelope (Finite r) audioData !! i = Some NaN.
Proof.
  intros Hfloor Hh Hi Hlen. rewrite calculateEnvelope_unfold.
  rewrite list_lookup_fmap, lookup_seq_lt by done.
  cbn [fmap option_fmap option_map Nat.add]. f_equal.
  assert (floor (Finite r * num 0.01)%num = of_Z (2 * h + 1)) as ->.
  { unfold floor, mul, num, fin. f_equal. rewrite <- Hfloor.
    apply Qfloor_comp. rewrite !Qred_correct. done. }
  by apply envelope_at_odd.
Qed.

Lemma calculateEnvelope_odd_width_witness :
  calculateEnvelope (Finite 44100) (replicate 223 (num 0.5)) !! 222%nat = Some NaN.
Proof.
  apply (calculateEnvelope_odd_width 44100 220); [reflexivity|lia|lia|].
  rewrite length_replicate. lia.
Defined.

(** ** The display: colours and cents *)

Lemma Math_round_channel (x : number) (v : Q) :
  denotes x v → (0 <= v)%Q → (v <= 1)%Q → channel (Math_round (x * num 255)).
Proof.
  intros Hx H0 H1.
  destruct (denotes_mul x (num 255) v 255 Hx (denotes_num _)) as (q & -> & Hq).
  unfold Math_round. eexists. split; [done|]. split.
  - change 0 with (Qfloor 0). apply Qfloor_resp_le. rewrite Hq. lra.
  - change 255 with (Qfloor (255 + (1 # 2))). apply Qfloor_resp_le. rewrite Hq. lra.
Qed.

Lemma hue2rgb_between (p q t : number) (vp vq vt : Q) :
  denotes p vp → denotes q vq → denotes t vt →
  (vp <= vq)%Q → (- (1 # 3) <= vt)%Q → (vt <= 4 # 3)%Q →
  ∃ v, denotes (hue2rgb p q t) v ∧ (vp <= v)%Q ∧ (v <= vq)%Q.
Proof.
  intros Hp Hq Ht Hpq Hlo Hhi. unfold hue2rgb.
  assert (∃ t1 v1, (if (t <? num 0)%num then (t + num 1)%num else t) = t1
                   ∧ denotes t1 v1 ∧ (0 <= v1)%Q ∧ (v1 <= 4 # 3)%Q
                   ∧ (1 < v1 → v1 == vt)%Q)
    as (t1 & v1 & -> & Ht1 & H10 & H11 & H12).
  { destruct (t <? num 0)%num eqn:Hneg.
    - apply (denotes_lt t (num 0) vt 0 Ht (denotes_num _)) in Hneg.
      exists (t + num 1)%num, (vt + 1)%Q.
      split_and!; [done|eauto with denotes|lra|lra|lra].
    - apply (denotes_lt_false t (num 0) vt 0 Ht (denotes_num _)) in Hneg.
      exists t, vt. split_and!; [done|done|lra|lra|lra]. }
  assert (∃ t2 v2, (if (t1 >? num 1)%num then (t1 - num 1)%num else t1) = t2
                   ∧ denotes t2 v2 ∧ (0 <= v2)%Q ∧ (v2 <= 1)%Q)
    as (t2 & v2 & -> & Ht2 & H20 & H21).
  { unfold gt. destruct (num 1 <? t1)%num eqn:Hbig.
    - apply (denotes_lt (num 1) t1 1 v1 (denotes_num _) Ht1) in Hbig.
      exists (t1 - num 1)%num, (v1 - 1)%Q.
      split_and!; [done|eauto with denotes|lra|lra].
    - apply (denotes_lt_false (num 1) t1 1 v1 (denotes_num _) Ht1) in Hbig.
      exists t1, v1. split_and!; [done|done|lra|lra]. }
  assert (denotes (num 1 / num 6)%num (1 / 6) ∧ denotes (num 1 / num 2)%num (1 / 2)
          ∧ denotes (num 2 / num 3)%num (2 / 3)) as (H6 & H2 & H3)
    by (split_and!; apply denotes_div; (apply denotes_num || done)).
  destruct (t2 <? num 1 / num 6)%num eqn:Hc1.
  { apply (denotes_lt _ _ _ _ Ht2 H6) in Hc1.
    exists (vp + (vq - vp) * 6 * v2)%Q. split; [eauto 10 with denotes|].
    assert (1 / 6 == 1 # 6)%Q as E6 by reflexivity. rewrite E6 in Hc1.
    assert (0 <= v2 * 6 ∧ v2 * 6 <= 1)%Q as [? ?] by (split; lra).
    assert (0 <= (vq - vp) * (v2 * 6) ∧ (vq - vp) * (v2 * 6) <= vq - vp)%Q as [? ?]
      by (split; nra).
    split; lra. }
  destruct (t2 <? num 1 / num 2)%num eqn:Hc2; [exists vq; split_and!; [done|lra|lra]|].
  destruct (t2 <? num 2 / num 3)%num eqn:Hc3; [|exists vp; split_and!; [done|lra|lra]].
  apply (denotes_lt_false _ _ _ _ Ht2 H2) in Hc2.
  apply (denotes_lt _ _ _ _ Ht2 H3) in Hc3.
  exists (vp + (vq - vp) * (2 / 3 - v2) * 6)%Q. split; [eauto 10 with denotes|].
  assert (1 / 2 == 1 # 2)%Q as E2 by reflexivity.
  assert (2 / 3 == 2 # 3)%Q as E3 by reflexivity.
  rewrite E2 in Hc2. rewrite E3 in Hc3 |- *.
  assert (0 <= ((2 # 3) - v2) * 6 ∧ ((2 # 3) - v2) * 6 <= 1)%Q as [? ?] by (split; lra).
  assert (0 <= (vq - vp) * (((2 # 3) - v2) * 6)
          ∧ (vq - vp) * (((2 # 3) - v2) * 6) <= vq - vp)%Q as [? ?] by (split; nra).
  split; lra.
Qed.

(** The lightness band of a colour: [q] and [p = 2 l - q]. *)
Lemma hsl_band (s l : number) (vs vl : Q) :
  denotes s vs → denotes l vl →
  (0 <= vs)%Q → (vs <= 1)%Q → (0 <= vl)%Q → (vl <= 1)%Q →
  ∃ vp vq,
    denotes (if (l <? num 0.5)%num then (l * (num 1 + s))%num else (l + s - l * s)%num) vq
    ∧ denotes (num 2 * l
               - (if (l <? num 0.5)%num then (l * (num 1 + s))%num
                  else (l + s - l * s)%num))%num vp
    ∧ (0 <= vp)%Q ∧ (vp <= vq)%Q ∧ (vq <= 1)%Q.
Proof.
  intros Hs Hl Hs0 Hs1 Hl0 Hl1.
  assert (0 <= vl * vs ∧ vl * vs <= vl ∧ vl * vs <= vs ∧ 0 <= 1 - vs - vl + vl * vs)%Q
    as (? & ? & ? & ?) by (split_and!; nra).
  destruct (l <? num 0.5)%num eqn:Hdark.
  - apply (denotes_lt l (num 0.5) vl 0.5 Hl (denotes_num _)) in Hdark.
    exists (2 * vl - vl * (1 + vs))%Q, (vl * (1 + vs))%Q.
    split_and!; [eauto with denotes|eauto 10 with denotes|lra|lra|lra].
  - apply (denotes_lt_false l (num 0.5) vl 0.5 Hl (denotes_num _)) in Hdark.
    exists (2 * vl - (vl + vs - vl * vs))%Q, (vl + vs - vl * vs)%Q.
    split_and!; [eauto with denotes|eauto 10 with denotes|lra|lra|lra].
Qed.

(** The three channels of a colour. *)
Lemma hslToRgb_range (h s l : Q) :
  (0 <= h)%Q → (h <= 1)%Q → (0 <= s)%Q → (s <= 1)%Q → (0 <= l)%Q → (l <= 1)%Q →
  let '(r, g, b) := hslToRgb (Finite h) (Finite s) (Finite l) in
  channel r ∧ channel g ∧ channel b.
Proof.
  intros Hh0 Hh1 Hs0 Hs1 Hl0 Hl1. unfold hslToRgb.
  destruct (strict_eq (Finite s) (num 0)).
  - split_and!; by apply (Math_round_channel (Finite l) l); [apply denotes_Finite|..].
  - destruct (hsl_band (Finite s) (Finite l) s l (denotes_Finite s) (denotes_Finite l))
      as (vp & vq & Hq & Hp & Hp0 & Hpq & Hq1); [done..|].
    cbv zeta.
    set (q := if (Finite l <? num 0.5)%num then _ else _) in *.
    set (p := (num 2 * Finite l - q)%num) in *.
    assert (denotes (num 1 / num 3)%num (1 # 3)) as Hthird
      by (eapply denotes_proper; [|apply denotes_div; (apply denotes_num || done)]; reflexivity).
    destruct (hue2rgb_between p q (Finite h + num 1 / num 3)%num vp vq (h + (1 # 3)))
      as (vr & Hr & ? & ?); [done|done|eauto with denotes|done|lra|lra|].
    destruct (hue2rgb_between p q (Finite h) vp vq h)
      as (vg & Hg & ? & ?); [done|done|eauto with denotes|done|lra|lra|].
    destruct (hue2rgb_between p q (Finite h - num 1 / num 3)%num vp vq (h - (1 # 3)))
      as (vb & Hb & ? & ?); [done|done|eauto with denotes|done|lra|lra|].
    split_and!; eapply Math_round_channel; (done || lra).
Qed.

(** X23. For a hue, a saturation and a lightness between 0 and 1,
    [hslToRgb] returns three integers between 0 and 255. *)
Theorem hslToRgb_channels (h s l : Q) :
  (0 <= h)%Q → (h <= 1)%Q → (0 <= s)%Q → (s <= 1)%Q → (0 <= l)%Q → (l <= 1)%Q →
  let '(r, g, b) := hslToRgb (Finite h) (Finite s) (Finite l) in
  channel r ∧ channel g ∧ channel b.
Proof. exact (hslToRgb_range h s l). Qed.

Lemma hslToRgb_channels_witness :
  let '(r, g, b) := hslToRgb (Finite 0.5) (Finite 0.8) (Finite 0.25) in
  channel r ∧ channel g ∧ channel b.
Proof. apply (hslToRgb_channels 0.5 0.8 0.25); reflexivity || discriminate. Defined.

(** The intensity of a pixel is the spectrogram value times 255, clamped
    to the range from 0 to 255. *)
Lemma spectrogram_intensity (m : Q) :
  ∃ v, denotes (min (num 255) (max (num 0) (Finite m * num 255)%num)) v
       ∧ (0 <= v)%Q ∧ (v <= 255)%Q
       ∧ ((1 <= m)%Q → min (num 255) (max (num 0) (Finite m * num 255)%num) = num 255)
       ∧ ((m <= 0)%Q → min (num 255) (max (num 0) (Finite m * num 255)%num) = num 0).
Proof.
  assert (denotes (Finite m * num 255)%num (m * 255)) as Hscaled by eauto with denotes.
  assert (denotes (max (num 0) (Finite m * num 255)%num) (Qmax 0 (m * 255))) as Hmax
    by eauto with denotes.
  exists (Qmin 255 (Qmax 0 (m * 255))). split_and!.
  - eauto with denotes.
  - apply Q.min_glb; [lra|apply Q.le_max_l].
  - apply Q.le_min_l.
  - intros Hm. unfold min.
    destruct (max (num 0) (Finite m * num 255)%num) as [q| | |] eqn:Hq;
      try (by destruct Hmax as (? & [=] & _)).
    destruct (Finite q <? num 255)%num eqn:Hlt; [|done].
    apply (denotes_lt _ _ _ 255 Hmax (denotes_num _)) in Hlt.
    pose proof (Q.le_max_r 0 (m * 255)). lra.
  - intros Hm.
    assert (max (num 0) (Finite m * num 255)%num = num 0) as ->; [|done].
    unfold max. destruct (Finite m * num 255)%num as [q| | |] eqn:Hq;
      try (by destruct Hscaled as (? & [=] & _)).
    destruct (num 0 <? Finite q)%num eqn:Hlt; [|done].
    apply (denotes_lt _ _ 0 _ (denotes_num _) Hscaled) in Hlt. lra.
Qed.

(** X24. The pixel that shows a finite spectrogram value has three
    colour channels that are integers between 0 and 255; a value of 1 or
    more is shown in the colour of 1, and a value of 0 or less in the
    colour of 0. *)
Theorem spectrogram_color_channels (m : Q) :
  (let '(r, g, b) := spectrogram_color (Finite m) in channel r ∧ channel g ∧ channel b)
  ∧ ((1 <= m)%Q → spectrogram_color (Finite m) = spectrogram_color (num 1))
  ∧ ((m <= 0)%Q → spectrogram_color (Finite m) = spectrogram_color (num 0)).
Proof.
  destruct (spectrogram_intensity m) as (v & Hv & Hv0 & Hv1 & Hhigh & Hlow).
  split_and!.
  - unfold spectrogram_color. cbv zeta.
    set (intensity := min (num 255) (max (num 0) (Finite m * num 255)%num)) in *.
    assert (denotes (intensity / num 255)%num (v / 255)) as Hunit
      by (apply denotes_div; [done|apply denotes_num|done]).
    assert (0 <= v / 255 ∧ v / 255 <= 1)%Q as [? ?]
      by (split; [apply Qle_shift_div_l|apply Qle_shift_div_r]; lra).
    destruct (denotes_div (num 200 + intensity / num 255 * num 100)%num (num 360)
                (200 + v / 255 * 100) 360) as (h & Hh & Hhv);
      [eauto with denotes|apply denotes_num|done|].
    destruct (denotes_div (num 80) (num 100) 80 100) as (s & Hs & Hsv);
      [apply denotes_num|apply denotes_num|done|].
    destruct (denotes_div (intensity / num 255 * num 60 + num 10)%num (num 100)
                (v / 255 * 60 + 10) 100) as (l & Hl & Hlv);
      [eauto with denotes|apply denotes_num|done|].
    rewrite Hh, Hs, Hl.
    assert ((200 + v / 255 * 100) / 360 == (200 + v / 255 * 100) * (1 # 360))%Q as Eh
      by (field).
    assert (80 / 100 == 4 # 5)%Q as Es by reflexivity.
    assert ((v / 255 * 60 + 10) / 100 == (v / 255 * 60 + 10) * (1 # 100))%Q as El by field.
    apply hslToRgb_range; rewrite ?Hhv, ?Hsv, ?Hlv, ?Eh, ?Es, ?El; lra.
  - intros Hm. unfold spectrogram_color. cbv zeta. rewrite Hhigh by done.
    destruct (spectrogram_intensity (Qred 1)) as (_ & _ & _ & _ & Hone & _).
    change (Finite (Qred 1)) with (num 1) in Hone. by rewrite Hone.
  - intros Hm. unfold spectrogram_color. cbv zeta. rewrite Hlow by done.
    destruct (spectrogram_intensity (Qred 0)) as (_ & _ & _ & _ & _ & Hzero).
    change (Finite (Qred 0)) with (num 0) in Hzero. by rewrite Hzero.
Qed.

(** The distance of a rational from the nearest integer is at most a half. *)
Lemma round_distance (q : Q) :
  (- (1 # 2) <= q - inject_Z (Qfloor (q + (1 # 2))))%Q
  ∧ (q - inject_Z (Qfloor (q + (1 # 2))) < 1 # 2)%Q.
Proof.
  pose proof (Qfloor_le (q + (1 # 2))) as Hle.
  pose proof (Qlt_floor (q + (1 # 2))) as Hlt.
  rewrite inject_Z_plus in Hlt. change (inject_Z 1) with 1%Q in Hlt. split; lra.
Qed.

(** X25. For a finite frequency above zero, and a host whose
    [Math.pow(2, -4.75)] is a finite number above zero, the deviation
    [getCentsDeviation] shows is an integer between -50 and 50 cents. *)
Theorem getCentsDeviation_range (host : HostLog) (frequency c : Q) :
  (0 < frequency)%Q → host_pow host (num 2) (num (-4.75)) = Finite c → (0 < c)%Q →
  ∃ cents : Z, getCentsDeviation host (Finite frequency) = of_Z cents ∧ -50 ≤ cents ≤ 50.
Proof.
  intros Hf Hpow Hc. unfold getCentsDeviation.
  assert ((Finite frequency <=? num 0)%num = false) as ->.
  { destruct (Finite frequency <=? num 0)%num eqn:Hle; [|done].
    apply (denotes_le _ _ frequency 0 (denotes_Finite _) (denotes_num _)) in Hle. lra. }
  cbv zeta. rewrite Hpow.
  destruct (denotes_div (Finite frequency) (num 440 * Finite c)%num frequency (440 * c))
    as (ratio & -> & Hratio); [eauto with denotes..|lra|].
  assert (0 < ratio)%Q as Hpos.
  { rewrite Hratio. apply Qlt_shift_div_l; lra. }
  assert (∃ l, Math_log2 host (Finite ratio) = Finite l) as [l ->].
  { unfold Math_log2. rewrite Qeq_bool_false by lra.
    destruct (Qeq_bool ratio 1); [by eexists|].
    rewrite (proj2 (Qle_bool_iff 0 ratio)) by lra. by eexists. }
  destruct (denotes_mul (num 12) (Finite l) 12 l (denotes_num _) (denotes_Finite _))
    as (h & -> & Hh).
  cbn [Math_round].
  destruct (denotes_mul (Finite h - of_Z (Qfloor (h + (1 # 2))))%num (num 100)
              (h - inject_Z (Qfloor (h + (1 # 2)))) 100) as (cents & -> & Hcents);
    [eauto with denotes|apply denotes_num|].
  cbn [Math_round]. eexists. split; [done|].
  destruct (round_distance h) as [Hlo Hhi]. split.
  - change (-50) with (Qfloor (- 50 + (1 # 2))). apply Qfloor_resp_le. rewrite Hcents. lra.
  - change 50 with (Qfloor (50 + (1 # 2))). apply Qfloor_resp_le. rewrite Hcents. lra.
Qed.

Lemma getCentsDeviation_range_witness :
  ∃ cents : Z,
    getCentsDeviation {| host_pow := λ _ _, num 0.0371627; host_log2 := λ q, (q - 1)%Q |}
      (Finite 450) = of_Z cents
    ∧ -50 ≤ cents ≤ 50.
Proof.
  apply (getCentsDeviation_range _ 450 (Qred 0.0371627)); reflexivity.
Defined.
